(** * spew: a status-line generator, verified against its Go source

    The development embeds [spew.go]: the string helpers it calls, the
    supervisor [Spew], and the goroutines it starts ([timerSource],
    [listenerSource], [readLines]), as an executable transition system
    over unbuffered channels. *)

From stdpp Require Import gmap strings list.
From Stdlib Require Import ZArith Ascii String Lia.

Local Open Scope string_scope.
Local Open Scope list_scope.

(** ** Go's [strings] package, as far as [spew.go] calls it

    A Go string is a sequence of bytes; so is a [string] here.  *)

Module Strings.

Fixpoint HasPrefix (s prefix : string) {struct prefix} : bool :=
  match prefix with
  | EmptyString => true
  | String p prefix' =>
      match s with
      | EmptyString => false
      | String c s' => Ascii.eqb c p && HasPrefix s' prefix'
      end
  end.

(** [strings.Contains(s, substr)]: [substr] occurs somewhere in [s]. *)
Fixpoint Contains (s substr : string) : bool :=
  HasPrefix s substr ||
  match s with
  | EmptyString => false
  | String _ s' => Contains s' substr
  end.

(** The scan of [strings.ReplaceAll] for a non-empty [old]: left to right,
    occurrences do not overlap.  [skip] counts the bytes of the occurrence
    just replaced that are still to be passed over. *)
Fixpoint replace_from (old new : string) (skip : nat) (s : string) : string :=
  match s with
  | EmptyString => EmptyString
  | String c s' =>
      match skip with
      | S k => replace_from old new k s'
      | O =>
          if HasPrefix s old
          then new +:+ replace_from old new (String.length old - 1) s'
          else String c (replace_from old new 0 s')
      end
  end.

(** With an empty [old], Go inserts [new] before every character and at the
    end; this is written per byte, which is what Go does on ASCII text. *)
Fixpoint intersperse (new s : string) : string :=
  match s with
  | EmptyString => new
  | String c s' => new +:+ String c (intersperse new s')
  end.

Definition ReplaceAll (s old new : string) : string :=
  match old with
  | EmptyString => intersperse new s
  | _ => replace_from old new 0 s
  end.

(** The scan of [strings.Split] for a non-empty [sep]; the head of the result
    is the part being read. *)
Fixpoint split_from (sep : string) (skip : nat) (s : string) : list string :=
  match s with
  | EmptyString => [EmptyString]
  | String c s' =>
      match skip with
      | S k => split_from sep k s'
      | O =>
          if HasPrefix s sep
          then EmptyString :: split_from sep (String.length sep - 1) s'
          else match split_from sep 0 s' with
               | part :: parts => String c part :: parts
               | [] => [String c EmptyString]
               end
      end
  end.

Fixpoint explode (s : string) : list string :=
  match s with
  | EmptyString => []
  | String c s' => String c EmptyString :: explode s'
  end.

Definition Split (s sep : string) : list string :=
  match sep with
  | EmptyString => explode s
  | _ => split_from sep 0 s
  end.

Definition is_digit (c : ascii) : bool :=
  let n := nat_of_ascii c in (48 <=? n)%nat && (n <=? 57)%nat.
Definition is_lower (c : ascii) : bool :=
  let n := nat_of_ascii c in (97 <=? n)%nat && (n <=? 122)%nat.
Definition is_upper (c : ascii) : bool :=
  let n := nat_of_ascii c in (65 <=? n)%nat && (n <=? 90)%nat.
Definition is_underscore (c : ascii) : bool :=
  (nat_of_ascii c =? 95)%nat.

(** [isSeparator] of [strings.Title]: below 0x80, everything but letters,
    digits and the underscore separates words.  From 0x80 on Go consults the
    Unicode tables; here such a byte is kept as a word character, so [Title]
    is Go's on ASCII names. *)
Definition isSeparator (c : ascii) : bool :=
  if (nat_of_ascii c <=? 127)%nat
  then negb (is_digit c || is_lower c || is_upper c || is_underscore c)
  else false.

(** [unicode.ToTitle] on ASCII: title case is upper case.  Other bytes are
    left as they are, where Go maps the runes they encode. *)
Definition ToTitle (c : ascii) : ascii :=
  if is_lower c then ascii_of_nat (nat_of_ascii c - 32) else c.

(** [strings.Title] maps over the string remembering the previous
    character, which starts as a space.  With [isSeparator] and [ToTitle] as
    above this is Go's function on strings of ASCII bytes; what depends on
    the value of [Title] is stated for such names only. *)
Fixpoint title_from (prev : ascii) (s : string) : string :=
  match s with
  | EmptyString => EmptyString
  | String c s' =>
      String (if isSeparator prev then ToTitle c else c) (title_from c s')
  end.

Definition Title (s : string) : string := title_from " "%char s.

End Strings.

Import Strings.

Definition LF : ascii := ascii_of_nat 10.
Definition CR : ascii := ascii_of_nat 13.

(** [sanitize], spew.go:99-104. *)
Definition sanitize (s : string) : string :=
  let res := s in
  let res := ReplaceAll res (String LF EmptyString) "" in
  let res := ReplaceAll res (String CR EmptyString) "" in
  res.

(** The spec's wording of the key: the name with its first letter in upper
    case and the rest as it is. *)
Definition capitalize_first (s : string) : string :=
  match s with
  | EmptyString => EmptyString
  | String c s' => String (ToTitle c) s'
  end.


(** ** Data model, spew.go:14-30 *)

Record Source := { Name : string; Type_ : string; Script : string }.

Record Config := { Template : string; Sources : list Source }.

(** The [output] struct sent on [outChan]. *)
Record output := { oName : string; oValue : string }.

(** The errors [spew.go] builds with [fmt.Errorf], one constructor per format
    string; [cause] is the text of the wrapped error. *)
Inductive error :=
| ErrParseTemplate (cause : string)
| ErrRender (cause : string)
| ErrWrite (cause : string)
| ErrRunCommand (script cause out : string)
| ErrUnsupported (ty : string)
| ErrParseDuration (part cause : string)
| ErrStdoutPipe (script cause : string)
| ErrStderrPipe (script cause : string)
| ErrStart (script cause : string)
| ErrRead (cause : string).

(** What a pipe of a listener's command delivers: the lines [ReadString]
    returns one after the other, then either an error ([Some], such as EOF)
    or nothing more ([None]: the read blocks). *)
Record stream := { lines : list string; ending : option string }.

Inductive start_result :=
| StdoutPipeFails (cause : string)
| StderrPipeFails (cause : string)
| StartFails (cause : string)
| Started (out err : stream).

(** Everything outside the repository that a run depends on: the library
    functions it calls, and what the shell commands and the output sink do.
    Commands are identified by the position of their source in the config,
    timer runs also by their number. *)
Record World := {
  template_Parse : string -> option string;
  template_Execute : string -> gmap string string -> string + string;
  time_ParseDuration : string -> Z + string;
  bufw_Flush : nat -> option string;
  once_run : nat -> string * option string;
  timer_run : nat -> nat -> string * option string;
  listener_cmd : nat -> start_result
}.

(** The [switch] of spew.go:62-80. *)
Inductive source_kind := KTimer | KListen | KOnce | KUnsupported.

Definition dispatch (ty : string) : source_kind :=
  if Contains ty "timer" then KTimer
  else if Contains ty "listen" then KListen
  else if Contains ty "once" then KOnce
  else KUnsupported.

(** ** Goroutines

    Each goroutine is at one of its blocking points. *)

(** [readLines], spew.go:226-250. *)
Inductive reader_pc :=
| RNotStarted
| RReading
| RSendLine (line : string)
| RSendErr (e : error)
| RClosed.

Record reader := { r_pc : reader_pc; r_rest : stream }.

(** [listenerSource], spew.go:162-224.  [LSendOut] is the send of line 214,
    [LSendLast] the one of line 219, after which the driver returns; the error
    sent at [LSendErr] is nil when it was read from a closed channel. *)
Inductive listener_pc :=
| LStart
| LSelect
| LSendOut (o : output)
| LSendLast (o : output)
| LSendErr (e : option error)
| LReturned.

(** [timerSource], spew.go:112-160; [k] numbers the next run of the command. *)
Inductive timer_pc :=
| TStart
| TSendErr (e : error)
| TSendFirst (d : Z) (o : output)
| TNewTicker (d : Z)
| TTicking (d : Z) (k : nat)
| TSend (d : Z) (k : nat) (o : output)
| TReturned.

Inductive driver :=
| Timer (pc : timer_pc)
| Listener (pc : listener_pc) (rout rerr : reader).

Record goroutine := { g_idx : nat; g_src : Source; g_drv : driver }.

Inductive outcome := Next (d : driver) | Panic | Blocked.

Definition reader0 : reader :=
  {| r_pc := RNotStarted; r_rest := {| lines := []; ending := None |} |}.

Definition mkOutput (s : Source) (v : string) : output :=
  {| oName := Name s; oValue := v |}.

(** spew.go:113-130: [parts[1]] panics when the type has no colon. *)
Definition timer_start (W : World) (i : nat) (s : Source) : outcome :=
  let parts := Split (Type_ s) ":" in
  match nth_error parts 1 with
  | None => Panic
  | Some part =>
      match time_ParseDuration W part with
      | inr cause => Next (Timer (TSendErr (ErrParseDuration part cause)))
      | inl d =>
          match timer_run W i 0 with
          | (o, Some cause) => Next (Timer (TSendErr (ErrRunCommand (Script s) cause o)))
          | (o, None) => Next (Timer (TSendFirst d (mkOutput s o)))
          end
      end
  end.

(** spew.go:143-151: a tick, and the command run again. *)
Definition timer_tick (W : World) (i : nat) (s : Source) (d : Z) (k : nat) : outcome :=
  match timer_run W i k with
  | (o, Some cause) => Next (Timer (TSendErr (ErrRunCommand (Script s) cause o)))
  | (o, None) => Next (Timer (TSend d (S k) (mkOutput s o)))
  end.

(** spew.go:163-193. *)
Definition listener_start (W : World) (i : nat) (s : Source) : outcome :=
  match listener_cmd W i with
  | StdoutPipeFails cause =>
      Next (Listener (LSendErr (Some (ErrStdoutPipe (Script s) cause))) reader0 reader0)
  | StderrPipeFails cause =>
      Next (Listener (LSendErr (Some (ErrStderrPipe (Script s) cause))) reader0 reader0)
  | StartFails cause =>
      Next (Listener (LSendErr (Some (ErrStart (Script s) cause))) reader0 reader0)
  | Started so se =>
      Next (Listener LSelect {| r_pc := RReading; r_rest := so |}
                             {| r_pc := RReading; r_rest := se |})
  end.

(** A goroutine goes on by itself: it starts, or its ticker fires.
    [time.NewTicker] panics on a period that is not positive. *)
Definition go_step (W : World) (g : goroutine) : outcome :=
  match g_drv g with
  | Timer TStart => timer_start W (g_idx g) (g_src g)
  | Timer (TNewTicker d) => if (d <=? 0)%Z then Panic else Next (Timer (TTicking d 1))
  | Timer (TTicking d k) => timer_tick W (g_idx g) (g_src g) d k
  | Listener LStart _ _ => listener_start W (g_idx g) (g_src g)
  | _ => Blocked
  end.

(** The [case <-ctx.Done()] of every select of a driver. *)
Definition go_done (g : goroutine) : outcome :=
  match g_drv g with
  | Timer (TSendErr _) | Timer (TSendFirst _ _) | Timer (TTicking _ _) | Timer (TSend _ _ _) =>
      Next (Timer TReturned)
  | Listener LSelect ro re | Listener (LSendOut _) ro re
  | Listener (LSendLast _) ro re | Listener (LSendErr _) ro re =>
      Next (Listener LReturned ro re)
  | _ => Blocked
  end.

Inductive fd := Stdout | Stderr.
Inductive chan_kind := Lines | Errors.

(** What a receive from a reader's error channel yields, and the reader
    afterwards: the error it is sending (it then returns and closes its
    channels), or nil from a closed channel. *)
Definition recv_err (r : reader) : option (option error * reader) :=
  match r_pc r with
  | RSendErr e => Some (Some e, {| r_pc := RClosed; r_rest := r_rest r |})
  | RClosed => Some (None, r)
  | _ => None
  end.

(** The same for its line channel; a closed channel yields the empty string. *)
Definition recv_line (r : reader) : option (string * reader) :=
  match r_pc r with
  | RSendLine l => Some (l, {| r_pc := RReading; r_rest := r_rest r |})
  | RClosed => Some (EmptyString, r)
  | _ => None
  end.

(** The four receive cases of the select of spew.go:195-222. *)
Definition go_recv (f : fd) (k : chan_kind) (g : goroutine) : outcome :=
  match g_drv g with
  | Listener LSelect ro re =>
      match f, k with
      | Stdout, Errors =>
          match recv_err ro with
          | Some (e, ro') => Next (Listener (LSendErr e) ro' re)
          | None => Blocked
          end
      | Stderr, Errors =>
          match recv_err re with
          | Some (e, re') => Next (Listener (LSendErr e) ro re')
          | None => Blocked
          end
      | Stdout, Lines =>
          match recv_line ro with
          | Some (l, ro') => Next (Listener (LSendOut (mkOutput (g_src g) l)) ro' re)
          | None => Blocked
          end
      | Stderr, Lines =>
          match recv_line re with
          | Some (l, re') => Next (Listener (LSendLast (mkOutput (g_src g) l)) ro re')
          | None => Blocked
          end
      end
  | _ => Blocked
  end.

(** spew.go:234-241: [ReadString] returns the next line, or fails. *)
Definition read (r : reader) : option reader :=
  match r_pc r with
  | RReading =>
      match lines (r_rest r), ending (r_rest r) with
      | l :: ls, e => Some {| r_pc := RSendLine l; r_rest := {| lines := ls; ending := e |} |}
      | [], Some cause => Some {| r_pc := RSendErr (ErrRead cause); r_rest := r_rest r |}
      | [], None => None
      end
  | _ => None
  end.

(** The [case <-ctx.Done()] of the reader's two selects. *)
Definition reader_done (r : reader) : option reader :=
  match r_pc r with
  | RSendLine _ | RSendErr _ => Some {| r_pc := RClosed; r_rest := r_rest r |}
  | _ => None
  end.

Definition on_reader (op : reader -> option reader) (f : fd) (g : goroutine) : outcome :=
  match g_drv g with
  | Listener pc ro re =>
      match f with
      | Stdout => match op ro with Some ro' => Next (Listener pc ro' re) | None => Blocked end
      | Stderr => match op re with Some re' => Next (Listener pc ro re') | None => Blocked end
      end
  | _ => Blocked
  end.

(** What a driver is sending on [outChan], and where it goes once the
    supervisor has received it. *)
Definition offers_out (d : driver) : option (output * driver) :=
  match d with
  | Timer (TSendFirst d o) => Some (o, Timer (TNewTicker d))
  | Timer (TSend d k o) => Some (o, Timer (TTicking d k))
  | Listener (LSendOut o) ro re => Some (o, Listener LSelect ro re)
  | Listener (LSendLast o) ro re => Some (o, Listener LReturned ro re)
  | _ => None
  end.

(** The same for [errChan]; every driver returns after the send. *)
Definition offers_err (d : driver) : option (option error * driver) :=
  match d with
  | Timer (TSendErr e) => Some (Some e, Timer TReturned)
  | Listener (LSendErr e) ro re => Some (e, Listener LReturned ro re)
  | _ => None
  end.

(** ** The supervisor, spew.go:34-97 *)

Inductive spew_pc :=
| InSetup (i : nat) (s : Source) (rest : list Source)
| InLoop
| Returned (r : option error).

(** One render that reached the writer [w]: the text, together with the
    record that caused it, the config position of its source, and the table
    the template was executed on. *)
Record rendering := {
  r_from : nat;
  r_out : output;
  r_ctx : gmap string string;
  r_text : string
}.

Record state := {
  pc : spew_pc;
  templateCtx : gmap string string;
  written : list rendering;
  mainDone : bool;
  cancelled : bool;
  crashed : bool;
  goroutines : list goroutine
}.

(** [ctx] is derived from [mainCtx]: it is done when the caller cancelled or
    when [cancel] was called. *)
Definition ctxDone (st : state) : bool := mainDone st || cancelled st.

(** The loop over the sources goes on with the next one, or is over. *)
Definition enter (i : nat) (rest : list Source) : spew_pc :=
  match rest with
  | [] => InLoop
  | s :: rest' => InSetup i s rest'
  end.

Definition init (c : Config) : state :=
  {| pc := enter 0 (Sources c); templateCtx := ∅; written := [];
     mainDone := false; cancelled := false; crashed := false; goroutines := [] |}.

(** spew.go:35-38: a template that does not parse ends the run before the
    context and the channels exist. *)
Definition Spew_start (W : World) (c : Config) : error + state :=
  match template_Parse W (Template c) with
  | Some cause => inl (ErrParseTemplate cause)
  | None => inr (init c)
  end.

(** The closure [render], spew.go:43-53; [n] numbers the flush. *)
Definition render (W : World) (tmpl : string) (ctx : gmap string string) (n : nat)
  : string + error :=
  match template_Execute W tmpl ctx with
  | inr cause => inr (ErrRender cause)
  | inl text =>
      match bufw_Flush W n with
      | Some cause => inr (ErrWrite cause)
      | None => inl text
      end
  end.

(** The assignment of spew.go:73 and :90. *)
Definition store (o : output) (ctx : gmap string string) : gmap string string :=
  <[Title (oName o) := sanitize (oValue o)]> ctx.

(** A [return] of [Spew]; the deferred [cancel] runs. *)
Definition return_with (st : state) (r : option error) (gs : list goroutine) : state :=
  {| pc := Returned r; templateCtx := templateCtx st; written := written st;
     mainDone := mainDone st; cancelled := true; crashed := crashed st;
     goroutines := gs |}.

(** spew.go:73-77 and :90-94: store the record, render, go on at [next]. *)
Definition handle (W : World) (tmpl : string) (st : state) (from : nat) (o : output)
    (next : spew_pc) (gs : list goroutine) : state :=
  let ctx := store o (templateCtx st) in
  match render W tmpl ctx (List.length (written st)) with
  | inl text =>
      {| pc := next; templateCtx := ctx;
         written := written st ++ [{| r_from := from; r_out := o; r_ctx := ctx; r_text := text |}];
         mainDone := mainDone st; cancelled := cancelled st; crashed := crashed st;
         goroutines := gs |}
  | inr e =>
      {| pc := Returned (Some e); templateCtx := ctx; written := written st;
         mainDone := mainDone st; cancelled := true; crashed := crashed st;
         goroutines := gs |}
  end.

Definition spawn (st : state) (next : spew_pc) (g : goroutine) : state :=
  {| pc := next; templateCtx := templateCtx st; written := written st;
     mainDone := mainDone st; cancelled := cancelled st; crashed := crashed st;
     goroutines := goroutines st ++ [g] |}.

(** One iteration of the loop of spew.go:61-81. *)
Definition spew_dispatch (W : World) (tmpl : string) (st : state)
    (i : nat) (s : Source) (rest : list Source) : state :=
  match dispatch (Type_ s) with
  | KTimer => spawn st (enter (S i) rest) {| g_idx := i; g_src := s; g_drv := Timer TStart |}
  | KListen =>
      spawn st (enter (S i) rest)
        {| g_idx := i; g_src := s; g_drv := Listener LStart reader0 reader0 |}
  | KOnce =>
      match once_run W i with
      | (o, Some cause) =>
          return_with st (Some (ErrRunCommand (Script s) cause o)) (goroutines st)
      | (o, None) => handle W tmpl st i (mkOutput s o) (enter (S i) rest) (goroutines st)
      end
  | KUnsupported => return_with st (Some (ErrUnsupported (Type_ s))) (goroutines st)
  end.

Definition with_driver (g : goroutine) (d : driver) : goroutine :=
  {| g_idx := g_idx g; g_src := g_src g; g_drv := d |}.

Definition set_goroutines (st : state) (gs : list goroutine) : state :=
  {| pc := pc st; templateCtx := templateCtx st; written := written st;
     mainDone := mainDone st; cancelled := cancelled st; crashed := crashed st;
     goroutines := gs |}.

Definition set_crashed (st : state) : state :=
  {| pc := pc st; templateCtx := templateCtx st; written := written st;
     mainDone := mainDone st; cancelled := cancelled st; crashed := true;
     goroutines := goroutines st |}.

Definition set_mainDone (st : state) : state :=
  {| pc := pc st; templateCtx := templateCtx st; written := written st;
     mainDone := true; cancelled := cancelled st; crashed := crashed st;
     goroutines := goroutines st |}.

(** Goroutine [j] takes a step of its own; a panic ends the process. *)
Definition local (st : state) (j : nat) (f : goroutine -> outcome) : option state :=
  match goroutines st !! j with
  | None => None
  | Some g =>
      match f g with
      | Next d => Some (set_goroutines st (<[j := with_driver g d]> (goroutines st)))
      | Panic => Some (set_crashed st)
      | Blocked => None
      end
  end.

(** The choices of the scheduler, of Go's [select] among ready cases, and of
    the caller who may cancel [mainCtx]. *)
Inductive action :=
| MainCancel
| SpewStep
| SpewDone
| SpewRecvErr (j : nat)
| SpewRecvOut (j : nat)
| GoStep (j : nat)
| GoDone (j : nat)
| GoRecv (j : nat) (f : fd) (k : chan_kind)
| ReaderRead (j : nat) (f : fd)
| ReaderDone (j : nat) (f : fd).

(** One step of the whole program; [None] when the action is not possible in
    [st].  The channels are unbuffered: a send and its receive are one step. *)
Definition step (W : World) (c : Config) (st : state) (a : action) : option state :=
  if crashed st then None else
  match a with
  | MainCancel => Some (set_mainDone st)
  | SpewStep =>
      match pc st with
      | InSetup i s rest => Some (spew_dispatch W (Template c) st i s rest)
      | _ => None
      end
  | SpewDone =>
      match pc st with
      | InLoop => if ctxDone st then Some (return_with st None (goroutines st)) else None
      | _ => None
      end
  | SpewRecvErr j =>
      match pc st, goroutines st !! j with
      | InLoop, Some g =>
          match offers_err (g_drv g) with
          | Some (e, d) => Some (return_with st e (<[j := with_driver g d]> (goroutines st)))
          | None => None
          end
      | _, _ => None
      end
  | SpewRecvOut j =>
      match pc st, goroutines st !! j with
      | InLoop, Some g =>
          match offers_out (g_drv g) with
          | Some (o, d) =>
              Some (handle W (Template c) st (g_idx g) o InLoop
                      (<[j := with_driver g d]> (goroutines st)))
          | None => None
          end
      | _, _ => None
      end
  | GoStep j => local st j (go_step W)
  | GoDone j => if ctxDone st then local st j go_done else None
  | GoRecv j f k => local st j (go_recv f k)
  | ReaderRead j f => local st j (on_reader read f)
  | ReaderDone j f => if ctxDone st then local st j (on_reader reader_done f) else None
  end.

Fixpoint exec (W : World) (c : Config) (acts : list action) (st : state) : option state :=
  match acts with
  | [] => Some st
  | a :: acts' =>
      match step W c st a with
      | Some st' => exec W c acts' st'
      | None => None
      end
  end.

(** The records of source [i] that the supervisor rendered, oldest first. *)
Definition rendered_of (i : nat) (st : state) : list rendering :=
  filter (fun r => r_from r = i) (written st).

(** ** Auxiliary notions for the statements *)

(** [s] without the occurrences of the character [a]. *)
Fixpoint strip (a : ascii) (s : string) : string :=
  match s with
  | EmptyString => EmptyString
  | String c s' => if Ascii.eqb c a then strip a s' else String c (strip a s')
  end.

Definition is_word_char (c : ascii) : bool :=
  is_digit c || is_lower c || is_upper c || is_underscore c.

(** A name that is one word: letters, digits and underscores only. *)
Fixpoint single_word (s : string) : bool :=
  match s with
  | EmptyString => true
  | String c s' => is_word_char c && single_word s'
  end.

Definition is_returned (p : spew_pc) : bool :=
  match p with Returned _ => true | _ => false end.

(** The goroutines the loop of spew.go:61-81 starts for the sources [srcs],
    which stand in the config from position [i] on. *)
Fixpoint spawned (i : nat) (srcs : list Source) : list (nat * Source) :=
  match srcs with
  | [] => []
  | s :: srcs' =>
      match dispatch (Type_ s) with
      | KTimer | KListen => (i, s) :: spawned (S i) srcs'
      | _ => spawned (S i) srcs'
      end
  end.

Definition tag (g : goroutine) : nat * Source := (g_idx g, g_src g).

(** A goroutine runs the driver its source's type selects. *)
Definition kind_ok (g : goroutine) : Prop :=
  match g_drv g with
  | Timer _ => dispatch (Type_ (g_src g)) = KTimer
  | Listener _ _ _ => dispatch (Type_ (g_src g)) = KListen
  end.

Definition same_driver (d d' : driver) : Prop :=
  match d, d' with
  | Timer _, Timer _ => True
  | Listener _ _ _, Listener _ _ _ => True
  | _, _ => False
  end.

(** Where the supervisor stands when [k] sources have been dispatched. *)
Definition at_pos (c : Config) (k : nat) (p : spew_pc) : Prop :=
  match p with
  | InSetup i s rest => k = i /\ drop i (Sources c) = s :: rest
  | InLoop => k = List.length (Sources c)
  | Returned _ => True
  end.

Record sup_inv (c : Config) (st : state) : Prop := {
  inv_cancel : cancelled st = is_returned (pc st);
  inv_pos : exists k, k <= List.length (Sources c) /\
                      tag <$> goroutines st = spawned 0 (take k (Sources c)) /\
                      Forall (fun r => r_from r < k) (written st) /\
                      at_pos c k (pc st);
  inv_kind : Forall kind_ok (goroutines st)
}.

(** ** The steps of the program, as a relation

    [moves] lists the transitions of [step] by kind; it is what the
    invariants below are proved against. *)

Definition new_goroutine (i : nat) (s : Source) : option goroutine :=
  match dispatch (Type_ s) with
  | KTimer => Some {| g_idx := i; g_src := s; g_drv := Timer TStart |}
  | KListen => Some {| g_idx := i; g_src := s; g_drv := Listener LStart reader0 reader0 |}
  | _ => None
  end.

(** Goroutine [j] can take action [a] by itself, with the result [out];
    [done] tells whether [ctx] is done. *)
Definition local_move (W : World) (done : bool) (a : action) (j : nat)
    (g : goroutine) (out : outcome) : Prop :=
  match a with
  | GoStep j' => j' = j /\ out = go_step W g
  | GoDone j' => j' = j /\ done = true /\ out = go_done g
  | GoRecv j' f k => j' = j /\ out = go_recv f k g
  | ReaderRead j' f => j' = j /\ out = on_reader read f g
  | ReaderDone j' f => j' = j /\ done = true /\ out = on_reader reader_done f g
  | _ => False
  end.

Inductive moves (W : World) (c : Config) (st : state) : action -> state -> Prop :=
| m_cancel :
    moves W c st MainCancel (set_mainDone st)
| m_spawn i s rest g :
    pc st = InSetup i s rest -> new_goroutine i s = Some g ->
    moves W c st SpewStep (spawn st (enter (S i) rest) g)
| m_once_fails i s rest o cause :
    pc st = InSetup i s rest -> dispatch (Type_ s) = KOnce ->
    once_run W i = (o, Some cause) ->
    moves W c st SpewStep
      (return_with st (Some (ErrRunCommand (Script s) cause o)) (goroutines st))
| m_once i s rest o :
    pc st = InSetup i s rest -> dispatch (Type_ s) = KOnce ->
    once_run W i = (o, None) ->
    moves W c st SpewStep
      (handle W (Template c) st i (mkOutput s o) (enter (S i) rest) (goroutines st))
| m_unsupported i s rest :
    pc st = InSetup i s rest -> dispatch (Type_ s) = KUnsupported ->
    moves W c st SpewStep
      (return_with st (Some (ErrUnsupported (Type_ s))) (goroutines st))
| m_done :
    pc st = InLoop -> ctxDone st = true ->
    moves W c st SpewDone (return_with st None (goroutines st))
| m_recv_err j g e d :
    pc st = InLoop -> goroutines st !! j = Some g ->
    offers_err (g_drv g) = Some (e, d) ->
    moves W c st (SpewRecvErr j)
      (return_with st e (<[j := with_driver g d]> (goroutines st)))
| m_recv_out j g o d :
    pc st = InLoop -> goroutines st !! j = Some g ->
    offers_out (g_drv g) = Some (o, d) ->
    moves W c st (SpewRecvOut j)
      (handle W (Template c) st (g_idx g) o InLoop
         (<[j := with_driver g d]> (goroutines st)))
| m_local a j g d :
    goroutines st !! j = Some g ->
    local_move W (ctxDone st) a j g (Next d) ->
    moves W c st a (set_goroutines st (<[j := with_driver g d]> (goroutines st)))
| m_panic a j g :
    goroutines st !! j = Some g ->
    local_move W (ctxDone st) a j g Panic ->
    moves W c st a (set_crashed st).

(** ** Sample worlds and configs for the concrete runs *)

(** A stand-in for the template engine: the entries of the table, then the
    template text. *)
Definition show_table (tmpl : string) (ctx : gmap string string) : string + string :=
  inl (foldr (fun kv acc => kv.1 +:+ "=" +:+ kv.2 +:+ ";" +:+ acc) tmpl (map_to_list ctx)).

Definition nl (s : string) : string := s +:+ String LF EmptyString.

Definition one_second (s : string) : Z + string :=
  if String.eqb s "1s" then inl 1000000000%Z else inr "time: invalid duration".

(** A world where the library calls and the sink succeed; [once] gives the
    results of the once commands and [cmd] those of starting a listener. *)
Definition sample_world (once : nat -> string * option string)
    (cmd : nat -> start_result) : World :=
  {| template_Parse := fun _ => None;
     template_Execute := show_table;
     time_ParseDuration := one_second;
     bufw_Flush := fun _ => None;
     once_run := once;
     timer_run := fun _ _ => ("tick", None);
     listener_cmd := cmd |}.

Definition silent : stream := {| lines := []; ending := None |}.

Definition listen_source : Source :=
  {| Name := "random"; Type_ := "listen"; Script := "gen" |}.

Definition listen_config : Config :=
  {| Template := "|"; Sources := [listen_source] |}.

(** A listener whose command writes one line to its standard error. *)
Definition stderr_world : World :=
  sample_world (fun _ => ("", None))
    (fun _ => Started silent {| lines := [nl "oops"]; ending := None |}).

Definition stderr_run : list action :=
  [SpewStep; GoStep 0; ReaderRead 0 Stderr; GoRecv 0 Stderr Lines; SpewRecvOut 0].

(** A listener whose command exits at once: its standard output ends. *)
Definition eof_world : World :=
  sample_world (fun _ => ("", None))
    (fun _ => Started {| lines := []; ending := Some "EOF" |} silent).

Definition eof_cancel_run : list action :=
  [SpewStep; GoStep 0; ReaderRead 0 Stdout; GoRecv 0 Stdout Errors; MainCancel; SpewRecvErr 0].

(** A listener whose command prints three lines and goes on running. *)
Definition abc_world : World :=
  sample_world (fun _ => ("", None))
    (fun _ => Started {| lines := [nl "a"; nl "b"; nl "c"]; ending := None |} silent).

Definition forward : list action :=
  [ReaderRead 0 Stdout; GoRecv 0 Stdout Lines; SpewRecvOut 0].

Definition abc_run : list action :=
  [SpewStep; GoStep 0] ++ forward ++ forward ++ forward.

Definition timer_source : Source :=
  {| Name := "clock"; Type_ := "timer"; Script := "date" |}.

Definition timer_config : Config :=
  {| Template := "|"; Sources := [timer_source] |}.

Definition polling_config : Config :=
  {| Template := "|";
     Sources := [listen_source; {| Name := "load"; Type_ := "polling"; Script := "uptime" |}] |}.

Definition once_config : Config :=
  {| Template := "|";
     Sources := [ {| Name := "date"; Type_ := "once"; Script := "date" |};
                  {| Name := "username"; Type_ := "once"; Script := "whoami" |} ] |}.

Definition once_world : World :=
  sample_world (fun i => match i with 0 => (nl "Sat", None) | _ => (nl "root", None) end)
    (fun _ => StartFails "unused").

Definition quiet_world : World :=
  sample_world (fun _ => ("", None)) (fun _ => Started silent silent).

Definition cpu_config : Config :=
  {| Template := "|";
     Sources := [ {| Name := "cpu load"; Type_ := "once"; Script := "uptime" |} ] |}.

Definition cpu_world : World :=
  sample_world (fun _ => (nl "42", None)) (fun _ => StartFails "unused").

(** The invariant behind C3: [bad], which follows [pre] in the config, is the
    first source of unsupported type, and the supervisor never gets past it. *)
Definition stops_at (c : Config) (pre : list Source) (bad : Source) (st : state) : Prop :=
  exists k, k <= List.length pre /\
    tag <$> goroutines st = spawned 0 (take k pre) /\
    Forall (fun r => r_from r < k) (written st) /\
    match pc st with
    | InSetup i s rest => k = i /\ drop i (Sources c) = s :: rest
    | InLoop => False
    | Returned r =>
        exists e, r = Some e /\ (e = ErrUnsupported (Type_ bad) -> k = List.length pre)
    end.

(** The strings on which the model of [strings.Title] is Go's function:
    those of bytes below 0x80. *)
Definition ascii_only (s : string) : Prop :=
  Forall (fun a => nat_of_ascii a < 128) (list_ascii_of_string s).

Definition ascii_names (c : Config) : Prop :=
  Forall (fun s => ascii_only (Name s)) (Sources c).

(** Two once sources whose names get the same key. *)
Definition clash_config : Config :=
  {| Template := "|";
     Sources := [ {| Name := "date"; Type_ := "once"; Script := "date" |};
                  {| Name := "Date"; Type_ := "once"; Script := "date -u" |} ] |}.

Definition clash_world : World :=
  sample_world (fun i => match i with 0 => (nl "first", None) | _ => (nl "second", None) end)
    (fun _ => StartFails "unused").

(** The once commands succeed, the second flush of the writer fails. *)
Definition epipe_world : World :=
  {| template_Parse := fun _ => None;
     template_Execute := show_table;
     time_ParseDuration := one_second;
     bufw_Flush := fun n => match n with 1 => Some "EPIPE" | _ => None end;
     once_run := fun i => match i with 0 => (nl "Sat", None) | _ => (nl "root", None) end;
     timer_run := fun _ _ => ("tick", None);
     listener_cmd := fun _ => StartFails "unused" |}.

(** A listener whose command prints three lines and exits: both pipes end. *)
Definition exit_world : World :=
  sample_world (fun _ => ("", None))
    (fun _ => Started {| lines := [nl "a"; nl "b"; nl "c"]; ending := Some "EOF" |}
                      {| lines := []; ending := Some "EOF" |}).

(** The end of the standard error is seen first. *)
Definition early_eof_run : list action :=
  [SpewStep; GoStep 0; ReaderRead 0 Stderr; GoRecv 0 Stderr Errors; SpewRecvErr 0].

(** ** Configs with once sources only (C6, C10) *)

Definition all_once (c : Config) : Prop :=
  Forall (fun s => dispatch (Type_ s) = KOnce) (Sources c).

(** The table after the once sources [srcs], which stand in the config from
    position [i] on, have been run in order, starting from [ctx]. *)
Fixpoint populate (W : World) (i : nat) (srcs : list Source)
    (ctx : gmap string string) : gmap string string :=
  match srcs with
  | [] => ctx
  | s :: srcs' => populate W (S i) srcs' (store (mkOutput s (once_run W i).1) ctx)
  end.

(** Every command of the config succeeds, and so does the render that
    follows it. *)
Definition setup_ok (W : World) (c : Config) : Prop :=
  forall i s, Sources c !! i = Some s ->
    (once_run W i).2 = None /\
    exists text,
      render W (Template c) (populate W 0 (take (S i) (Sources c)) ∅) i = inl text.

(** [ws] holds one render for each of the first [k] sources, made right
    after the source's command, on the table as it was then. *)
Definition once_log (W : World) (c : Config) (k : nat) (ws : list rendering) : Prop :=
  List.length ws = k /\
  forall i s, i < k -> Sources c !! i = Some s ->
    (once_run W i).2 = None /\
    exists r, ws !! i = Some r /\ r_from r = i /\
              r_out r = mkOutput s (once_run W i).1 /\
              r_ctx r = populate W 0 (take (S i) (Sources c)) ∅ /\
              template_Execute W (Template c) (r_ctx r) = inl (r_text r).

Definition once_progress (W : World) (c : Config) (k : nat) (st : state) : Prop :=
  templateCtx st = populate W 0 (take k (Sources c)) ∅ /\ once_log W c k (written st).

Definition once_inv (W : World) (c : Config) (st : state) : Prop :=
  goroutines st = [] /\
  match pc st with
  | InSetup i s rest => drop i (Sources c) = s :: rest /\ once_progress W c i st
  | InLoop => once_progress W c (List.length (Sources c)) st
  | Returned None => mainDone st = true /\ once_progress W c (List.length (Sources c)) st
  | Returned (Some _) => True
  end.

(** ** One listener's records, in order (C9) *)

(** The values of the records of source [i] that were rendered, oldest first. *)
Definition values_of (i : nat) (st : state) : list string :=
  (fun r => oValue (r_out r)) <$> rendered_of i st.

(** The lines a reader still has to hand over: the one it is sending, and
    those its pipe will deliver. *)
Definition in_reader (r : reader) : list string :=
  match r_pc r with
  | RSendLine l => l :: lines (r_rest r)
  | _ => lines (r_rest r)
  end.

(** The lines [Ls] of a listener's standard output are, in this order: the
    values [vals] already rendered, the one the driver is sending, and those
    still with the reader.  Nothing comes from the error stream. *)
Definition pipe (src : Source) (Ls vals : list string) (d : driver) : Prop :=
  match d with
  | Timer _ => False
  | Listener LStart _ _ => vals = []
  | Listener LSelect ro re =>
      in_reader re = [] /\ r_pc ro <> RClosed /\ r_pc re <> RClosed /\
      vals ++ in_reader ro = Ls
  | Listener (LSendOut o) ro re =>
      in_reader re = [] /\ r_pc ro <> RClosed /\ r_pc re <> RClosed /\
      oName o = Name src /\ vals ++ oValue o :: in_reader ro = Ls
  | Listener (LSendLast _) _ _ => False
  | Listener _ ro re => in_reader re = [] /\ vals `prefix_of` Ls
  end.

(** What a render caused by a record of [src] looks like. *)
Definition rendered_ok (W : World) (c : Config) (src : Source) (r : rendering) : Prop :=
  r_ctx r !! Title (Name src) = Some (sanitize (oValue (r_out r))) /\
  template_Execute W (Template c) (r_ctx r) = inl (r_text r).

(** The goroutine of source [i], if it has been started, is a listener in
    the state [pipe] describes; before that nothing of [i] was rendered. *)
Definition pipes (i : nat) (src : Source) (Ls : list string)
    (gs : list goroutine) (vals : list string) : Prop :=
  (forall j g, gs !! j = Some g -> g_idx g = i -> pipe src Ls vals (g_drv g)) /\
  ((forall j g, gs !! j = Some g -> g_idx g <> i) -> vals = []).

Definition listener_inv (W : World) (c : Config) (i : nat) (src : Source)
    (Ls : list string) (st : state) : Prop :=
  mainDone st = false ->
  values_of i st `prefix_of` Ls /\
  Forall (rendered_ok W c src) (rendered_of i st) /\
  (cancelled st = false -> pipes i src Ls (goroutines st) (values_of i st)).

(** After the listener of [listen_config] has returned, the run is in its
    loop or has returned nil. *)
Definition returned_quietly (st : state) : Prop :=
  (pc st = InLoop \/ pc st = Returned None) /\
  exists ro re, goroutines st =
    [{| g_idx := 0; g_src := listen_source; g_drv := Listener LReturned ro re |}].


(** The same select in the entry point's copy of the driver, main.go:165-178:
    there a line read from the error stream panics ("stderr detected"). *)
Definition main_go_recv (f : fd) (g : goroutine) : outcome :=
  match g_drv g with
  | Listener LSelect ro re =>
      match f with
      | Stdout =>
          match recv_line ro with
          | Some (l, ro') => Next (Listener (LSendOut (mkOutput (g_src g) l)) ro' re)
          | None => Blocked
          end
      | Stderr =>
          match recv_line re with
          | Some _ => Panic
          | None => Blocked
          end
      end
  | _ => Blocked
  end.

(** * Further notions, for the further properties *)

(** The characters [sanitize] keeps. *)
Definition kept (c : ascii) : bool := negb (Ascii.eqb c LF) && negb (Ascii.eqb c CR).

(** A goroutine as it is while the context has never been done: under a
    listener that still receives no reader has closed its channels, and no
    nil error is on its way to the supervisor. *)
Definition undisturbed (g : goroutine) : Prop :=
  match g_drv g with
  | Listener LSelect ro re | Listener (LSendOut _) ro re =>
      r_pc ro <> RClosed /\ r_pc re <> RClosed
  | Listener (LSendErr e) _ _ => e <> None
  | _ => True
  end.

Definition never_nil (st : state) : Prop :=
  mainDone st = false ->
  pc st <> Returned None /\
  (cancelled st = false -> Forall undisturbed (goroutines st)).

Definition no_timer (c : Config) : Prop :=
  Forall (fun s => dispatch (Type_ s) <> KTimer) (Sources c).

(** The table the records of the renders [ws] build, stored one after the
    other into an empty table. *)
Definition replay (ws : list rendering) : gmap string string :=
  foldl (fun ctx r => store (r_out r) ctx) ∅ ws.

(** [Spew] has returned the error of a render (spew.go:46 or :50). *)
Definition render_failed (p : spew_pc) : Prop :=
  exists cause, p = Returned (Some (ErrRender cause)) \/ p = Returned (Some (ErrWrite cause)).

(** Every render of [ws] is the template executed on the table its own and
    the earlier records build, and its flush succeeded. *)
Definition faithful (W : World) (c : Config) (ws : list rendering) : Prop :=
  forall k r, ws !! k = Some r ->
    r_ctx r = replay (take (S k) ws) /\
    template_Execute W (Template c) (r_ctx r) = inl (r_text r) /\
    bufw_Flush W k = None.

Definition table_inv (W : World) (c : Config) (st : state) : Prop :=
  faithful W c (written st) /\
  (templateCtx st = replay (written st) \/ render_failed (pc st)).

(** What a goroutine sends carries the name of its source. *)
Definition named (g : goroutine) : Prop :=
  forall o d, offers_out (g_drv g) = Some (o, d) -> oName o = Name (g_src g).

(** The record of a render carries the name of the source at its position. *)
Definition attributed (c : Config) (r : rendering) : Prop :=
  exists s, Sources c !! r_from r = Some s /\ oName (r_out r) = Name s.

(** The keys are the capitalized names of configured sources, the values
    are sanitized. *)
Definition clean_table (c : Config) (ctx : gmap string string) : Prop :=
  forall k v, ctx !! k = Some v ->
    (exists s, s ∈ Sources c /\ k = Title (Name s)) /\ sanitize v = v.

Definition names_inv (c : Config) (st : state) : Prop :=
  Forall named (goroutines st) /\ Forall (attributed c) (written st) /\
  clean_table c (templateCtx st).

(** The positions of the once sources among [srcs], which stand in the
    config from position [i] on. *)
Fixpoint onces (i : nat) (srcs : list Source) : list nat :=
  match srcs with
  | [] => []
  | s :: srcs' =>
      match dispatch (Type_ s) with
      | KOnce => i :: onces (S i) srcs'
      | _ => onces (S i) srcs'
      end
  end.

(** The first [k] sources let the setup pass: their types are supported and
    the commands of the once sources among them succeeded. *)
Definition cleared (W : World) (c : Config) (k : nat) : Prop :=
  forall n s, n < k -> Sources c !! n = Some s ->
    dispatch (Type_ s) <> KUnsupported /\
    (dispatch (Type_ s) = KOnce -> (once_run W n).2 = None).

Definition setup_inv (W : World) (c : Config) (st : state) : Prop :=
  match pc st with
  | InSetup i s rest =>
      cleared W c i /\ r_from <$> written st = onces 0 (take i (Sources c))
  | InLoop | Returned None =>
      cleared W c (List.length (Sources c)) /\
      onces 0 (Sources c) `prefix_of` (r_from <$> written st)
  | Returned (Some _) => True
  end.

(** The goroutine of source [i], once started, is in a state that [P]
    relates to the values rendered for [i]; before that nothing of [i] was
    rendered. *)
Definition tracks (P : list string -> driver -> Prop) (i : nat)
    (gs : list goroutine) (vals : list string) : Prop :=
  (forall j g, gs !! j = Some g -> g_idx g = i -> P vals (g_drv g)) /\
  ((forall j g, gs !! j = Some g -> g_idx g <> i) -> vals = []).

Definition tracking (P : list string -> driver -> Prop) (Q : list string -> Prop)
    (i : nat) (st : state) : Prop :=
  Q (values_of i st) /\
  (cancelled st = false -> tracks P i (goroutines st) (values_of i st)).

(** The same, claimed only while [mainCtx] is not done when [live] is set. *)
Definition tracking_while (live : bool) (P : list string -> driver -> Prop)
    (Q : list string -> Prop) (i : nat) (st : state) : Prop :=
  (live = true -> mainDone st = false) -> tracking P Q i st.

(** The outputs of the first [n] runs of the command of timer [i]. *)
Definition runs_of (W : World) (i n : nat) : list string :=
  (fun k => (timer_run W i k).1) <$> seq 0 n.

Definition all_runs (W : World) (i : nat) (vals : list string) : Prop :=
  vals = runs_of W i (List.length vals) /\
  forall k, k < List.length vals -> (timer_run W i k).2 = None.

(** A timer and the values rendered for it: [k] runs have been rendered when
    it waits for its tick before run [k]. *)
Definition timer_track (W : World) (i : nat) (src : Source)
    (vals : list string) (d : driver) : Prop :=
  all_runs W i vals /\
  match d with
  | Timer TStart => vals = []
  | Timer (TSendFirst _ o) =>
      vals = [] /\ o = mkOutput src (timer_run W i 0).1 /\ (timer_run W i 0).2 = None
  | Timer (TNewTicker _) => List.length vals = 1
  | Timer (TTicking _ k) => k = List.length vals
  | Timer (TSend _ k o) =>
      k = S (List.length vals) /\
      o = mkOutput src (timer_run W i (List.length vals)).1 /\
      (timer_run W i (List.length vals)).2 = None
  | Timer _ => True
  | Listener _ _ _ => False
  end.

(** A goroutine that fails before its first record: it starts, reports its
    error and returns, and nothing of it is rendered. *)
Definition stillborn (k : source_kind) (vals : list string) (d : driver) : Prop :=
  vals = [] /\
  match k, d with
  | KListen, Listener LStart _ _ | KListen, Listener (LSendErr _) _ _
  | KListen, Listener LReturned _ _ => True
  | KTimer, Timer TStart | KTimer, Timer (TSendErr _) | KTimer, Timer TReturned => True
  | _, _ => False
  end.

(** The start of the goroutine of [src] at position [i] fails: the command
    of a listener does not start, the duration of a timer does not parse. *)
Definition start_fails (W : World) (i : nat) (src : Source) : Prop :=
  match dispatch (Type_ src) with
  | KListen => forall so se, listener_cmd W i <> Started so se
  | KTimer =>
      forall part, nth_error (Split (Type_ src) ":") 1 = Some part ->
                   exists cause, time_ParseDuration W part = inr cause
  | _ => False
  end.

(** A world whose [time.ParseDuration] accepts "1s" only. *)
Definition strict_world : World :=
  sample_world (fun _ => ("", None)) (fun _ => StartFails "unused").

Definition timer_config_1s : Config :=
  {| Template := "|";
     Sources := [ {| Name := "clock"; Type_ := "timer:1s"; Script := "date" |} ] |}.

Definition failing_start_world : World :=
  sample_world (fun _ => ("", None)) (fun _ => StartFails "not found").

Definition counting_world : World :=
  {| template_Parse := fun _ => None;
     template_Execute := show_table;
     time_ParseDuration := one_second;
     bufw_Flush := fun _ => None;
     once_run := fun _ => ("", None);
     timer_run := fun _ k => (match k with 0 => "zero" | 1 => "one" | _ => "more" end, None);
     listener_cmd := fun _ => StartFails "unused" |}.

(** ** The command, cmd/spew/main.go *)

(** How the command stands after a schedule: it has printed its usage and
    exited with status 1, it has panicked, [main] has returned, or [Spew] is
    still running. *)
Inductive finish :=
| Usage
| DecodePanic (cause : string)
| SpewPanic (e : error)
| GoroutinePanic
| Success
| Running.

(** [context.Background()] is never done: a schedule of the command holds
    no cancellation by the caller. *)
Definition background (acts : list action) : bool :=
  forallb (fun a => match a with MainCancel => false | _ => true end) acts.

(** cmd/spew/main.go:12-28; [args] is [os.Args], [None] a schedule that
    cannot be run. *)
Definition main (W : World) (toml_DecodeFile : string -> Config + string)
    (args : list string) (acts : list action) : option finish :=
  match args with
  | [] | [_] => Some Usage
  | _ :: file :: _ =>
      match toml_DecodeFile file with
      | inr cause => Some (DecodePanic cause)
      | inl c =>
          match Spew_start W c with
          | inl e => Some (SpewPanic e)
          | inr st0 =>
              if background acts then
                match exec W c acts st0 with
                | Some st =>
                    Some (if crashed st then GoroutinePanic
                          else match pc st with
                               | Returned (Some e) => SpewPanic e
                               | Returned None => Success
                               | _ => Running
                               end)
                | None => None
                end
              else None
          end
      end
  end.

(** ** After the cancellation *)

(** A reader that is not blocked in a send on one of its channels. *)
Definition not_sending (r : reader) : Prop :=
  match r_pc r with
  | RSendLine _ | RSendErr _ => False
  | _ => True
  end.

(** A goroutine whose driver has returned, with no reader of it left
    blocked in a send. *)
Definition settled (g : goroutine) : Prop :=
  match g_drv g with
  | Timer TReturned => True
  | Listener LReturned ro re => not_sending ro /\ not_sending re
  | _ => False
  end.

(** The steps a goroutine and its readers take by themselves. *)
Definition own_step (j : nat) (a : action) : Prop :=
  match a with
  | GoStep j' | GoDone j' | ReaderDone j' _ => j' = j
  | _ => False
  end.

(** Goroutine [j], in state [g] under a context that is done, gets by the
    steps [acts] of its own to a panic ([None]) or to the settled state
    [Some g']. *)
Inductive winds_down (W : World) (j : nat) : goroutine -> list action -> option goroutine -> Prop :=
| wd_settled g :
    settled g -> winds_down W j g [] (Some g)
| wd_panic g a :
    own_step j a -> local_move W true a j g Panic -> winds_down W j g [a] None
| wd_step g a d acts r :
    own_step j a -> local_move W true a j g (Next d) ->
    winds_down W j (with_driver g d) acts r ->
    winds_down W j g (a :: acts) r.

(** The state a run from the start has reached. *)
Definition after (W : World) (c : Config) (acts : list action) : state :=
  default (init c) (exec W c acts (init c)).

(** The supervisor has not moved between [st] and [st']. *)
Definition same_supervisor (st st' : state) : Prop :=
  pc st' = pc st /\ written st' = written st /\ templateCtx st' = templateCtx st /\
  mainDone st' = mainDone st /\ cancelled st' = cancelled st.

Definition goroutines_own (acts : list action) : Prop :=
  Forall (fun a => exists j, own_step j a) acts.

(** * The program of main.go

    The file at the root of the repository is the engine as one program,
    with the same goroutines; where [Spew] returns an error it panics, it
    has no error channels, and it has no caller who could cancel.  Its
    template is one of html/template (main.go:7), not of text/template: in
    this module the world [W] is the one of this program, and its
    [template_Parse] and [template_Execute] are html/template's. *)

Module MainGo.

(** What the program panics with: one of the errors it wraps, the line of
    main.go:176, or a panic of the runtime (an index out of range in
    [parts[1]], a ticker whose period is not positive). *)
Inductive panic :=
| PDecode (cause : string)
| PError (e : error)
| PStderr (script line : string)
| PRuntime.

(** What a goroutine does next: it goes on as [d], it panics, or it waits. *)
Inductive outcome :=
| Goes (d : driver)
| Dies (p : panic)
| Waits.

(** main.go:114-124: the duration, then the first run. *)
Definition timer_start (W : World) (i : nat) (s : Source) : outcome :=
  let parts := Split (Type_ s) ":" in
  match nth_error parts 1 with
  | None => Dies PRuntime
  | Some part =>
      match time_ParseDuration W part with
      | inr cause => Dies (PError (ErrParseDuration part cause))
      | inl d =>
          match timer_run W i 0 with
          | (o, Some cause) => Dies (PError (ErrRunCommand (Script s) cause o))
          | (o, None) => Goes (Timer (TSendFirst d (mkOutput s o)))
          end
      end
  end.

(** main.go:135-139: a tick, and the command run again. *)
Definition timer_tick (W : World) (i : nat) (s : Source) (d : Z) (k : nat) : outcome :=
  match timer_run W i k with
  | (o, Some cause) => Dies (PError (ErrRunCommand (Script s) cause o))
  | (o, None) => Goes (Timer (TSend d (S k) (mkOutput s o)))
  end.

(** main.go:150-164. *)
Definition listener_start (W : World) (i : nat) (s : Source) : outcome :=
  match listener_cmd W i with
  | StdoutPipeFails cause => Dies (PError (ErrStdoutPipe (Script s) cause))
  | StderrPipeFails cause => Dies (PError (ErrStderrPipe (Script s) cause))
  | StartFails cause => Dies (PError (ErrStart (Script s) cause))
  | Started so se =>
      Goes (Listener LSelect {| r_pc := RReading; r_rest := so |}
                             {| r_pc := RReading; r_rest := se |})
  end.

Definition go_step (W : World) (g : goroutine) : outcome :=
  match g_drv g with
  | Timer TStart => timer_start W (g_idx g) (g_src g)
  | Timer (TNewTicker d) => if (d <=? 0)%Z then Dies PRuntime else Goes (Timer (TTicking d 1))
  | Timer (TTicking d k) => timer_tick W (g_idx g) (g_src g) d k
  | Listener LStart _ _ => listener_start W (g_idx g) (g_src g)
  | _ => Waits
  end.

(** The [case <-ctx.Done()] of the selects of main.go:123-127, :131-144 and
    :166-172. *)
Definition go_done (g : goroutine) : outcome :=
  match g_drv g with
  | Timer (TSendFirst _ _) | Timer (TTicking _ _) | Timer (TSend _ _ _) =>
      Goes (Timer TReturned)
  | Listener LSelect ro re | Listener (LSendOut _) ro re =>
      Goes (Listener LReturned ro re)
  | _ => Waits
  end.

(** main.go:168 and :175-176: a line of the standard output is passed on, a
    line of the standard error is a panic. *)
Definition go_recv (f : fd) (g : goroutine) : outcome :=
  match g_drv g with
  | Listener LSelect ro re =>
      match f with
      | Stdout =>
          match recv_line ro with
          | Some (l, ro') => Goes (Listener (LSendOut (mkOutput (g_src g) l)) ro' re)
          | None => Waits
          end
      | Stderr =>
          match recv_line re with
          | Some (l, _) => Dies (PStderr (Script (g_src g)) l)
          | None => Waits
          end
      end
  | _ => Waits
  end.

Inductive reads :=
| ReadOk (r : reader)
| ReadDies (p : panic)
| ReadWaits.

(** main.go:185-188: [ReadString] returns the next line, or the reader
    panics. *)
Definition read (r : reader) : reads :=
  match r_pc r with
  | RReading =>
      match lines (r_rest r), ending (r_rest r) with
      | l :: ls, e => ReadOk {| r_pc := RSendLine l; r_rest := {| lines := ls; ending := e |} |}
      | [], Some cause => ReadDies (PError (ErrRead cause))
      | [], None => ReadWaits
      end
  | _ => ReadWaits
  end.

(** main.go:190-193: the reader closes its channel and returns. *)
Definition reader_done (r : reader) : reads :=
  match r_pc r with
  | RSendLine _ => ReadOk {| r_pc := RClosed; r_rest := r_rest r |}
  | _ => ReadWaits
  end.

Definition on_reader (op : reader -> reads) (f : fd) (g : goroutine) : outcome :=
  match g_drv g with
  | Listener pc ro re =>
      match f with
      | Stdout =>
          match op ro with
          | ReadOk ro' => Goes (Listener pc ro' re)
          | ReadDies p => Dies p
          | ReadWaits => Waits
          end
      | Stderr =>
          match op re with
          | ReadOk re' => Goes (Listener pc ro re')
          | ReadDies p => Dies p
          | ReadWaits => Waits
          end
      end
  | _ => Waits
  end.

(** What a goroutine is sending on [outChan]. *)
Definition offers_out (d : driver) : option (output * driver) :=
  match d with
  | Timer (TSendFirst d o) => Some (o, Timer (TNewTicker d))
  | Timer (TSend d k o) => Some (o, Timer (TTicking d k))
  | Listener (LSendOut o) ro re => Some (o, Listener LSelect ro re)
  | _ => None
  end.

Inductive result :=
| Runs (st : state)
| Panics (p : panic).

(** The closure [render], main.go:56-65: the html template is executed on
    the table and the writer flushed; a failure of either is a panic.  [n]
    numbers the flush. *)
Definition render (W : World) (tmpl : string) (ctx : gmap string string) (n : nat)
  : string + panic :=
  match template_Execute W tmpl ctx with
  | inr cause => inr (PError (ErrRender cause))
  | inl text =>
      match bufw_Flush W n with
      | Some cause => inr (PError (ErrWrite cause))
      | None => inl text
      end
  end.

(** main.go:81-82 and :94-95: store the record, render, go on at [next]. *)
Definition handle (W : World) (tmpl : string) (st : state) (from : nat) (o : output)
    (next : spew_pc) (gs : list goroutine) : result :=
  let ctx := store o (templateCtx st) in
  match render W tmpl ctx (List.length (written st)) with
  | inl text =>
      Runs {| pc := next; templateCtx := ctx;
              written := written st ++ [{| r_from := from; r_out := o; r_ctx := ctx; r_text := text |}];
              mainDone := mainDone st; cancelled := cancelled st; crashed := crashed st;
              goroutines := gs |}
  | inr p => Panics p
  end.

(** One iteration of the loop of main.go:70-87. *)
Definition main_dispatch (W : World) (tmpl : string) (st : state)
    (i : nat) (s : Source) (rest : list Source) : result :=
  match dispatch (Type_ s) with
  | KTimer =>
      Runs (spawn st (enter (S i) rest) {| g_idx := i; g_src := s; g_drv := Timer TStart |})
  | KListen =>
      Runs (spawn st (enter (S i) rest)
              {| g_idx := i; g_src := s; g_drv := Listener LStart reader0 reader0 |})
  | KOnce =>
      match once_run W i with
      | (o, Some cause) => Panics (PError (ErrRunCommand (Script s) cause o))
      | (o, None) => handle W tmpl st i (mkOutput s o) (enter (S i) rest) (goroutines st)
      end
  | KUnsupported => Panics (PError (ErrUnsupported (Type_ s)))
  end.

Definition local (st : state) (j : nat) (f : goroutine -> outcome) : option result :=
  match goroutines st !! j with
  | None => None
  | Some g =>
      match f g with
      | Goes d => Some (Runs (set_goroutines st (<[j := with_driver g d]> (goroutines st))))
      | Dies p => Some (Panics p)
      | Waits => None
      end
  end.

(** One step of the program; it has no caller's context and no error
    channel, so the actions for these are not steps of it. *)
Definition step (W : World) (c : Config) (st : state) (a : action) : option result :=
  match a with
  | MainCancel => None
  | SpewStep =>
      match pc st with
      | InSetup i s rest => Some (main_dispatch W (Template c) st i s rest)
      | _ => None
      end
  | SpewDone =>
      match pc st with
      | InLoop => if ctxDone st then Some (Runs (return_with st None (goroutines st))) else None
      | _ => None
      end
  | SpewRecvErr _ => None
  | SpewRecvOut j =>
      match pc st, goroutines st !! j with
      | InLoop, Some g =>
          match offers_out (g_drv g) with
          | Some (o, d) =>
              Some (handle W (Template c) st (g_idx g) o InLoop
                      (<[j := with_driver g d]> (goroutines st)))
          | None => None
          end
      | _, _ => None
      end
  | GoStep j => local st j (go_step W)
  | GoDone j => if ctxDone st then local st j go_done else None
  | GoRecv j f Lines => local st j (go_recv f)
  | GoRecv _ _ Errors => None
  | ReaderRead j f => local st j (on_reader read f)
  | ReaderDone j f => if ctxDone st then local st j (on_reader reader_done f) else None
  end.

(** A schedule; nothing runs after a panic. *)
Fixpoint exec (W : World) (c : Config) (acts : list action) (st : state) : option result :=
  match acts with
  | [] => Some (Runs st)
  | a :: acts' =>
      match step W c st a with
      | Some (Runs st') => exec W c acts' st'
      | Some (Panics p) => match acts' with [] => Some (Panics p) | _ => None end
      | None => None
      end
  end.

(** How the program stands after a schedule. *)
Inductive exit :=
| Usage
| Panicked (p : panic)
| Returns
| Running.

(** main.go:36-98; [args] is [os.Args]. *)
Definition main (W : World) (toml_DecodeFile : string -> Config + string)
    (args : list string) (acts : list action) : option exit :=
  match args with
  | [] | [_] => Some Usage
  | _ :: file :: _ =>
      match toml_DecodeFile file with
      | inr cause => Some (Panicked (PDecode cause))
      | inl c =>
          match template_Parse W (Template c) with
          | Some cause => Some (Panicked (PError (ErrParseTemplate cause)))
          | None =>
              match exec W c acts (init c) with
              | Some (Runs st) =>
                  Some (match pc st with Returned _ => Returns | _ => Running end)
              | Some (Panics p) => Some (Panicked p)
              | None => None
              end
          end
      end
  end.

(** In this program a listener never leaves its loop. *)
Definition in_loop (g : goroutine) : Prop :=
  match g_drv g with
  | Timer (TSendErr _) | Timer TReturned => False
  | Timer _ => True
  | Listener LStart _ _ | Listener LSelect _ _ | Listener (LSendOut _) _ _ => True
  | Listener _ _ _ => False
  end.

Definition alive (st : state) : Prop :=
  ctxDone st = false /\ crashed st = false /\ (forall r, pc st <> Returned r) /\
  Forall in_loop (goroutines st).

End MainGo.

(** Two worlds that differ at most in their template library: the commands,
    the durations and the writer behave alike. *)
Definition same_but_template (W1 W2 : World) : Prop :=
  (forall s, time_ParseDuration W1 s = time_ParseDuration W2 s) /\
  (forall n, bufw_Flush W1 n = bufw_Flush W2 n) /\
  (forall i, once_run W1 i = once_run W2 i) /\
  (forall i k, timer_run W1 i k = timer_run W2 i k) /\
  (forall i, listener_cmd W1 i = listener_cmd W2 i).

(** The template library of [W2] executes [tmpl] on every table on which
    the one of [W1] does; the texts may differ. *)
Definition renders_whenever (W1 W2 : World) (tmpl : string) : Prop :=
  forall ctx text, template_Execute W1 tmpl ctx = inl text ->
                   exists text', template_Execute W2 tmpl ctx = inl text'.

(** A render without its text. *)
Definition record_of (r : rendering) : nat * output * gmap string string :=
  (r_from r, r_out r, r_ctx r).

(** Two states that differ at most in the texts rendered. *)
Definition same_but_text (st st' : state) : Prop :=
  pc st' = pc st /\ templateCtx st' = templateCtx st /\
  mainDone st' = mainDone st /\ cancelled st' = cancelled st /\
  crashed st' = crashed st /\ goroutines st' = goroutines st /\
  record_of <$> written st' = record_of <$> written st.

(** A stand-in for html/template: as [show_table], with the text escaped. *)
Definition html_table (tmpl : string) (ctx : gmap string string) : string + string :=
  match show_table tmpl ctx with
  | inl text => inl (ReplaceAll text "<" "&lt;")
  | inr cause => inr cause
  end.

(** A listener whose command prints a line with a character html escapes;
    [engine] is the template library. *)
Definition less_world (engine : string -> gmap string string -> string + string) : World :=
  {| template_Parse := fun _ => None;
     template_Execute := engine;
     time_ParseDuration := one_second;
     bufw_Flush := fun _ => None;
     once_run := fun _ => ("", None);
     timer_run := fun _ _ => ("tick", None);
     listener_cmd := fun _ => Started {| lines := [nl "a<b"]; ending := None |} silent |}.

(** The lines [Ls] of a listener's standard output are the values [vals]
    already rendered, the one the driver is sending, and those still with
    the reader, as long as the driver has received nothing else. *)
Definition stdout_pipe (Ls vals : list string) (d : driver) : Prop :=
  match d with
  | Timer _ => False
  | Listener LStart _ _ => vals = []
  | Listener LSelect ro re => r_pc ro <> RClosed /\ vals ++ in_reader ro = Ls
  | Listener (LSendOut o) ro re => r_pc ro <> RClosed /\ vals ++ oValue o :: in_reader ro = Ls
  | Listener _ _ _ => True
  end.

(** The branches on [ctx.Done()]. *)
Definition done_branch (a : action) : Prop :=
  match a with
  | SpewDone | GoDone _ | ReaderDone _ _ => True
  | _ => False
  end.

(** A listener whose command prints two lines and then a line on its
    standard error. *)
Definition noisy_world : World :=
  sample_world (fun _ => ("", None))
    (fun _ => Started {| lines := [nl "a"; nl "b"]; ending := None |}
                      {| lines := [nl "oops"]; ending := None |}).
(** * Properties of the string helpers *)

Example sanitize_example :
  sanitize (String LF ("a" +:+ String CR ("b" +:+ String LF ""))) = "ab".
Proof. reflexivity. Qed.

Example Split_examples :
  Split "timer:5s" ":" = ["timer"; "5s"] /\ Split "timer" ":" = ["timer"] /\
  Split "a::b:" ":" = ["a"; ""; "b"; ""].
Proof. repeat split. Qed.

Example Title_examples :
  Title "cpu load" = "Cpu Load" /\ Title "cpu_load2-x" = "Cpu_load2-X" /\
  Title "Date" = "Date".
Proof. repeat split. Qed.

Example dispatch_examples :
  dispatch "timer:5s" = KTimer /\ dispatch "listen" = KListen /\
  dispatch "once" = KOnce /\ dispatch "polling" = KUnsupported /\
  dispatch "listen-timer" = KTimer.
Proof. repeat split. Qed.

Lemma ReplaceAll_char (a : ascii) (s : string) :
  ReplaceAll s (String a EmptyString) "" = strip a s.
Proof.
  unfold ReplaceAll. induction s as [|c s IH]; [reflexivity|].
  cbn -[Ascii.eqb]. destruct (Ascii.eqb c a); cbn; rewrite IH; reflexivity.
Qed.

Lemma sanitize_strip (s : string) : sanitize s = strip CR (strip LF s).
Proof. unfold sanitize. rewrite !ReplaceAll_char. reflexivity. Qed.

Lemma strip_absent (a : ascii) (s : string) :
  ~ In a (list_ascii_of_string (strip a s)).
Proof.
  induction s as [|c s IH]; cbn; [tauto|].
  destruct (Ascii.eqb_spec c a) as [->|Hne]; cbn; [exact IH|].
  intros [H|H]; [congruence | exact (IH H)].
Qed.

Lemma strip_keeps_absent (a b : ascii) (s : string) :
  ~ In b (list_ascii_of_string s) -> ~ In b (list_ascii_of_string (strip a s)).
Proof.
  induction s as [|c s IH]; cbn; [tauto|].
  intros Hb. destruct (Ascii.eqb c a); cbn; intros H.
  - apply IH; [|exact H]. tauto.
  - destruct H as [H|H]; [tauto|]. apply IH; [tauto | exact H].
Qed.

Lemma strip_fixed (a : ascii) (s : string) :
  ~ In a (list_ascii_of_string s) -> strip a s = s.
Proof.
  induction s as [|c s IH]; cbn; [reflexivity|].
  intros H. destruct (Ascii.eqb_spec c a) as [->|Hne]; [tauto|].
  rewrite IH; [reflexivity | tauto].
Qed.

(** C5: [sanitize] is a function on all strings (it is defined by structural
    recursion, so it always returns); applying it twice is applying it once,
    and its result holds neither a line feed nor a carriage return. *)
Theorem sanitize_idempotent_and_clean (s : string) :
  sanitize (sanitize s) = sanitize s /\
  ~ In LF (list_ascii_of_string (sanitize s)) /\
  ~ In CR (list_ascii_of_string (sanitize s)).
Proof.
  assert (HLF : ~ In LF (list_ascii_of_string (sanitize s))).
  { rewrite sanitize_strip. apply strip_keeps_absent, strip_absent. }
  assert (HCR : ~ In CR (list_ascii_of_string (sanitize s))).
  { rewrite sanitize_strip. apply strip_absent. }
  split; [|split; assumption].
  rewrite (sanitize_strip (sanitize s)).
  rewrite (strip_fixed LF) by exact HLF. apply strip_fixed, HCR.
Qed.

Lemma word_char_not_separator (c : ascii) : is_word_char c = true -> isSeparator c = false.
Proof.
  unfold isSeparator, is_word_char. intros ->. destruct (_ <=? _)%nat; reflexivity.
Qed.

Lemma title_from_word (s : string) (prev : ascii) :
  isSeparator prev = false -> single_word s = true -> title_from prev s = s.
Proof.
  revert prev. induction s as [|c s IH]; intros prev Hp Hw; cbn; [reflexivity|].
  cbn in Hw. apply andb_true_iff in Hw as [Hc Hs].
  rewrite Hp, IH; auto using word_char_not_separator.
Qed.

Lemma Title_single_word (s : string) :
  single_word s = true -> Title s = capitalize_first s.
Proof.
  destruct s as [|c s]; [reflexivity|]. cbn -[isSeparator ToTitle].
  intros Hw. apply andb_true_iff in Hw as [Hc Hs].
  unfold Title. cbn -[ToTitle]. f_equal.
  apply title_from_word; auto using word_char_not_separator.
Qed.

Lemma split_from_no_sep (a : ascii) (s : string) :
  Contains s (String a EmptyString) = false ->
  split_from (String a EmptyString) 0 s = [s].
Proof.
  induction s as [|c s IH]; [reflexivity|].
  cbn -[Ascii.eqb]. destruct (Ascii.eqb c a); cbn; [discriminate|].
  intros H. rewrite IH; [reflexivity|exact H].
Qed.

(** * The transition system *)

Lemma drop_head {A : Type} (l : list A) (i : nat) (x : A) (rest : list A) :
  drop i l = x :: rest -> l !! i = Some x.
Proof.
  intros Hdrop. rewrite <- (Nat.add_0_r i), <- lookup_drop, Hdrop. reflexivity.
Qed.

Lemma exec_app W c (a1 a2 : list action) st :
  exec W c (a1 ++ a2) st = match exec W c a1 st with Some st' => exec W c a2 st' | None => None end.
Proof.
  revert st. induction a1 as [|a a1 IH]; intros st; cbn; [reflexivity|].
  destruct (step W c st a); auto.
Qed.

Lemma exec_invariant W c (P : state -> Prop) :
  (forall st a st', P st -> step W c st a = Some st' -> P st') ->
  forall acts st st', P st -> exec W c acts st = Some st' -> P st'.
Proof.
  intros Hstep acts. induction acts as [|a acts IH]; intros st st' HP Hex; cbn in Hex.
  - congruence.
  - destruct (step W c st a) eqn:Hs; [|discriminate]. eauto.
Qed.

Lemma local_moves W c st j f a :
  (forall g out, out = f g -> local_move W (ctxDone st) a j g out) ->
  forall st', local st j f = Some st' -> moves W c st a st'.
Proof.
  intros Hf st' H. unfold local in H.
  destruct (goroutines st !! j) as [g|] eqn:Hg; [|discriminate].
  destruct (f g) eqn:Hout; simplify_eq.
  - eapply (m_local W c st a j g d); eauto.
  - eapply (m_panic W c st a j g); eauto.
Qed.

Lemma step_moves W c st a st' :
  step W c st a = Some st' -> crashed st = false /\ moves W c st a st'.
Proof.
  unfold step. intros H.
  assert (Hcr : crashed st = false) by (destruct (crashed st); [discriminate H | reflexivity]).
  split; [exact Hcr|].
  set (b := crashed st) in H at 1. assert (Hb : b = false) by exact Hcr.
  clearbody b. subst b. cbv iota in H.
  destruct a.
  - simplify_eq. apply m_cancel.
  - destruct (pc st) as [i s rest| |] eqn:Hpc; simplify_eq.
    unfold spew_dispatch.
    destruct (dispatch (Type_ s)) eqn:Hd.
    + eapply m_spawn; eauto. unfold new_goroutine. rewrite Hd. reflexivity.
    + eapply m_spawn; eauto. unfold new_goroutine. rewrite Hd. reflexivity.
    + destruct (once_run W i) as [o [cause|]] eqn:Ho.
      * eapply m_once_fails; eauto.
      * eapply m_once; eauto.
    + eapply m_unsupported; eauto.
  - destruct (pc st) eqn:Hpc; simplify_eq.
    destruct (ctxDone st) eqn:Hdone; simplify_eq. apply m_done; auto.
  - destruct (pc st) eqn:Hpc; simplify_eq.
    destruct (goroutines st !! j) as [g|] eqn:Hg; simplify_eq.
    destruct (offers_err (g_drv g)) as [[e d]|] eqn:Ho; simplify_eq.
    eapply m_recv_err; eauto.
  - destruct (pc st) eqn:Hpc; simplify_eq.
    destruct (goroutines st !! j) as [g|] eqn:Hg; simplify_eq.
    destruct (offers_out (g_drv g)) as [[o d]|] eqn:Ho; simplify_eq.
    eapply m_recv_out; eauto.
  - eapply local_moves; [|exact H]. intros g out ->. cbn. auto.
  - destruct (ctxDone st) eqn:Hdone; [|discriminate].
    eapply local_moves; [|exact H]. intros g out ->. cbn. auto.
  - eapply local_moves; [|exact H]. intros g out ->. cbn. auto.
  - eapply local_moves; [|exact H]. intros g out ->. cbn. auto.
  - destruct (ctxDone st) eqn:Hdone; [|discriminate].
    eapply local_moves; [|exact H]. intros g out ->. cbn. auto.
Qed.

(** The cases of [moves], with the names the proofs below use. *)
Ltac moves_cases Hm i Hpc :=
  destruct Hm as [ | i s rest g Hpc Hnew | i s rest o cause Hpc Hd Ho | i s rest o Hpc Hd Ho
                 | i s rest Hpc Hd | Hpc Hdone | j g e d Hpc Hg Ho | j g o d Hpc Hg Ho
                 | a j g d Hg Hl | a j g Hg Hl ].

(** ** What holds in every reachable state *)

Lemma spawned_app (i : nat) (l1 l2 : list Source) :
  spawned i (l1 ++ l2) = spawned i l1 ++ spawned (i + List.length l1) l2.
Proof.
  revert i. induction l1 as [|s l1 IH]; intros i; cbn.
  - rewrite Nat.add_0_r. reflexivity.
  - rewrite IH. replace (S i + List.length l1) with (i + S (List.length l1)) by lia.
    destruct (dispatch (Type_ s)); reflexivity.
Qed.

Lemma spawned_bounds (i : nat) (l : list Source) (j : nat) (s : Source) :
  (j, s) ∈ spawned i l ->
  i <= j /\ l !! (j - i) = Some s /\
  (dispatch (Type_ s) = KTimer \/ dispatch (Type_ s) = KListen).
Proof.
  revert i. induction l as [|s0 l IH]; intros i; cbn; [intros H; inversion H|].
  assert (Hrec : (j, s) ∈ spawned (S i) l ->
                 i <= j /\ (s0 :: l) !! (j - i) = Some s /\
                 (dispatch (Type_ s) = KTimer \/ dispatch (Type_ s) = KListen)).
  { intros H. destruct (IH _ H) as (Hle & Hl & Hd). split; [lia|]. split; [|exact Hd].
    replace (j - i) with (S (j - S i)) by lia. exact Hl. }
  destruct (dispatch (Type_ s0)) eqn:Hd; try exact Hrec.
  all: rewrite elem_of_cons; intros [Heq|H]; [|exact (Hrec H)].
  all: inversion Heq; subst; rewrite Nat.sub_diag; cbn; auto.
Qed.

Lemma spawned_NoDup (i : nat) (l : list Source) : NoDup (spawned i l).*1.
Proof.
  revert i. induction l as [|s l IH]; intros i; cbn; [constructor|].
  destruct (dispatch (Type_ s)); try apply IH.
  all: cbn; constructor; [|apply IH].
  all: rewrite list_elem_of_fmap; intros [[j s'] [Hj Hin]]; cbn in Hj; subst j.
  all: apply spawned_bounds in Hin; lia.
Qed.

Lemma tag_with_driver (g : goroutine) (d : driver) : tag (with_driver g d) = tag g.
Proof. reflexivity. Qed.

Lemma tag_insert (gs : list goroutine) (j : nat) (g : goroutine) (d : driver) :
  gs !! j = Some g -> tag <$> <[j := with_driver g d]> gs = tag <$> gs.
Proof.
  intros Hg. rewrite list_fmap_insert, tag_with_driver.
  apply list_insert_id. rewrite list_lookup_fmap, Hg. reflexivity.
Qed.

Lemma kind_ok_with_driver (g : goroutine) (d : driver) :
  same_driver (g_drv g) d -> kind_ok g -> kind_ok (with_driver g d).
Proof.
  unfold kind_ok, same_driver. cbn. destruct (g_drv g), d; tauto.
Qed.

Lemma on_reader_same (op : reader -> option reader) (f : fd) (g : goroutine) (d : driver) :
  on_reader op f g = Next d -> same_driver (g_drv g) d.
Proof.
  unfold on_reader, same_driver. destruct (g_drv g), f; intros H; repeat case_match; simplify_eq; exact I.
Qed.

Lemma local_move_same W done a j g d :
  local_move W done a j g (Next d) -> same_driver (g_drv g) d.
Proof.
  destruct a; cbn; try tauto.
  - intros [_ H]. unfold go_step, timer_start, timer_tick, listener_start in H.
    unfold same_driver. repeat case_match; simplify_eq; exact I.
  - intros (_ & _ & H). unfold go_done in H.
    unfold same_driver. repeat case_match; simplify_eq; exact I.
  - intros [_ H]. unfold go_recv in H.
    unfold same_driver. repeat case_match; simplify_eq; exact I.
  - intros [_ H]. symmetry in H. eapply on_reader_same, H.
  - intros (_ & _ & H). symmetry in H. eapply on_reader_same, H.
Qed.

Lemma offers_out_same (d d' : driver) (o : output) :
  offers_out d = Some (o, d') -> same_driver d d'.
Proof. unfold offers_out, same_driver. intros H. repeat case_match; simplify_eq; exact I. Qed.

Lemma offers_err_same (d d' : driver) (e : option error) :
  offers_err d = Some (e, d') -> same_driver d d'.
Proof. unfold offers_err, same_driver. intros H. repeat case_match; simplify_eq; exact I. Qed.

Lemma new_goroutine_spec (i : nat) (s : Source) (g : goroutine) :
  new_goroutine i s = Some g ->
  tag g = (i, s) /\ kind_ok g /\ spawned i [s] = [(i, s)] /\
  (g_drv g = Timer TStart \/ g_drv g = Listener LStart reader0 reader0).
Proof.
  unfold new_goroutine, kind_ok. cbn. destruct (dispatch (Type_ s)) eqn:Hd; intros H; simplify_eq; cbn; auto.
Qed.

Lemma at_pos_enter (c : Config) (i : nat) (s : Source) (rest : list Source) :
  drop i (Sources c) = s :: rest ->
  S i <= List.length (Sources c) /\ at_pos c (S i) (enter (S i) rest) /\
  take (S i) (Sources c) = take i (Sources c) ++ [s] /\
  List.length (take i (Sources c)) = i.
Proof.
  intros Hd.
  assert (Hl : Sources c !! i = Some s).
  { rewrite <- (Nat.add_0_r i), <- lookup_drop, Hd. reflexivity. }
  assert (Hlt : i < List.length (Sources c)) by (eapply lookup_lt_Some, Hl).
  assert (Hrest : drop (S i) (Sources c) = rest).
  { replace (S i) with (i + 1) by lia. rewrite <- drop_drop, Hd. reflexivity. }
  split; [lia|]. split; [|split].
  - destruct rest as [|s' rest']; cbn; [|auto].
    apply (f_equal List.length) in Hrest. rewrite length_drop in Hrest. cbn in Hrest. lia.
  - apply take_S_r, Hl.
  - rewrite length_take. lia.
Qed.

Lemma sup_inv_init (c : Config) : sup_inv c (init c).
Proof.
  split; cbn.
  - destruct (Sources c); reflexivity.
  - exists 0. split; [lia|]. rewrite take_0. cbn. split; [reflexivity|]. split; [constructor|].
    destruct (Sources c) eqn:Hs; cbn; rewrite Hs; auto.
  - constructor.
Qed.

Lemma sup_inv_moves W c st a st' :
  sup_inv c st -> moves W c st a st' -> sup_inv c st'.
Proof.
  intros [Hc (k & Hk & Htag & Hw & Hpos) Hkind] Hm.
  moves_cases Hm i Hpc.
  - split; cbn; [exact Hc| |exact Hkind]. exists k. auto.
  - rewrite Hpc in Hpos, Hc. cbn in Hpos, Hc. destruct Hpos as [-> Hdrop].
    destruct (at_pos_enter _ _ _ _ Hdrop) as (Hle & Hat & Htake & Hlen).
    destruct (new_goroutine_spec _ _ _ Hnew) as (Ht & Hko & Hsp & _).
    split; cbn.
    + rewrite Hc. destruct rest; reflexivity.
    + exists (S i). split; [exact Hle|]. split; [|split; [|exact Hat]].
      * rewrite fmap_app, Htag, Htake, spawned_app, Hlen. cbn [fmap list_fmap]. rewrite Ht.
        cbn [Nat.add]. rewrite Hsp. reflexivity.
      * eapply Forall_impl; [exact Hw|]. cbn. intros; lia.
    + apply Forall_app. split; [exact Hkind|]. constructor; [exact Hko|constructor].
  - split; cbn; [reflexivity| |exact Hkind]. exists k. rewrite Hpc in Hpos. cbn. auto.
  - rewrite Hpc in Hpos, Hc. cbn in Hpos, Hc. destruct Hpos as [-> Hdrop].
    destruct (at_pos_enter _ _ _ _ Hdrop) as (Hle & Hat & Htake & Hlen).
    assert (Hsp : spawned i [s] = []) by (cbn; rewrite Hd; reflexivity).
    unfold handle. destruct (render _ _ _ _) as [text|e]; split; cbn; try reflexivity; try exact Hkind.
    + rewrite Hc. destruct rest; reflexivity.
    + exists (S i). split; [exact Hle|]. split; [|split; [|exact Hat]].
      * rewrite Htag, Htake, spawned_app, Hlen. cbn [Nat.add]. rewrite Hsp, app_nil_r. reflexivity.
      * apply Forall_app. split; [|constructor; [cbn; lia|constructor]].
        eapply Forall_impl; [exact Hw|]. cbn. intros; lia.
    + exists i. cbn. auto.
  - split; cbn; [reflexivity| |exact Hkind]. exists k. rewrite Hpc in Hpos. cbn. auto.
  - split; cbn; [reflexivity| |exact Hkind]. exists k. cbn. auto.
  - split; cbn; [reflexivity| |].
    + exists k. cbn. rewrite tag_insert by exact Hg. auto.
    + apply Forall_insert; [exact Hkind|]. apply kind_ok_with_driver.
      * eapply offers_err_same, Ho.
      * eapply Forall_lookup_1; eauto.
  - assert (Hko : kind_ok (with_driver g d)).
    { apply kind_ok_with_driver; [eapply offers_out_same, Ho|]. eapply Forall_lookup_1; eauto. }
    assert (Hlt : g_idx g < k).
    { assert (Hin : tag g ∈ tag <$> goroutines st).
      { apply list_elem_of_fmap. exists g. split; [reflexivity|]. eapply list_elem_of_lookup_2, Hg. }
      rewrite Htag in Hin. apply spawned_bounds in Hin as (_ & Hl & _).
      apply lookup_lt_Some in Hl. rewrite length_take in Hl. lia. }
    rewrite Hpc in Hpos, Hc. cbn in Hpos, Hc.
    unfold handle. destruct (render _ _ _ _) as [text|e]; split; cbn; try reflexivity; try exact Hc.
    + exists k. rewrite tag_insert by exact Hg. split; [exact Hk|]. split; [exact Htag|].
      split; [|exact Hpos]. apply Forall_app. split; [exact Hw|]. constructor; [exact Hlt|constructor].
    + apply Forall_insert; assumption.
    + exists k. rewrite tag_insert by exact Hg. cbn. auto.
    + apply Forall_insert; assumption.
  - split; cbn; [exact Hc| |].
    + exists k. rewrite tag_insert by exact Hg. auto.
    + apply Forall_insert; [exact Hkind|]. apply kind_ok_with_driver.
      * eapply local_move_same, Hl.
      * eapply Forall_lookup_1; eauto.
  - split; cbn; [exact Hc| |exact Hkind]. exists k. auto.
Qed.

Lemma sup_inv_reachable W c acts st :
  exec W c acts (init c) = Some st -> sup_inv c st.
Proof.
  apply (exec_invariant W c (sup_inv c)); [|apply sup_inv_init].
  intros st0 a st1 Hinv Hs. apply step_moves in Hs as [_ Hm]. eapply sup_inv_moves; eauto.
Qed.

Lemma sup_inv_source c st j g :
  sup_inv c st -> goroutines st !! j = Some g ->
  Sources c !! g_idx g = Some (g_src g).
Proof.
  intros [_ (k & Hk & Htag & _) _] Hg.
  assert (Hin : tag g ∈ tag <$> goroutines st).
  { apply list_elem_of_fmap. exists g. split; [reflexivity|]. eapply list_elem_of_lookup_2, Hg. }
  rewrite Htag in Hin. apply spawned_bounds in Hin as (_ & Hl & _).
  rewrite Nat.sub_0_r in Hl. apply lookup_take_Some in Hl. apply Hl.
Qed.

Lemma sup_inv_unique c st j j' g g' :
  sup_inv c st -> goroutines st !! j = Some g -> goroutines st !! j' = Some g' ->
  g_idx g = g_idx g' -> j = j'.
Proof.
  intros [_ (k & Hk & Htag & _) _] Hg Hg' Heq.
  pose proof (spawned_NoDup 0 (take k (Sources c))) as Hnd. rewrite <- Htag in Hnd.
  eapply NoDup_lookup; [exact Hnd| |].
  - rewrite !list_lookup_fmap, Hg. reflexivity.
  - rewrite !list_lookup_fmap, Hg'. cbn. rewrite Heq. reflexivity.
Qed.

Lemma sup_inv_before c st i0 s rest j g :
  sup_inv c st -> pc st = InSetup i0 s rest -> goroutines st !! j = Some g ->
  g_idx g < i0.
Proof.
  intros [_ (k & Hk & Htag & _ & Hpos) _] Hpc Hg. rewrite Hpc in Hpos. destruct Hpos as [-> _].
  assert (Hin : tag g ∈ tag <$> goroutines st).
  { apply list_elem_of_fmap. exists g. split; [reflexivity|]. eapply list_elem_of_lookup_2, Hg. }
  rewrite Htag in Hin. apply spawned_bounds in Hin as (_ & Hl & _).
  apply lookup_lt_Some in Hl. rewrite length_take in Hl. lia.
Qed.

Lemma sup_inv_head c st i0 s rest :
  sup_inv c st -> pc st = InSetup i0 s rest -> Sources c !! i0 = Some s.
Proof.
  intros [_ (k & Hk & Htag & _ & Hpos) _] Hpc. rewrite Hpc in Hpos. destruct Hpos as [_ Hdrop].
  eapply drop_head, Hdrop.
Qed.

Lemma Spew_start_inr W c st0 : Spew_start W c = inr st0 -> st0 = init c.
Proof. unfold Spew_start. destruct (template_Parse W (Template c)); congruence. Qed.


(** ** After the return *)

Lemma returned_stable W c st a st' r :
  pc st = Returned r -> moves W c st a st' ->
  pc st' = Returned r /\ templateCtx st' = templateCtx st /\
  written st' = written st /\ cancelled st' = cancelled st.
Proof.
  intros Hr Hm. destruct Hm; cbn; try congruence; auto.
Qed.

Lemma returned_forever W c acts st st' r :
  pc st = Returned r -> exec W c acts st = Some st' ->
  pc st' = Returned r /\ templateCtx st' = templateCtx st /\ written st' = written st.
Proof.
  intros Hr Hex.
  apply (exec_invariant W c
           (fun s => pc s = Returned r /\ templateCtx s = templateCtx st /\ written s = written st))
    with (acts := acts) (st := st); auto.
  intros s a s' (Hp & Ht & Hw) Hs. apply step_moves in Hs as [_ Hm].
  destruct (returned_stable _ _ _ _ _ _ Hp Hm) as (? & ? & ? & ?). repeat split; congruence.
Qed.

(** C7 (amended): when the loop of spew.go:83-96 takes the case of the
    cancelled context, which it can whenever the caller has cancelled, [Spew]
    returns nil; from then on no record is handled and nothing is written. *)
Theorem cancellation_observed W c st :
  crashed st = false -> pc st = InLoop -> mainDone st = true ->
  exists st',
    step W c st SpewDone = Some st' /\ pc st' = Returned None /\
    templateCtx st' = templateCtx st /\ written st' = written st /\
    forall acts st'', exec W c acts st' = Some st'' ->
      pc st'' = Returned None /\ templateCtx st'' = templateCtx st /\
      written st'' = written st.
Proof.
  intros Hcr Hpc Hmd. unfold step. rewrite Hcr, Hpc. unfold ctxDone. rewrite Hmd. cbn.
  eexists. split; [reflexivity|]. cbn. repeat split; try reflexivity.
  all: eapply returned_forever in H as (? & ? & ?); cbn in *; eauto.
Qed.

(** The run of C7's counterexample: the listener's command has exited, the
    caller cancels, and the loop takes the error that is ready as well. *)
Lemma cancelled_run_returns_error :
  Spew_start eof_world listen_config = inr (init listen_config) /\
  exists st, exec eof_world listen_config eof_cancel_run (init listen_config) = Some st /\
             mainDone st = true /\ pc st = Returned (Some (ErrRead "EOF")).
Proof.
  split; [reflexivity|]. eexists. split; [vm_compute; reflexivity|]. split; reflexivity.
Qed.

Lemma cancellation_observed_witness :
  exists st st', exec eof_world listen_config [SpewStep; MainCancel] (init listen_config) = Some st /\
    step eof_world listen_config st SpewDone = Some st' /\ pc st' = Returned None.
Proof.
  eexists. 
  destruct (cancellation_observed eof_world listen_config
    {| pc := InLoop; templateCtx := ∅; written := []; mainDone := true; cancelled := false;
       crashed := false;
       goroutines := [{| g_idx := 0; g_src := listen_source;
                         g_drv := Listener LStart reader0 reader0 |}] |}
    eq_refl eq_refl eq_refl) as (st' & Hs & Hp & _).
  exists st'. split; [vm_compute; reflexivity|]. split; assumption.
Defined.



(** ** The listener's error stream (C1) *)

Lemma returned_quietly_moves W c st a st' :
  returned_quietly st -> moves W c st a st' -> returned_quietly st'.
Proof.
  intros [Hpc (ro & re & Hgs)] Hm.
  moves_cases Hm i Hp;
    try (destruct Hpc; congruence).
  - split; cbn; eauto.
  - split; cbn; eauto.
  - rewrite Hgs in Hg. destruct j; cbn in Hg; simplify_eq; try discriminate Ho.
  - rewrite Hgs in Hg. destruct j; cbn in Hg; simplify_eq; try discriminate Ho.
  - split; [exact Hpc|]. cbn. rewrite Hgs in Hg |- *. destruct j; cbn in Hg; simplify_eq.
    destruct a; cbn in Hl; try tauto.
    + destruct Hl as [_ Hl]. discriminate Hl.
    + destruct Hl as (_ & _ & Hl). discriminate Hl.
    + destruct Hl as [_ Hl]. discriminate Hl.
    + destruct Hl as [_ Hl]. unfold on_reader in Hl. cbn in Hl.
      destruct f; repeat case_match; simplify_eq; cbn; eauto.
    + destruct Hl as (_ & _ & Hl). unfold on_reader in Hl. cbn in Hl.
      destruct f; repeat case_match; simplify_eq; cbn; eauto.
  - split; cbn; eauto.
Qed.

(** C1, on the code: the listener forwards a line of its error stream as a
    value (spew.go:216-221) and returns, where the copy of the driver in
    main.go panics.  The supervisor renders the line and stays in its loop;
    whatever happens next, the run never ends with an error, and when the
    caller cancels it ends with nil. *)
Theorem stderr_line_is_rendered_not_fatal :
  Spew_start stderr_world listen_config = inr (init listen_config) /\
  (exists st0 g,
      exec stderr_world listen_config [SpewStep; GoStep 0; ReaderRead 0 Stderr]
        (init listen_config) = Some st0 /\
      goroutines st0 !! 0 = Some g /\
      go_recv Stderr Lines g =
        Next (Listener (LSendLast (mkOutput listen_source (nl "oops")))
                {| r_pc := RReading; r_rest := silent |}
                {| r_pc := RReading; r_rest := silent |}) /\
      main_go_recv Stderr g = Panic) /\
  exists st,
    exec stderr_world listen_config stderr_run (init listen_config) = Some st /\
    pc st = InLoop /\
    (fun r => sanitize (oValue (r_out r))) <$> written st = ["oops"] /\
    (forall acts st', exec stderr_world listen_config acts st = Some st' ->
                      pc st' = InLoop \/ pc st' = Returned None) /\
    exists st', exec stderr_world listen_config [MainCancel; SpewDone] st = Some st' /\
                pc st' = Returned None.
Proof.
  split; [reflexivity|]. split.
  { eexists _, _. split; [vm_compute; reflexivity|]. split; [reflexivity|].
    split; reflexivity. }
  eexists. split; [vm_compute; reflexivity|]. split; [reflexivity|].
  split; [vm_compute; reflexivity|]. split.
  - intros acts st' Hex.
    eapply (exec_invariant stderr_world listen_config returned_quietly) in Hex.
    + apply Hex.
    + intros s a s' Hq Hs. apply step_moves in Hs as [_ Hm].
      eapply returned_quietly_moves; eauto.
    + split; cbn; eauto.
  - eexists. split; [vm_compute; reflexivity|]. reflexivity.
Qed.

(** ** The timer's duration (C2) *)

Lemma Split_no_colon (ty : string) :
  Contains ty ":" = false -> Split ty ":" = [ty].
Proof. apply split_from_no_sep. Qed.

(** C2, on the code: a type with a colon whose second part does not parse
    makes the driver offer the parse error on [errChan]; a type with no colon
    panics at [parts[1]], which ends the process. *)
Theorem timer_duration_parse W i s :
  (forall part cause,
      nth_error (Split (Type_ s) ":") 1 = Some part ->
      time_ParseDuration W part = inr cause ->
      timer_start W i s = Next (Timer (TSendErr (ErrParseDuration part cause)))) /\
  (Contains (Type_ s) ":" = false -> timer_start W i s = Panic).
Proof.
  split.
  - intros part cause Hp Hc. unfold timer_start. rewrite Hp, Hc. reflexivity.
  - intros Hno. unfold timer_start. rewrite Split_no_colon by exact Hno. reflexivity.
Qed.

Lemma timer_duration_parse_witness :
  exists st, exec quiet_world timer_config [SpewStep; GoStep 0] (init timer_config) = Some st /\
             crashed st = true /\ pc st = InLoop /\
             timer_start quiet_world 0 timer_source = Panic.
Proof.
  eexists. split; [vm_compute; reflexivity|]. split; [reflexivity|]. split; [reflexivity|].
  apply (proj2 (timer_duration_parse quiet_world 0 timer_source)). reflexivity.
Defined.

(** ** The key of the table (C4) *)

(** The run of C4's counterexample: a once source whose name has two words
    gets both words capitalized. *)
Lemma two_word_name_key :
  Spew_start cpu_world cpu_config = inr (init cpu_config) /\
  exists st, exec cpu_world cpu_config [SpewStep] (init cpu_config) = Some st /\
             templateCtx st !! capitalize_first "cpu load" = None /\
             templateCtx st !! "Cpu Load" = Some "42".
Proof.
  split; [reflexivity|].
  eexists. split; [vm_compute; reflexivity|]. split; vm_compute; reflexivity.
Qed.

(** C4 (amended): the supervisor stores the sanitized value under
    [strings.Title] of the name, in the loop and for a once source alike; for
    a name that is a single word this is the name with its first letter in
    upper case. *)
Theorem stored_key_is_title W c :
  (forall st j g o d st',
      goroutines st !! j = Some g -> offers_out (g_drv g) = Some (o, d) ->
      step W c st (SpewRecvOut j) = Some st' ->
      templateCtx st' = <[Title (oName o) := sanitize (oValue o)]> (templateCtx st)) /\
  (forall st i s rest v st',
      pc st = InSetup i s rest -> dispatch (Type_ s) = KOnce -> once_run W i = (v, None) ->
      step W c st SpewStep = Some st' ->
      templateCtx st' = <[Title (Name s) := sanitize v]> (templateCtx st)) /\
  (forall name, single_word name = true -> Title name = capitalize_first name).
Proof.
  split; [|split].
  - intros st j g o d st' Hg Ho Hs. unfold step in Hs. rewrite Hg, Ho in Hs.
    unfold handle in Hs. repeat case_match; simplify_eq; reflexivity.
  - intros st i s rest v st' Hpc Hd Ho Hs. unfold step, spew_dispatch in Hs.
    rewrite Hpc, Hd, Ho in Hs. unfold handle in Hs.
    repeat case_match; simplify_eq; reflexivity.
  - apply Title_single_word.
Qed.

Lemma stored_key_is_title_witness :
  exists st, exec once_world once_config [SpewStep] (init once_config) = Some st /\
             templateCtx st = <[Title "date" := sanitize (nl "Sat")]> ∅ /\
             Title "date" = capitalize_first "date".
Proof.
  eexists. split; [vm_compute; reflexivity|].
  destruct (stored_key_is_title once_world once_config) as (_ & Honce & Hword).
  split.
  - apply (Honce (init once_config) 0 _ _ (nl "Sat") _ eq_refl eq_refl eq_refl).
    vm_compute. reflexivity.
  - apply Hword. reflexivity.
Defined.

(** ** Unsupported source types (C3) *)

(** The run of C3's counterexample: the listener that precedes the source of
    unknown type is started before the run fails. *)
Lemma listener_launched_before_failure :
  Spew_start quiet_world polling_config = inr (init polling_config) /\
  exists st, exec quiet_world polling_config [SpewStep] (init polling_config) = Some st /\
             pc st = InSetup 1 {| Name := "load"; Type_ := "polling"; Script := "uptime" |} [] /\
             tag <$> goroutines st = [(0, listen_source)] /\
             exists st', step quiet_world polling_config st SpewStep = Some st' /\
                         pc st' = Returned (Some (ErrUnsupported "polling")).
Proof.
  split; [reflexivity|]. eexists. split; [vm_compute; reflexivity|].
  split; [reflexivity|]. split; [reflexivity|].
  eexists. split; reflexivity.
Qed.

Section Unsupported.

Variables (W : World) (c : Config) (pre post : list Source) (bad : Source).
Hypothesis Hsplit : Sources c = pre ++ bad :: post.
Hypothesis Hbad : dispatch (Type_ bad) = KUnsupported.
Hypothesis Hfirst : Forall (fun s => dispatch (Type_ s) <> KUnsupported) pre.

Lemma before_bad (i : nat) (s : Source) (rest : list Source) :
  i <= List.length pre -> drop i (Sources c) = s :: rest ->
  (i < List.length pre /\ pre !! i = Some s /\ dispatch (Type_ s) <> KUnsupported /\
   take (S i) pre = take i pre ++ [s]) \/
  (i = List.length pre /\ s = bad /\ rest = post).
Proof.
  intros Hle Hdrop.
  pose proof (drop_head _ _ _ _ Hdrop) as Hl.
  destruct (decide (i < List.length pre)) as [Hlt|Hge].
  - left. rewrite Hsplit, lookup_app_l in Hl by exact Hlt.
    split; [exact Hlt|]. split; [exact Hl|]. split.
    + eapply Forall_lookup_1 in Hfirst; eauto.
    + apply take_S_r, Hl.
  - right. assert (i = List.length pre) as -> by lia. split; [reflexivity|].
    rewrite Hsplit, drop_app_length in Hdrop. inversion Hdrop. auto.
Qed.

Lemma stops_at_init : stops_at c pre bad (init c).
Proof.
  exists 0. split; [lia|]. rewrite take_0. cbn. split; [reflexivity|]. split; [constructor|].
  rewrite Hsplit. destruct pre; cbn; auto.
Qed.

Lemma stops_at_moves st a st' :
  stops_at c pre bad st -> moves W c st a st' -> stops_at c pre bad st'.
Proof.
  intros (k & Hk & Htag & Hw & Hpos) Hm.
  moves_cases Hm i Hpc;
    try (rewrite Hpc in Hpos; cbn in Hpos; destruct Hpos as [-> Hdrop]);
    try (rewrite Hpc in Hpos; cbn in Hpos; contradiction).
  - exists k. cbn. auto.
  - destruct (new_goroutine_spec _ _ _ Hnew) as (Ht & _ & Hsp & _).
    destruct (before_bad _ _ _ Hk Hdrop) as [(Hlt & Hl & Hs & Htake)|(-> & -> & ->)].
    + destruct (at_pos_enter _ _ _ _ Hdrop) as (_ & Hat & _ & _).
      exists (S i). cbn. split; [lia|]. split; [|split].
      * rewrite fmap_app, Htag, Htake, spawned_app, length_take.
        replace (i `min` List.length pre) with i by lia.
        cbn [fmap list_fmap]. rewrite Ht. cbn [Nat.add]. rewrite Hsp. reflexivity.
      * eapply Forall_impl; [exact Hw|]. cbn. intros; lia.
      * destruct rest; cbn in Hat |- *; [|exact Hat].
        apply (f_equal List.length) in Hdrop. rewrite length_drop, Hsplit, length_app in Hdrop.
        cbn in Hdrop. lia.
    + unfold new_goroutine in Hnew. rewrite Hbad in Hnew. discriminate.
  - exists i. cbn. split; [exact Hk|]. split; [exact Htag|]. split; [exact Hw|].
    eexists. split; [reflexivity|]. discriminate.
  - destruct (before_bad _ _ _ Hk Hdrop) as [(Hlt & Hl & Hs & Htake)|(-> & -> & ->)];
      [|congruence].
    destruct (at_pos_enter _ _ _ _ Hdrop) as (_ & Hat & _ & _).
    assert (Hsp : spawned i [s] = []) by (cbn; rewrite Hd; reflexivity).
    unfold handle. destruct (render _ _ _ _) as [text|e] eqn:Hr.
    + exists (S i). cbn. split; [lia|]. split; [|split].
      * rewrite Htag, Htake, spawned_app, length_take.
        replace (i `min` List.length pre) with i by lia.
        cbn [Nat.add]. rewrite Hsp, app_nil_r. reflexivity.
      * apply Forall_app. split; [|constructor; [cbn; lia|constructor]].
        eapply Forall_impl; [exact Hw|]. cbn. intros; lia.
      * destruct rest; cbn in Hat |- *; [|exact Hat].
        apply (f_equal List.length) in Hdrop. rewrite length_drop, Hsplit, length_app in Hdrop.
        cbn in Hdrop. lia.
    + exists i. cbn. split; [exact Hk|]. split; [exact Htag|]. split; [exact Hw|].
      eexists. split; [reflexivity|]. intros ->.
      unfold render in Hr. repeat case_match; discriminate.
  - destruct (before_bad _ _ _ Hk Hdrop) as [(Hlt & Hl & Hs & Htake)|(-> & -> & ->)];
      [congruence|].
    exists (List.length pre). cbn. split; [lia|]. split; [exact Htag|]. split; [exact Hw|].
    eexists. split; [reflexivity|]. reflexivity.
  - exists k. cbn. rewrite tag_insert by exact Hg. auto.
  - exists k. cbn. auto.
Qed.

Lemma stops_at_reachable acts st :
  exec W c acts (init c) = Some st -> stops_at c pre bad st.
Proof.
  apply (exec_invariant W c (stops_at c pre bad)); [|apply stops_at_init].
  intros st0 a st1 Hinv Hs. apply step_moves in Hs as [_ Hm]. eapply stops_at_moves; eauto.
Qed.

End Unsupported.

(** C3 (amended): with a source [bad] of unsupported type, first of its kind
    in the config, the supervisor never reaches its loop and never runs or
    starts a source from [bad] on; its result is never nil; when its loop over
    the sources arrives at [bad] the next step returns the error of
    spew.go:79, and by then every timer and listener placed before [bad] has
    been started. *)
Theorem unsupported_source_fails W c pre bad post st0 acts st :
  Spew_start W c = inr st0 ->
  Sources c = pre ++ bad :: post ->
  dispatch (Type_ bad) = KUnsupported ->
  Forall (fun s => dispatch (Type_ s) <> KUnsupported) pre ->
  exec W c acts st0 = Some st ->
  pc st <> InLoop /\ pc st <> Returned None /\
  (exists k, k <= List.length pre /\
             tag <$> goroutines st = spawned 0 (take k pre) /\
             Forall (fun r => r_from r < k) (written st)) /\
  (pc st = Returned (Some (ErrUnsupported (Type_ bad))) ->
   tag <$> goroutines st = spawned 0 pre) /\
  (forall i s rest,
      pc st = InSetup i s rest -> i = List.length pre -> crashed st = false ->
      exists st', step W c st SpewStep = Some st' /\
                  pc st' = Returned (Some (ErrUnsupported (Type_ bad)))).
Proof.
  intros Hstart Hsplit Hbad Hfirst Hex. apply Spew_start_inr in Hstart. subst st0.
  destruct (stops_at_reachable W c pre post bad Hsplit Hbad Hfirst acts st Hex)
    as (k & Hk & Htag & Hw & Hpos).
  split; [|split; [|split; [|split]]].
  - intros Hpc. rewrite Hpc in Hpos. exact Hpos.
  - intros Hpc. rewrite Hpc in Hpos. destruct Hpos as (e & He & _). discriminate.
  - exists k. auto.
  - intros Hpc. rewrite Hpc in Hpos. destruct Hpos as (e & He & Hlen).
    inversion He; subst e. rewrite Htag, Hlen by reflexivity. rewrite firstn_all. reflexivity.
  - intros i s rest Hpc -> Hcr. rewrite Hpc in Hpos. destruct Hpos as [-> Hdrop].
    destruct (before_bad c pre post bad Hsplit Hfirst _ _ _ Hk Hdrop)
      as [(Hlt & _)|(_ & -> & ->)]; [lia|].
    unfold step, spew_dispatch. rewrite Hcr, Hpc, Hbad. eexists. split; reflexivity.
Qed.

Lemma unsupported_source_fails_witness :
  exists st, exec quiet_world polling_config [SpewStep; SpewStep] (init polling_config) = Some st /\
             tag <$> goroutines st = spawned 0 [listen_source] /\ pc st <> Returned None.
Proof.
  eexists. split; [vm_compute; reflexivity|].
  destruct (unsupported_source_fails quiet_world polling_config [listen_source]
              {| Name := "load"; Type_ := "polling"; Script := "uptime" |} []
              _ [SpewStep; SpewStep] _ eq_refl eq_refl eq_refl
              ltac:(repeat constructor; discriminate) eq_refl) as (_ & Hnil & _ & Hgs & _).
  split; [apply Hgs; reflexivity | exact Hnil].
Defined.

(** ** Configs with once sources only *)

Lemma populate_snoc W (l : list Source) (s : Source) (j : nat) (ctx : gmap string string) :
  populate W j (l ++ [s]) ctx =
  store (mkOutput s (once_run W (j + List.length l)).1) (populate W j l ctx).
Proof.
  revert j ctx. induction l as [|s0 l IH]; intros j ctx; cbn.
  - rewrite Nat.add_0_r. reflexivity.
  - rewrite IH. replace (S j + List.length l) with (j + S (List.length l)) by lia. reflexivity.
Qed.

Lemma populate_other W (l : list Source) (j : nat) (ctx : gmap string string) (key : string) :
  (forall s, s ∈ l -> Title (Name s) <> key) ->
  populate W j l ctx !! key = ctx !! key.
Proof.
  revert j ctx. induction l as [|s0 l IH]; intros j ctx Hne; cbn; [reflexivity|].
  rewrite IH.
  - unfold store. cbn. apply lookup_insert_ne, Hne. left.
  - intros s Hs. apply Hne. right. exact Hs.
Qed.

(** A source's output is in the table under its key, unless a later source
    with the same key has replaced it. *)
Lemma populate_lookup W (l : list Source) (j : nat) (ctx : gmap string string)
    (i : nat) (s : Source) :
  l !! i = Some s ->
  (forall i' s', i < i' -> l !! i' = Some s' -> Title (Name s') <> Title (Name s)) ->
  populate W j l ctx !! Title (Name s) = Some (sanitize (once_run W (j + i)).1).
Proof.
  revert j ctx i. induction l as [|s0 l IH]; intros j ctx i Hl Hlater; [discriminate|].
  destruct i as [|i]; cbn in Hl |- *.
  - inversion Hl; subst s0. rewrite populate_other.
    + unfold store. cbn. rewrite Nat.add_0_r. apply lookup_insert_eq.
    + intros s' Hs'. apply list_elem_of_lookup in Hs' as [i' Hi'].
      apply (Hlater (S i') s'); [lia|exact Hi'].
  - replace (j + S i) with (S j + i) by lia. apply IH; [exact Hl|].
    intros i' s' Hlt Hi'. apply (Hlater (S i') s'); [lia|exact Hi'].
Qed.

Section OnceOnly.

Variables (W : World) (c : Config).
Hypothesis Honce : all_once c.

Lemma once_inv_init : once_inv W c (init c).
Proof.
  assert (Hp : once_progress W c 0 (init c)).
  { split; cbn; [rewrite take_0; reflexivity|]. split; [reflexivity|]. intros; lia. }
  unfold once_inv. change (pc (init c)) with (enter 0 (Sources c)).
  split; [reflexivity|]. destruct (Sources c) as [|s rest] eqn:Hs; cbn [enter].
  - exact Hp.
  - split; [reflexivity|exact Hp].
Qed.

Lemma once_log_snoc (i : nat) (s : Source) (ws : list rendering) (o text : string)
    (ctx : gmap string string) :
  Sources c !! i = Some s ->
  once_log W c i ws ->
  once_run W i = (o, None) ->
  ctx = populate W 0 (take (S i) (Sources c)) ∅ ->
  template_Execute W (Template c) ctx = inl text ->
  once_log W c (S i)
    (ws ++ [{| r_from := i; r_out := mkOutput s o; r_ctx := ctx; r_text := text |}]).
Proof.
  intros Hl [Hlen Hlog] Ho Hctx Hex. split; [rewrite length_app; cbn; lia|].
  intros i' s' Hlt Hl'. destruct (decide (i' = i)) as [->|Hne].
  - rewrite Hl in Hl'. inversion Hl'; subst s'. rewrite Ho. split; [reflexivity|].
    eexists. split; [rewrite lookup_app_r, Hlen, Nat.sub_diag by lia; reflexivity|].
    cbn. auto.
  - destruct (Hlog i' s') as (Hok & r & Hr & Hrest); [lia|exact Hl'|].
    split; [exact Hok|]. exists r. split; [|exact Hrest].
    rewrite lookup_app_l; [exact Hr|]. lia.
Qed.

Lemma once_inv_moves st a st' :
  sup_inv c st -> once_inv W c st -> moves W c st a st' -> once_inv W c st'.
Proof.
  intros [Hcan _ _] [Hgs Hpos] Hm.
  moves_cases Hm i Hpc;
    try (rewrite Hgs in Hg; rewrite lookup_nil in Hg; discriminate);
    try rewrite Hpc in Hpos.
  - split; [exact Hgs|]. cbn. destruct (pc st) as [| |[e|]]; auto. tauto.
  - destruct Hpos as [Hdrop _].
    pose proof (drop_head _ _ _ _ Hdrop) as Hl.
    eapply Forall_lookup_1 in Hl; [|exact Honce]. cbn in Hl.
    unfold new_goroutine in Hnew. rewrite Hl in Hnew. discriminate.
  - split; [exact Hgs|]. exact I.
  - destruct Hpos as [Hdrop [Hctx Hlog]].
    pose proof (drop_head _ _ _ _ Hdrop) as Hl.
    destruct (at_pos_enter _ _ _ _ Hdrop) as (Hle & Hat & Htake & Hlen).
    assert (Hst : store (mkOutput s o) (templateCtx st) =
                  populate W 0 (take (S i) (Sources c)) ∅).
    { rewrite Htake, populate_snoc, Hlen, Hctx. cbn [Nat.add]. rewrite Ho. reflexivity. }
    unfold handle. destruct (render _ _ _ _) as [text|e] eqn:Hr; (split; [exact Hgs|]); cbn;
      [|exact I].
    assert (Hp : once_progress W c (S i)
              {| pc := enter (S i) rest; templateCtx := store (mkOutput s o) (templateCtx st);
                 written := written st ++
                   [{| r_from := i; r_out := mkOutput s o;
                       r_ctx := store (mkOutput s o) (templateCtx st); r_text := text |}];
                 mainDone := mainDone st; cancelled := cancelled st; crashed := crashed st;
                 goroutines := goroutines st |}).
    { split; [exact Hst|]. cbn [written]. apply once_log_snoc; auto.
      unfold render in Hr. repeat case_match; simplify_eq. first [assumption | reflexivity]. }
    destruct rest as [|s' rest']; cbn in Hat |- *.
    + rewrite <- Hat. exact Hp.
    + split; [apply Hat|exact Hp].
  - split; [exact Hgs|]. exact I.
  - split; [exact Hgs|]. cbn. split; [|exact Hpos].
    unfold ctxDone in Hdone. rewrite Hcan, Hpc in Hdone. cbn in Hdone.
    destruct (mainDone st); [reflexivity|discriminate].
Qed.

Lemma once_inv_reachable acts st :
  exec W c acts (init c) = Some st -> once_inv W c st.
Proof.
  intros Hex.
  apply (exec_invariant W c (fun s => sup_inv c s /\ once_inv W c s)) in Hex.
  - apply Hex.
  - intros st0 a st1 [Hs Ho] Hstep. apply step_moves in Hstep as [_ Hm].
    split; [eapply sup_inv_moves|eapply once_inv_moves]; eauto.
  - split; [apply sup_inv_init|apply once_inv_init].
Qed.

(** With no goroutine, the loop can only wait for the caller's cancellation. *)
Lemma loop_without_goroutines st a st' :
  pc st = InLoop -> goroutines st = [] -> cancelled st = false ->
  step W c st a = Some st' ->
  a = MainCancel \/ (a = SpewDone /\ mainDone st = true /\ pc st' = Returned None).
Proof.
  intros Hpc Hgs Hcan Hs. apply step_moves in Hs as [_ Hm].
  destruct Hm; try congruence; auto;
    try (rewrite Hgs, lookup_nil in *; discriminate).
  right. split; [reflexivity|]. split; [|reflexivity].
  unfold ctxDone in *. rewrite Hcan in *. destruct (mainDone st); [reflexivity|discriminate].
Qed.

(** When every command and render succeeds, one step per source takes the
    supervisor into its loop. *)
Lemma setup_steps (k : nat) :
  setup_ok W c -> k <= List.length (Sources c) ->
  exists st, exec W c (replicate k SpewStep) (init c) = Some st /\
             crashed st = false /\ mainDone st = false /\
             pc st = enter k (drop k (Sources c)).
Proof.
  intros Hok. induction k as [|k IH]; intros Hk.
  - exists (init c). cbn. rewrite drop_0. auto.
  - destruct IH as (st & Hex & Hcr & Hmd & Hpc); [lia|].
    pose proof (once_inv_reachable _ _ Hex) as [Hgs Hinv].
    destruct (lookup_lt_is_Some_2 (Sources c) k) as [s Hl]; [lia|].
    rewrite (drop_S _ _ _ Hl) in Hpc. cbn in Hpc. rewrite Hpc in Hinv.
    destruct Hinv as [Hdrop [Hctx Hlog]].
    destruct (Hok k s Hl) as [Hrun [text Hr]].
    assert (Hd : dispatch (Type_ s) = KOnce).
    { eapply Forall_lookup_1 in Hl; [|exact Honce]. exact Hl. }
    destruct (once_run W k) as [o e] eqn:Ho. cbn in Hrun. subst e.
    destruct (at_pos_enter _ _ _ _ Hdrop) as (_ & _ & Htake & Hlen).
    assert (Hst : store (mkOutput s o) (templateCtx st) =
                  populate W 0 (take (S k) (Sources c)) ∅).
    { rewrite Htake, populate_snoc, Hlen, Hctx. cbn [Nat.add]. rewrite Ho. reflexivity. }
    rewrite replicate_S_end, exec_app, Hex. cbn [exec].
    unfold step, spew_dispatch, handle. rewrite Hcr, Hpc, Hd, Ho, Hst.
    destruct Hlog as [Hlen' _]. rewrite Hlen', Hr.
    eexists. split; [reflexivity|]. cbn. repeat split; auto.
Qed.

End OnceOnly.

(** The run of C6's counterexample: two once sources whose names get the
    same key; both commands succeed and the loop is reached, but the table
    holds the second output only. *)
Lemma same_key_loses_output :
  Spew_start clash_world clash_config = inr (init clash_config) /\
  all_once clash_config /\
  (forall i, (once_run clash_world i).2 = None) /\
  exists st, exec clash_world clash_config [SpewStep; SpewStep] (init clash_config) = Some st /\
             pc st = InLoop /\
             map_to_list (templateCtx st) = [("Date", "second")] /\
             r_text <$> written st = ["Date=first;|"; "Date=second;|"].
Proof.
  split; [reflexivity|]. split; [repeat constructor|]. split; [intros [|i]; reflexivity|].
  eexists. split; [vm_compute; reflexivity|]. repeat split; vm_compute; reflexivity.
Qed.

(** C6 (amended): in a config of once sources, every source is run and
    rendered during the setup, before the loop and without any goroutine;
    when the supervisor is in its loop it has written one render per source,
    each the template executed on the table as it was after that source, and
    the last one is the template executed on the final table.  That table
    holds the sanitized output of a source under its key unless a later
    source has the same key (the names being of ASCII characters, where the
    key is as modelled).  The loop is reached when all commands and all
    renders succeed. *)
Theorem once_sources_final_render W c st0 :
  Spew_start W c = inr st0 ->
  all_once c ->
  (setup_ok W c ->
   exists st, exec W c (replicate (List.length (Sources c)) SpewStep) st0 = Some st /\
              pc st = InLoop) /\
  (forall acts st,
      exec W c acts st0 = Some st ->
      goroutines st = [] /\
      (forall i s rest, pc st = InSetup i s rest ->
         templateCtx st = populate W 0 (take i (Sources c)) ∅ /\
         once_log W c i (written st)) /\
      (pc st = InLoop \/ pc st = Returned None ->
         templateCtx st = populate W 0 (Sources c) ∅ /\
         once_log W c (List.length (Sources c)) (written st) /\
         (ascii_names c ->
          forall i s, Sources c !! i = Some s ->
            (forall i' s', i < i' -> Sources c !! i' = Some s' ->
                           Title (Name s') <> Title (Name s)) ->
            templateCtx st !! Title (Name s) = Some (sanitize (once_run W i).1)) /\
         (forall r, last (written st) = Some r ->
            template_Execute W (Template c) (templateCtx st) = inl (r_text r)))).
Proof.
  intros Hstart Honce. apply Spew_start_inr in Hstart. subst st0. split.
  - intros Hok. destruct (setup_steps W c Honce _ Hok (le_n _)) as (st & Hex & _ & _ & Hpc).
    exists st. split; [exact Hex|]. rewrite drop_all in Hpc. exact Hpc.
  - intros acts st Hex. pose proof (once_inv_reachable W c Honce _ _ Hex) as [Hgs Hinv].
    split; [exact Hgs|]. split.
    + intros i s rest Hpc. rewrite Hpc in Hinv. destruct Hinv as [_ Hp]. exact Hp.
    + intros Hpc.
      assert (Hp : once_progress W c (List.length (Sources c)) st).
      { destruct Hpc as [Hpc|Hpc]; rewrite Hpc in Hinv; [exact Hinv|apply Hinv]. }
      destruct Hp as [Hctx Hlog]. rewrite firstn_all in Hctx.
      split; [exact Hctx|]. split; [exact Hlog|]. split.
      * intros _ i s Hl Hlater. rewrite Hctx. apply (populate_lookup W _ 0 ∅ i s Hl Hlater).
      * intros r Hlast. rewrite last_lookup in Hlast. destruct Hlog as [Hlen Hlog].
        rewrite Hlen in Hlast.
        destruct (Sources c) as [|s0 l] eqn:Hs.
        { destruct (written st); [discriminate Hlast|discriminate Hlen]. }
        cbn [List.length Nat.pred] in Hlast.
        destruct (lookup_lt_is_Some_2 (s0 :: l) (List.length l)) as [s Hl]; [cbn; lia|].
        destruct (Hlog (List.length l) s) as (_ & r' & Hr' & _ & _ & Hrc & Hrx);
          [cbn; lia|exact Hl|].
        rewrite Hlast in Hr'. inversion Hr'; subst r'.
        change (S (List.length l)) with (List.length (s0 :: l)) in Hrc.
        rewrite firstn_all in Hrc. rewrite Hctx, <- Hrc. exact Hrx.
Qed.

Lemma once_setup_ok : setup_ok once_world once_config.
Proof.
  intros i s Hl. destruct i as [|[|i]]; cbn in Hl; simplify_eq.
  all: split; [reflexivity|]. all: eexists; vm_compute; reflexivity.
Qed.

Lemma once_all_once : all_once once_config.
Proof. repeat constructor. Qed.

Lemma once_sources_final_render_witness :
  exists st, exec once_world once_config [SpewStep; SpewStep] (init once_config) = Some st /\
             pc st = InLoop /\
             r_text <$> written st = ["Date=Sat;|"; "Username=root;Date=Sat;|"] /\
             templateCtx st !! "Username" = Some "root".
Proof.
  destruct (once_sources_final_render once_world once_config _ eq_refl once_all_once)
    as [Hreach Hall].
  destruct (Hreach once_setup_ok) as (st & Hex & Hpc).
  exists st. split; [exact Hex|]. split; [exact Hpc|].
  destruct (Hall _ _ Hex) as (_ & _ & Hloop).
  destruct (Hloop (or_introl Hpc)) as (_ & _ & Hval & _).
  split.
  - clear -Hex. vm_compute in Hex. injection Hex as <-. vm_compute. reflexivity.
  - assert (Hlater : forall i' s', 1 < i' -> Sources once_config !! i' = Some s' ->
                       Title (Name s') <> Title "username").
    { intros i' s' Hlt Hl'. destruct i' as [|[|i']]; [lia|lia|discriminate Hl']. }
    assert (Hascii : ascii_names once_config).
    { repeat constructor; cbn; lia. }
    exact (Hval Hascii 1 {| Name := "username"; Type_ := "once"; Script := "whoami" |}
             eq_refl Hlater).
Defined.

Lemma once_no_error W c acts st :
  all_once c -> setup_ok W c -> exec W c acts (init c) = Some st ->
  forall e, pc st <> Returned (Some e).
Proof.
  intros Honce Hok Hex.
  apply (exec_invariant W c
           (fun s => (sup_inv c s /\ once_inv W c s) /\ forall e, pc s <> Returned (Some e)))
    in Hex; [apply Hex| |].
  - intros st0 a st1 [[Hs [Hgs Hinv]] Hne] Hstep. apply step_moves in Hstep as [_ Hm].
    split; [split; [eapply sup_inv_moves|eapply once_inv_moves]; eauto; split; auto|].
    moves_cases Hm i Hpc;
      try (rewrite Hgs in Hg; rewrite lookup_nil in Hg; discriminate);
      try exact Hne; try rewrite Hpc in Hinv.
    + cbn. destruct rest; discriminate.
    + destruct Hinv as [Hdrop _].
      pose proof (drop_head _ _ _ _ Hdrop) as Hl.
      destruct (Hok i s Hl) as [Hrun _]. rewrite Ho in Hrun. discriminate.
    + destruct Hinv as [Hdrop [Hctx [Hlen _]]].
      pose proof (drop_head _ _ _ _ Hdrop) as Hl.
      destruct (Hok i s Hl) as [_ [text Hr]].
      destruct (at_pos_enter _ _ _ _ Hdrop) as (_ & _ & Htake & Hlen').
      assert (Hst : store (mkOutput s o) (templateCtx st0) =
                    populate W 0 (take (S i) (Sources c)) ∅).
      { rewrite Htake, populate_snoc, Hlen', Hctx. cbn [Nat.add]. rewrite Ho. reflexivity. }
      unfold handle. rewrite Hst, Hlen, Hr. cbn. destruct rest; discriminate.
    + destruct Hinv as [Hdrop _].
      pose proof (drop_head _ _ _ _ Hdrop) as Hl.
      eapply Forall_lookup_1 in Hl; [|exact Honce]. cbn in Hl. congruence.
    + cbn. discriminate.
  - split; [split; [apply sup_inv_init|apply once_inv_init; exact Honce]|].
    intros e. cbn. destruct (Sources c); discriminate.
Qed.

(** The run of C10's counterexample: the commands of both once sources
    succeed, the second flush fails, and [Spew] returns that error by itself,
    with no cancellation. *)
Lemma failed_write_returns_uncancelled :
  Spew_start epipe_world once_config = inr (init once_config) /\
  all_once once_config /\
  (forall i, (once_run epipe_world i).2 = None) /\
  exists st, exec epipe_world once_config [SpewStep; SpewStep] (init once_config) = Some st /\
             mainDone st = false /\ pc st = Returned (Some (ErrWrite "EPIPE")).
Proof.
  split; [reflexivity|]. split; [repeat constructor|]. split; [intros [|i]; reflexivity|].
  eexists. split; [vm_compute; reflexivity|]. split; reflexivity.
Qed.

(** C10 (amended): a config of once sources starts no goroutine; once in its
    loop the supervisor can do nothing until the caller cancels, and then
    returns nil; it returns nil in no other way, and when all commands and
    all renders succeed it does reach the loop and never returns an error. *)
Theorem once_only_returns_on_cancel W c st0 :
  Spew_start W c = inr st0 ->
  all_once c ->
  (setup_ok W c ->
   exists st, exec W c (replicate (List.length (Sources c)) SpewStep) st0 = Some st /\
              pc st = InLoop /\ goroutines st = [] /\ mainDone st = false) /\
  (forall acts st,
      exec W c acts st0 = Some st ->
      goroutines st = [] /\
      (pc st = Returned None -> mainDone st = true) /\
      (setup_ok W c -> forall e, pc st <> Returned (Some e)) /\
      (pc st = InLoop ->
       forall a st', step W c st a = Some st' ->
         a = MainCancel \/ (a = SpewDone /\ mainDone st = true /\ pc st' = Returned None))).
Proof.
  intros Hstart Honce. apply Spew_start_inr in Hstart. subst st0. split.
  - intros Hok. destruct (setup_steps W c Honce _ Hok (le_n _)) as (st & Hex & _ & Hmd & Hpc).
    exists st. rewrite drop_all in Hpc.
    pose proof (once_inv_reachable W c Honce _ _ Hex) as [Hgs _]. auto.
  - intros acts st Hex. pose proof (once_inv_reachable W c Honce _ _ Hex) as [Hgs Hinv].
    pose proof (sup_inv_reachable _ _ _ _ Hex) as [Hcan _ _].
    split; [exact Hgs|]. split.
    + intros Hpc. rewrite Hpc in Hinv. apply Hinv.
    + split; [intros Hok; eapply once_no_error; eauto|].
      intros Hpc a st' Hs. eapply loop_without_goroutines; eauto.
      rewrite Hcan, Hpc. reflexivity.
Qed.

Lemma once_only_returns_on_cancel_witness :
  exists st, exec once_world once_config [SpewStep; SpewStep] (init once_config) = Some st /\
             pc st = InLoop /\ goroutines st = [] /\ mainDone st = false.
Proof.
  exact (proj1 (once_only_returns_on_cancel once_world once_config _ eq_refl once_all_once)
           once_setup_ok).
Defined.

(** ** One listener's records, in order *)

Section Listener.

Variables (W : World) (c : Config) (i : nat) (src : Source).
Variables (Ls : list string) (eo ee : option string).
Hypothesis Hsrc : Sources c !! i = Some src.
Hypothesis Hkind : dispatch (Type_ src) = KListen.
Hypothesis Hcmd :
  listener_cmd W i = Started {| lines := Ls; ending := eo |} {| lines := []; ending := ee |}.

Lemma pipe_prefix (vals : list string) (d : driver) :
  pipe src Ls vals d -> vals `prefix_of` Ls.
Proof using Type.
  unfold pipe. destruct d as [p|p ro re]; [tauto|].
  destruct p; intros H; try tauto.
  - subst vals. apply prefix_nil.
  - destruct H as (_ & _ & _ & H). rewrite <- H. apply prefix_app_r. reflexivity.
  - destruct H as (_ & _ & _ & _ & H). rewrite <- H. apply prefix_app_r. reflexivity.
Qed.

Lemma pipe_local (a : action) (j : nat) (g : goroutine) (d : driver) (vals : list string) :
  g_idx g = i -> g_src g = src ->
  local_move W false a j g (Next d) ->
  pipe src Ls vals (g_drv g) -> pipe src Ls vals d.
Proof using Hcmd.
  intros Hi Hs Hl Hp. destruct g as [gi gs gd]. cbn in Hi, Hs, Hp. subst gi gs.
  destruct a; cbn in Hl; try tauto.
  - destruct Hl as [_ Hl]. unfold go_step in Hl. cbn in Hl.
    destruct gd as [p|p ro re]; [contradiction Hp|].
    destruct p; try discriminate Hl.
    unfold listener_start in Hl. rewrite Hcmd in Hl. inversion Hl; subst d.
    cbn in Hp |- *. subst vals. repeat split; auto; discriminate.
  - destruct Hl as (_ & Hf & _). discriminate Hf.
  - destruct Hl as [_ Hl]. unfold go_recv in Hl. cbn in Hl.
    destruct gd as [p|p ro re]; [contradiction Hp|].
    destruct p; try discriminate Hl.
    cbn in Hp. destruct Hp as (Hre & Hro & Hrc & Hv).
    destruct ro as [rop ros], re as [rep res].
    unfold recv_err, recv_line, in_reader in *. cbn in *.
    destruct f, k; repeat case_match; simplify_eq; cbn; repeat split; auto;
      try discriminate; try (apply prefix_app_r; reflexivity).
  - destruct Hl as [_ Hl]. unfold on_reader in Hl. cbn in Hl.
    destruct gd as [p|p ro re]; [contradiction Hp|].
    destruct ro as [rop [rol roe]], re as [rep [rel ree]].
    unfold read, in_reader in *. cbn in *.
    destruct f, p; repeat case_match; simplify_eq; cbn in *;
      repeat match goal with H : _ /\ _ |- _ => destruct H end;
      simplify_eq; repeat split; auto; try discriminate.
  - destruct Hl as (_ & Hf & _). discriminate Hf.
Qed.

Lemma pipe_deliver (g : goroutine) (o : output) (d : driver) (vals : list string) :
  offers_out (g_drv g) = Some (o, d) ->
  pipe src Ls vals (g_drv g) ->
  oName o = Name src /\ pipe src Ls (vals ++ [oValue o]) d.
Proof using Type.
  intros Ho Hp. destruct (g_drv g) as [p|p ro re]; [contradiction Hp|].
  destruct p; try discriminate Ho; cbn in Ho, Hp; simplify_eq; [|contradiction Hp].
  destruct Hp as (Hre & Hro & Hrc & Hn & Hv). split; [exact Hn|]. cbn.
  rewrite <- app_assoc. cbn. auto.
Qed.

End Listener.

Lemma pipes_update i src Ls (gs : list goroutine) j g d vals vals' :
  (forall j1 j2 g1 g2, gs !! j1 = Some g1 -> gs !! j2 = Some g2 ->
                       g_idx g1 = g_idx g2 -> j1 = j2) ->
  gs !! j = Some g ->
  (g_idx g = i -> pipe src Ls vals (g_drv g) -> pipe src Ls vals' d) ->
  (g_idx g <> i -> vals' = vals) ->
  pipes i src Ls gs vals ->
  pipes i src Ls (<[j := with_driver g d]> gs) vals'.
Proof.
  intros Huniq Hg Hsame Hother [Hpipe Hnone]. split.
  - intros j' g' Hg' Hi. apply list_lookup_insert_Some in Hg' as [(<- & <- & _)|[Hne Hg']].
    + cbn in Hi |- *. apply Hsame; [exact Hi|]. eapply Hpipe; eauto.
    + destruct (decide (g_idx g = i)) as [Hgi|Hgi].
      * exfalso. apply Hne. eapply Huniq; eauto. congruence.
      * rewrite (Hother Hgi). eapply Hpipe; eauto.
  - intros Hno. destruct (decide (g_idx g = i)) as [Hgi|Hgi].
    + exfalso. apply (Hno j (with_driver g d)); [|exact Hgi].
      apply list_lookup_insert_eq. eapply lookup_lt_Some, Hg.
    + rewrite (Hother Hgi). apply Hnone. intros j' g' Hg'.
      destruct (decide (j' = j)) as [->|Hne]; [congruence|].
      apply (Hno j' g'). rewrite list_lookup_insert_ne; auto.
Qed.

Lemma values_of_snoc i st r :
  (fun x => oValue (r_out x)) <$> filter (fun x => r_from x = i) (written st ++ [r]) =
  values_of i st ++ (if decide (r_from r = i) then [oValue (r_out r)] else []).
Proof.
  unfold values_of, rendered_of. rewrite filter_app, fmap_app. f_equal.
  destruct (decide (r_from r = i)) as [H|H].
  - rewrite filter_cons_True by exact H. reflexivity.
  - rewrite filter_cons_False by exact H. reflexivity.
Qed.

Section ListenerRun.

Variables (W : World) (c : Config) (i : nat) (src : Source).
Variables (Ls : list string) (eo ee : option string).
Hypothesis Hsrc : Sources c !! i = Some src.
Hypothesis Hkind : dispatch (Type_ src) = KListen.
Hypothesis Hcmd :
  listener_cmd W i = Started {| lines := Ls; ending := eo |} {| lines := []; ending := ee |}.

Lemma listener_inv_init : listener_inv W c i src Ls (init c).
Proof.
  intros _. cbn. split; [apply prefix_nil|]. split; [constructor|].
  intros _. split; [intros j g Hg; discriminate Hg|reflexivity].
Qed.

Lemma listener_inv_handle st from o next gs :
  (mainDone st = false ->
   values_of i st `prefix_of` Ls /\
   Forall (rendered_ok W c src) (rendered_of i st) /\
   (from = i -> oName o = Name src /\ (values_of i st ++ [oValue o]) `prefix_of` Ls) /\
   (cancelled st = false ->
    pipes i src Ls gs
      (values_of i st ++ (if decide (from = i) then [oValue o] else [])))) ->
  listener_inv W c i src Ls (handle W (Template c) st from o next gs).
Proof.
  intros H Hmd.
  assert (Hmd0 : mainDone st = false).
  { unfold handle in Hmd. destruct (render _ _ _ _); exact Hmd. }
  destruct (H Hmd0) as (Hpre & Hok & Hfrom & Hpipes). clear H Hmd. unfold handle.
  destruct (render W (Template c) (store o (templateCtx st)) (List.length (written st)))
    as [text|e] eqn:Hr.
  - unfold values_of, rendered_of. cbn [written cancelled goroutines].
    rewrite values_of_snoc. cbn [r_from r_out]. rewrite filter_app.
    destruct (decide (from = i)) as [->|Hne].
    + destruct (Hfrom eq_refl) as [Hn Hp]. split; [exact Hp|]. split; [|exact Hpipes].
      apply Forall_app. split; [exact Hok|].
      rewrite filter_cons_True by reflexivity. constructor; [|constructor].
      split; cbn.
      * unfold store. rewrite Hn. apply lookup_insert_eq.
      * unfold render in Hr. repeat case_match; simplify_eq. first [assumption|reflexivity].
    + rewrite app_nil_r in *. split; [exact Hpre|]. split; [|exact Hpipes].
      rewrite filter_cons_False by exact Hne. rewrite app_nil_r. exact Hok.
  - cbn. split; [exact Hpre|]. split; [exact Hok|]. discriminate.
Qed.

Lemma listener_inv_moves st a st' :
  sup_inv c st -> listener_inv W c i src Ls st -> moves W c st a st' ->
  listener_inv W c i src Ls st'.
Proof.
  intros Hsup Hinv Hm.
  pose proof (inv_cancel _ _ Hsup) as Hcan.
  assert (Huniq : forall j1 j2 g1 g2,
             goroutines st !! j1 = Some g1 -> goroutines st !! j2 = Some g2 ->
             g_idx g1 = g_idx g2 -> j1 = j2).
  { intros. eapply sup_inv_unique; eauto. }
  moves_cases Hm i0 Hpc.
  - intros Hmd. discriminate Hmd.
  - intros Hmd. destruct (Hinv Hmd) as (Hpre & Hok & Hstrong).
    split; [exact Hpre|]. split; [exact Hok|]. intros Hc.
    destruct (Hstrong Hc) as [Hpipe Hnone].
    assert (Hfresh : i0 = i -> values_of i st = []).
    { intros ->. apply Hnone. intros j g' Hg'.
      pose proof (sup_inv_before _ _ _ _ _ _ _ Hsup Hpc Hg'). lia. }
    cbn [goroutines]. split.
    + intros j g' Hg' Hi. apply lookup_app_Some in Hg' as [Hg'|[_ Hg']].
      * eapply Hpipe; eauto.
      * apply list_lookup_singleton_Some in Hg' as [_ <-].
        destruct (new_goroutine_spec _ _ _ Hnew) as (Ht & _ & _ & Hdrv).
        inversion Ht as [[Hgi Hgs]]. rewrite Hgi in Hi. subst i0.
        pose proof (sup_inv_head _ _ _ _ _ Hsup Hpc) as Hhead.
        assert (Hs : s = src) by congruence. rewrite Hs in Hnew.
        unfold new_goroutine in Hnew. rewrite Hkind in Hnew. inversion Hnew as [Hg0].
        cbn. apply Hfresh. reflexivity.
    + intros Hno. apply Hnone. intros j g' Hg'. apply (Hno j g').
      apply lookup_app_l_Some. exact Hg'.
  - intros Hmd. destruct (Hinv Hmd) as (Hpre & Hok & _).
    split; [exact Hpre|]. split; [exact Hok|]. discriminate.
  - assert (Hne : i0 <> i).
    { intros ->. pose proof (sup_inv_head _ _ _ _ _ Hsup Hpc) as Hhead.
      assert (Hs : s = src) by congruence. congruence. }
    apply listener_inv_handle. intros Hmd.
    destruct (Hinv Hmd) as (Hpre & Hok & Hstrong).
    split; [exact Hpre|]. split; [exact Hok|]. split; [tauto|].
    intros Hc. rewrite decide_False by exact Hne. rewrite app_nil_r. auto.
  - intros Hmd. destruct (Hinv Hmd) as (Hpre & Hok & _).
    split; [exact Hpre|]. split; [exact Hok|]. discriminate.
  - intros Hmd. destruct (Hinv Hmd) as (Hpre & Hok & _).
    split; [exact Hpre|]. split; [exact Hok|]. discriminate.
  - intros Hmd. destruct (Hinv Hmd) as (Hpre & Hok & _).
    split; [exact Hpre|]. split; [exact Hok|]. discriminate.
  - assert (Hc : cancelled st = false) by (rewrite Hcan, Hpc; reflexivity).
    apply listener_inv_handle. intros Hmd.
    destruct (Hinv Hmd) as (Hpre & Hok & Hstrong).
    destruct (Hstrong Hc) as [Hpipe Hnone].
    split; [exact Hpre|]. split; [exact Hok|]. split.
    + intros Hi. destruct (pipe_deliver src Ls g o d (values_of i st) Ho) as [Hn Hp];
        [eapply Hpipe; eauto|].
      split; [exact Hn|]. exact (pipe_prefix _ _ _ _ Hp).
    + intros _.
      eapply (pipes_update i src Ls (goroutines st) j g d (values_of i st));
        [exact Huniq | exact Hg | | | split; assumption].
      * intros Hi Hp0. rewrite decide_True by exact Hi.
        exact (proj2 (pipe_deliver src Ls g o d (values_of i st) Ho Hp0)).
      * intros Hi. rewrite decide_False by exact Hi. apply app_nil_r.
  - intros Hmd. destruct (Hinv Hmd) as (Hpre & Hok & Hstrong).
    split; [exact Hpre|]. split; [exact Hok|]. intros Hc. cbn in Hc, Hmd.
    assert (Hnd : ctxDone st = false) by (unfold ctxDone; rewrite Hmd, Hc; reflexivity).
    rewrite Hnd in Hl. cbn [goroutines].
    eapply (pipes_update i src Ls (goroutines st) j g d (values_of i st));
      [exact Huniq | exact Hg | | reflexivity | exact (Hstrong Hc)].
    intros Hi. eapply pipe_local; eauto.
    pose proof (sup_inv_source _ _ _ _ Hsup Hg) as Hs. rewrite Hi, Hsrc in Hs. congruence.
  - exact Hinv.
Qed.

Lemma listener_inv_reachable acts st :
  exec W c acts (init c) = Some st -> listener_inv W c i src Ls st.
Proof.
  intros Hex.
  apply (exec_invariant W c (fun s => sup_inv c s /\ listener_inv W c i src Ls s)) in Hex.
  - apply Hex.
  - intros st0 a st1 [Hs Hl] Hstep. apply step_moves in Hstep as [_ Hm].
    split; [eapply sup_inv_moves|eapply listener_inv_moves]; eauto.
  - split; [apply sup_inv_init|apply listener_inv_init].
Qed.

End ListenerRun.

Lemma rendered_fields W c src (rs : list rendering) :
  Forall (rendered_ok W c src) rs ->
  (fun r => r_ctx r !! Title (Name src)) <$> rs =
  (fun v => Some (sanitize v)) <$> ((fun r => oValue (r_out r)) <$> rs).
Proof.
  induction 1 as [|r rs [Hr _] _ IH]; cbn; [reflexivity|]. rewrite Hr, IH. reflexivity.
Qed.

(** The run in which every line is handed over as soon as it is read, from
    the state where the listener, the only goroutine, has just started. *)
Lemma forward_renders_all W c src re eo :
  (forall ctx n, exists text, render W (Template c) ctx n = inl text) ->
  forall Ls ctx ws,
  exists st',
    exec W c (List.concat (replicate (List.length Ls) forward))
      {| pc := InLoop; templateCtx := ctx; written := ws; mainDone := false;
         cancelled := false; crashed := false;
         goroutines :=
           [{| g_idx := 0; g_src := src;
               g_drv := Listener LSelect
                          {| r_pc := RReading; r_rest := {| lines := Ls; ending := eo |} |}
                          re |}] |} = Some st' /\
    pc st' = InLoop /\ mainDone st' = false /\
    (fun r => oValue (r_out r)) <$> filter (fun r => r_from r = 0) (written st') =
    ((fun r => oValue (r_out r)) <$> filter (fun r => r_from r = 0) ws) ++ Ls.
Proof.
  intros Hr. induction Ls as [|l ls IH]; intros ctx ws.
  - eexists. split; [reflexivity|]. cbn. rewrite app_nil_r. auto.
  - destruct (Hr (store (mkOutput src l) ctx) (List.length ws)) as [text Ht].
    destruct (IH (store (mkOutput src l) ctx)
                 (ws ++ [{| r_from := 0; r_out := mkOutput src l;
                            r_ctx := store (mkOutput src l) ctx; r_text := text |}]))
      as (st' & Hex & Hpc & Hmd & Hv).
    exists st'. split; [|split; [exact Hpc|split; [exact Hmd|]]].
    + cbn [List.length replicate List.concat]. unfold forward at 1. cbn [app exec].
      unfold step at 1. cbn -[render store exec].
      unfold handle. cbn -[render store exec]. rewrite Ht. exact Hex.
    + rewrite Hv, filter_app, fmap_app. cbn. rewrite <- app_assoc. reflexivity.
Qed.

(** The run of C9's counterexample: the command prints a, b, c and exits;
    the end of its standard error is received first, [Spew] returns the read
    error, and nothing of the source is ever rendered. *)
Lemma exited_listener_renders_nothing :
  Spew_start exit_world listen_config = inr (init listen_config) /\
  exists st, exec exit_world listen_config early_eof_run (init listen_config) = Some st /\
             mainDone st = false /\ pc st = Returned (Some (ErrRead "EOF")) /\
             written st = [] /\
             forall acts st', exec exit_world listen_config acts st = Some st' ->
                              written st' = [].
Proof.
  split; [reflexivity|]. eexists. split; [vm_compute; reflexivity|].
  split; [reflexivity|]. split; [reflexivity|]. split; [reflexivity|].
  intros acts st' Hex. eapply returned_forever in Hex as (_ & _ & Hw); [exact Hw|reflexivity].
Qed.

(** C9 (amended): for a listener whose command prints the lines [Ls] on its
    standard output and nothing on its standard error, in a run the caller
    has not cancelled: the records of that source are rendered in the order
    of [Ls], none skipped, merged or repeated, so there are never more
    renders than lines; at each of these renders the table's field of the
    source is the sanitized line, and the text is the template executed on
    that table; once the reader and the driver hold no line any more, all of
    [Ls] has been rendered; and when the listener is the only source and the
    renders succeed, the run that hands the lines over one by one renders
    all of them.  A run may end before that, with fewer renders. *)
Theorem listener_renders_in_order W c i src Ls eo ee st0 acts st :
  Spew_start W c = inr st0 ->
  Sources c !! i = Some src -> dispatch (Type_ src) = KListen ->
  listener_cmd W i = Started {| lines := Ls; ending := eo |} {| lines := []; ending := ee |} ->
  exec W c acts st0 = Some st -> mainDone st = false ->
  values_of i st `prefix_of` Ls /\
  (fun r => r_ctx r !! Title (Name src)) <$> rendered_of i st =
    (fun v => Some (sanitize v)) <$> values_of i st /\
  Forall (fun r => template_Execute W (Template c) (r_ctx r) = inl (r_text r))
    (rendered_of i st) /\
  (forall j g ro re,
      pc st = InLoop -> goroutines st !! j = Some g -> g_idx g = i ->
      g_drv g = Listener LSelect ro re -> in_reader ro = [] ->
      values_of i st = Ls) /\
  (Sources c = [src] ->
   (forall ctx n, exists text, render W (Template c) ctx n = inl text) ->
   exists st', exec W c (SpewStep :: GoStep 0 :: List.concat (replicate (List.length Ls) forward))
                 st0 = Some st' /\
               pc st' = InLoop /\ mainDone st' = false /\ values_of i st' = Ls).
Proof.
  intros Hstart Hsrc Hkind Hcmd Hex Hmd. apply Spew_start_inr in Hstart. subst st0.
  destruct (listener_inv_reachable W c i src Ls eo ee Hsrc Hkind Hcmd acts st Hex Hmd)
    as (Hpre & Hok & Hstrong).
  split; [exact Hpre|]. split; [apply (rendered_fields W c), Hok|]. split;
    [|split]; [| |intros Hone Hr].
  3: { rewrite Hone in Hsrc. apply list_lookup_singleton_Some in Hsrc as [-> _].
       destruct (forward_renders_all W c src
                   {| r_pc := RReading; r_rest := {| lines := []; ending := ee |} |} eo
                   Hr Ls ∅ []) as (st' & Hex' & Hpc' & Hmd' & Hv').
       exists st'. split; [|split; [exact Hpc'|split; [exact Hmd'|exact Hv']]].
       cbn [exec]. unfold init. rewrite Hone.
       unfold step at 1. cbn -[exec List.concat step spew_dispatch].
       unfold spew_dispatch. rewrite Hkind. cbn -[exec List.concat step].
       unfold step at 1. cbn -[exec List.concat step go_step].
       unfold go_step. cbn -[exec List.concat step listener_start].
       unfold listener_start. rewrite Hcmd. cbn -[exec List.concat step]. exact Hex'. }
  - eapply Forall_impl; [exact Hok|]. intros r [_ Hr]. exact Hr.
  - intros j g ro re Hpc Hg Hi Hdrv Hro.
    pose proof (sup_inv_reachable _ _ _ _ Hex) as [Hcan _ _].
    destruct Hstrong as [Hpipe _]; [rewrite Hcan, Hpc; reflexivity|].
    specialize (Hpipe j g Hg Hi). rewrite Hdrv in Hpipe. cbn in Hpipe.
    destruct Hpipe as (_ & _ & _ & Hv). rewrite Hro, app_nil_r in Hv. exact Hv.
Qed.

Lemma listener_renders_in_order_witness :
  exists st, exec abc_world listen_config abc_run (init listen_config) = Some st /\
    values_of 0 st = [nl "a"; nl "b"; nl "c"] /\
    (fun r => r_ctx r !! "Random") <$> rendered_of 0 st = [Some "a"; Some "b"; Some "c"].
Proof.
  destruct (exec abc_world listen_config abc_run (init listen_config)) as [st|] eqn:Hex;
    [|vm_compute in Hex; discriminate].
  exists st. split; [reflexivity|].
  assert (Hmd : mainDone st = false).
  { vm_compute in Hex. injection Hex as <-. reflexivity. }
  destruct (listener_renders_in_order abc_world listen_config 0 listen_source
              [nl "a"; nl "b"; nl "c"] None None _ abc_run st eq_refl eq_refl eq_refl eq_refl
              Hex Hmd)
    as (_ & Hfields & _ & Hall & _).
  assert (Hvals : values_of 0 st = [nl "a"; nl "b"; nl "c"]).
  { clear Hfields. vm_compute in Hex. injection Hex as <-.
    eapply (Hall 0); reflexivity. }
  split; [exact Hvals|].
  change "Random" with (Title (Name listen_source)). rewrite Hfields, Hvals. reflexivity.
Defined.

(** * Further properties: the string helpers *)

Lemma strip_chars (a : ascii) (s : string) :
  list_ascii_of_string (strip a s) =
  List.filter (fun c => negb (Ascii.eqb c a)) (list_ascii_of_string s).
Proof.
  induction s as [|c s IH]; cbn; [reflexivity|].
  destruct (Ascii.eqb c a); cbn; rewrite IH; reflexivity.
Qed.

Lemma strip_app (a : ascii) (s t : string) :
  strip a (s +:+ t) = strip a s +:+ strip a t.
Proof.
  induction s as [|c s IH]; simpl; [reflexivity|].
  destruct (Ascii.eqb c a); simpl; rewrite IH; reflexivity.
Qed.

(** X1: [sanitize] keeps every character other than LF and CR, in the
    order it found them, and removes all others. *)
Theorem sanitize_keeps_the_rest (s : string) :
  list_ascii_of_string (sanitize s) = List.filter kept (list_ascii_of_string s).
Proof.
  rewrite sanitize_strip, !strip_chars. unfold kept.
  induction (list_ascii_of_string s) as [|c l IH]; cbn; [reflexivity|].
  destruct (Ascii.eqb c LF); cbn; [exact IH|].
  destruct (Ascii.eqb c CR); cbn; [exact IH|]. rewrite IH. reflexivity.
Qed.

(** X2: sanitizing a concatenation is concatenating the sanitized parts, so
    a value is cleaned the same way whether it arrives whole or in pieces;
    and a string is left as it is exactly when it holds no LF and no CR. *)
Theorem sanitize_app_and_fixed (s t : string) :
  sanitize (s +:+ t) = sanitize s +:+ sanitize t /\
  (sanitize s = s <->
   ~ In LF (list_ascii_of_string s) /\ ~ In CR (list_ascii_of_string s)).
Proof.
  split.
  - rewrite !sanitize_strip, !strip_app. reflexivity.
  - split.
    + intros Heq. rewrite <- Heq, sanitize_strip. split.
      * apply strip_keeps_absent, strip_absent.
      * apply strip_absent.
    + intros [HLF HCR]. rewrite sanitize_strip, (strip_fixed LF) by exact HLF.
      apply strip_fixed, HCR.
Qed.

Lemma ToTitle_idem (c : ascii) : ToTitle (ToTitle c) = ToTitle c.
Proof. destruct c as [[] [] [] [] [] [] [] []]; reflexivity. Qed.

Lemma isSeparator_ToTitle (c : ascii) : isSeparator (ToTitle c) = isSeparator c.
Proof. destruct c as [[] [] [] [] [] [] [] []]; reflexivity. Qed.

Lemma title_from_idem (s : string) (p p' : ascii) :
  isSeparator p = isSeparator p' ->
  title_from p (title_from p' s) = title_from p' s.
Proof.
  revert p p'. induction s as [|c s IH]; intros p p' Hp; [reflexivity|].
  cbn [title_from]. rewrite Hp. f_equal.
  - destruct (isSeparator p'); [apply ToTitle_idem|reflexivity].
  - apply IH. destruct (isSeparator p'); [apply isSeparator_ToTitle|reflexivity].
Qed.

Lemma title_from_length (s : string) (p : ascii) :
  String.length (title_from p s) = String.length s.
Proof. revert p. induction s as [|c s IH]; intros p; cbn; [reflexivity|]. rewrite IH. reflexivity. Qed.

(** [Title] changes no length and is idempotent: a name that is already
    capitalized keeps its key, so a source named like the key of another one
    shares that key. *)
Theorem Title_idempotent (s : string) :
  Title (Title s) = Title s /\ String.length (Title s) = String.length s.
Proof.
  split; [apply title_from_idem; reflexivity|apply title_from_length].
Qed.

Lemma HasPrefix_app (sub post : string) : HasPrefix (sub +:+ post) sub = true.
Proof.
  induction sub as [|c sub IH]; [reflexivity|]. simpl. rewrite Ascii.eqb_refl. exact IH.
Qed.

Lemma Contains_unfold (s sub : string) :
  Contains s sub =
  HasPrefix s sub || match s with EmptyString => false | String _ s' => Contains s' sub end.
Proof. destruct s; reflexivity. Qed.

Lemma Contains_infix (pre sub post : string) :
  Contains (pre +:+ sub +:+ post) sub = true.
Proof.
  induction pre as [|c pre IH].
  - change (EmptyString +:+ sub +:+ post) with (sub +:+ post).
    rewrite Contains_unfold, HasPrefix_app. reflexivity.
  - change (String c pre +:+ sub +:+ post) with (String c (pre +:+ sub +:+ post)).
    rewrite Contains_unfold, IH. apply orb_true_r.
Qed.

(** X3: the switch of spew.go:62-80 looks for "timer" first and anywhere in
    the type: a type that holds it is run as a timer whatever else it holds. *)
Theorem timer_anywhere_is_timer (pre post : string) :
  dispatch (pre +:+ "timer" +:+ post) = KTimer.
Proof. unfold dispatch. rewrite Contains_infix. reflexivity. Qed.

Lemma split_from_nonempty (sep : string) (k : nat) (s : string) : split_from sep k s <> [].
Proof.
  revert k. induction s as [|c s IH]; intros k; cbn -[HasPrefix]; [discriminate|].
  destruct k; [|apply IH].
  destruct (HasPrefix (String c s) sep); [discriminate|].
  destruct (split_from sep 0 s); discriminate.
Qed.

Lemma split_from_second (a : ascii) (s : string) :
  Contains s (String a EmptyString) = true ->
  exists part, nth_error (split_from (String a EmptyString) 0 s) 1 = Some part.
Proof.
  induction s as [|c s IH]; [discriminate|].
  cbn -[Ascii.eqb]. destruct (Ascii.eqb c a); cbn -[Ascii.eqb].
  - intros _. destruct (split_from (String a EmptyString) 0 s) as [|p ps] eqn:Hs.
    + exfalso. eapply split_from_nonempty, Hs.
    + eauto.
  - intros Hc. destruct (IH Hc) as [part Hp].
    destruct (split_from (String a EmptyString) 0 s) as [|p ps]; [discriminate Hp|].
    exists part. exact Hp.
Qed.

Lemma split_from_first (a : ascii) (s t : string) :
  Contains s (String a EmptyString) = false ->
  split_from (String a EmptyString) 0 (s +:+ String a t) =
  s :: split_from (String a EmptyString) 0 t.
Proof.
  induction s as [|c s IH]; simpl.
  - rewrite Ascii.eqb_refl. reflexivity.
  - destruct (Ascii.eqb c a); simpl; [discriminate|]. intros H. rewrite IH by exact H.
    reflexivity.
Qed.

(** X4: [timerSource] panics at its start exactly for the types without a
    colon; with a colon it goes on to parse the duration. *)
Theorem timer_start_panics_iff W i s :
  timer_start W i s = Panic <-> Contains (Type_ s) ":" = false.
Proof.
  split.
  - intros Hp. destruct (Contains (Type_ s) ":") eqn:Hc; [|reflexivity].
    exfalso. destruct (split_from_second _ _ Hc) as [part Hpart].
    unfold timer_start, Split in Hp. rewrite Hpart in Hp.
    destruct (time_ParseDuration W part); [|discriminate].
    destruct (timer_run W i 0) as [o [e|]]; discriminate.
  - intros Hno. unfold timer_start. rewrite Split_no_colon by exact Hno. reflexivity.
Qed.

Lemma duration_part (a b r : string) :
  Contains a ":" = false -> Contains b ":" = false ->
  nth_error (Split (a +:+ ":" +:+ b) ":") 1 = Some b /\
  nth_error (Split (a +:+ ":" +:+ b +:+ ":" +:+ r) ":") 1 = Some b.
Proof.
  intros Ha Hb. unfold Split. split.
  - change (a +:+ ":" +:+ b) with (a +:+ String ":" b).
    rewrite split_from_first by exact Ha. rewrite split_from_no_sep by exact Hb. reflexivity.
  - change (a +:+ ":" +:+ b +:+ ":" +:+ r) with (a +:+ String ":" (b +:+ String ":" r)).
    rewrite split_from_first by exact Ha. rewrite split_from_first by exact Hb. reflexivity.
Qed.

(** X5: the duration [timerSource] parses is the text between the first and
    the second colon of the type; what follows a second colon is ignored:
    for a source of type a:b or a:b:r the goroutine starts by parsing b,
    reports b when it does not parse, and otherwise runs the command. *)
Theorem timer_duration_part (a b r : string) :
  Contains a ":" = false -> Contains b ":" = false ->
  nth_error (Split (a +:+ ":" +:+ b) ":") 1 = Some b /\
  nth_error (Split (a +:+ ":" +:+ b +:+ ":" +:+ r) ":") 1 = Some b /\
  forall W i s,
    Type_ s = a +:+ ":" +:+ b \/ Type_ s = a +:+ ":" +:+ b +:+ ":" +:+ r ->
    timer_start W i s =
      match time_ParseDuration W b with
      | inr cause => Next (Timer (TSendErr (ErrParseDuration b cause)))
      | inl d =>
          match timer_run W i 0 with
          | (o, Some cause) => Next (Timer (TSendErr (ErrRunCommand (Script s) cause o)))
          | (o, None) => Next (Timer (TSendFirst d (mkOutput s o)))
          end
      end.
Proof.
  intros Ha Hb. destruct (duration_part a b r Ha Hb) as [H1 H2].
  split; [exact H1|]. split; [exact H2|].
  intros W i s [Ht|Ht]; unfold timer_start; rewrite Ht; cbv zeta.
  - rewrite H1. reflexivity.
  - rewrite H2. reflexivity.
Qed.

Lemma timer_duration_part_witness :
  nth_error (Split "timer:5s" ":") 1 = Some "5s" /\
  nth_error (Split "timer:5s:now" ":") 1 = Some "5s" /\
  timer_start strict_world 0 {| Name := "clock"; Type_ := "timer:5s:now"; Script := "date" |} =
    Next (Timer (TSendErr (ErrParseDuration "5s" "time: invalid duration"))).
Proof.
  destruct (timer_duration_part "timer" "5s" "now" eq_refl eq_refl) as (H1 & H2 & H3).
  split; [exact H1|]. split; [exact H2|].
  exact (H3 strict_world 0 {| Name := "clock"; Type_ := "timer:5s:now"; Script := "date" |}
            (or_intror eq_refl)).
Defined.

(** * Further properties: the supervisor and its goroutines *)

Lemma undisturbed_local W a j g d :
  local_move W false a j g (Next d) -> undisturbed g -> undisturbed (with_driver g d).
Proof.
  intros Hl Hu. destruct g as [gi gs gd]. unfold undisturbed in *. cbn in *.
  destruct a; cbn in Hl; try tauto.
  - destruct Hl as [_ Hl]. unfold go_step, timer_start, timer_tick, listener_start in Hl.
    cbn in Hl. repeat case_match; simplify_eq; cbn; auto; try (split; discriminate).
  - destruct Hl as (_ & Hf & _). discriminate Hf.
  - destruct Hl as [_ Hl]. unfold go_recv, recv_err, recv_line in Hl. cbn in Hl.
    repeat case_match; simplify_eq; cbn in *; auto;
      try discriminate; try tauto; try (split; [discriminate|tauto]).
  - destruct Hl as [_ Hl]. unfold on_reader, read in Hl. cbn in Hl.
    repeat case_match; simplify_eq; cbn in *; auto;
      try (destruct Hu; split; first [discriminate|assumption]).
  - destruct Hl as (_ & Hf & _). discriminate Hf.
Qed.

Lemma undisturbed_deliver g o d :
  offers_out (g_drv g) = Some (o, d) -> undisturbed g -> undisturbed (with_driver g d).
Proof.
  unfold undisturbed, offers_out. cbn. intros Ho Hu.
  repeat case_match; simplify_eq; cbn; auto.
Qed.

Lemma undisturbed_error g e d :
  offers_err (g_drv g) = Some (e, d) -> undisturbed g -> e <> None.
Proof.
  unfold undisturbed, offers_err. intros Ho Hu.
  repeat case_match; simplify_eq; cbn; auto.
Qed.

Lemma never_nil_moves W c st a st' :
  sup_inv c st -> never_nil st -> moves W c st a st' -> never_nil st'.
Proof.
  intros Hsup Hinv Hm. pose proof (inv_cancel _ _ Hsup) as Hcan.
  moves_cases Hm i Hpc; intros Hmd; cbn in Hmd; try discriminate Hmd;
    try (destruct (Hinv Hmd) as [Hnil Hund]).
  - split; [cbn; destruct rest; discriminate|]. cbn. intros Hc.
    apply Forall_app. split; [auto|]. constructor; [|constructor].
    unfold new_goroutine in Hnew. unfold undisturbed.
    repeat case_match; simplify_eq; exact I.
  - split; [discriminate|discriminate].
  - unfold handle in *. destruct (render _ _ _ _); cbn in *.
    + destruct (Hinv Hmd) as [Hnil Hund]. split; [destruct rest; discriminate|exact Hund].
    + split; discriminate.
  - split; discriminate.
  - exfalso. unfold ctxDone in Hdone. rewrite Hmd, Hcan, Hpc in Hdone. discriminate.
  - split; [|discriminate]. cbn. intros He. inversion He; subst e.
    assert (Hc : cancelled st = false) by (rewrite Hcan, Hpc; reflexivity).
    assert (Hu : undisturbed g) by (eapply Forall_lookup_1; [apply Hund, Hc|exact Hg]).
    exact (undisturbed_error g None d Ho Hu eq_refl).
  - assert (Hc : cancelled st = false) by (rewrite Hcan, Hpc; reflexivity).
    unfold handle in *. destruct (render _ _ _ _); cbn in *.
    + destruct (Hinv Hmd) as [Hnil Hund]. split; [discriminate|]. intros _.
      assert (Hu : undisturbed g) by (eapply Forall_lookup_1; [apply Hund, Hc|exact Hg]).
      apply Forall_insert; [apply Hund, Hc|]. exact (undisturbed_deliver g o d Ho Hu).
    + split; discriminate.
  - split; [exact Hnil|]. cbn. intros Hc.
    assert (Hnd : ctxDone st = false) by (unfold ctxDone; rewrite Hmd, Hc; reflexivity).
    rewrite Hnd in Hl.
    assert (Hu : undisturbed g) by (eapply Forall_lookup_1; [apply Hund, Hc|exact Hg]).
    apply Forall_insert; [apply Hund, Hc|]. exact (undisturbed_local W a j g d Hl Hu).
  - split; [exact Hnil|exact Hund].
Qed.

Lemma never_nil_reachable W c acts st :
  exec W c acts (init c) = Some st -> never_nil st.
Proof.
  intros Hex.
  apply (exec_invariant W c (fun s => sup_inv c s /\ never_nil s)) in Hex.
  - apply Hex.
  - intros st0 a st1 [Hs Hn] Hstep. apply step_moves in Hstep as [_ Hm].
    split; [eapply sup_inv_moves|eapply never_nil_moves]; eauto.
  - split; [apply sup_inv_init|]. intros _. cbn. split; [|constructor].
    destruct (Sources c); discriminate.
Qed.

(** X6: whatever the sources are, [Spew] returns nil only after the caller
    has cancelled [mainCtx]: the nil of spew.go:86 needs the context done,
    and no driver sends a nil error before that. *)
Theorem nil_only_after_cancel W c st0 acts st :
  Spew_start W c = inr st0 -> exec W c acts st0 = Some st ->
  pc st = Returned None -> mainDone st = true.
Proof.
  intros Hstart Hex Hpc. apply Spew_start_inr in Hstart. subst st0.
  pose proof (never_nil_reachable _ _ _ _ Hex) as Hn.
  destruct (mainDone st) eqn:Hmd; [reflexivity|].
  destruct (Hn Hmd) as [Hnil _]. contradiction.
Qed.

Lemma nil_only_after_cancel_witness :
  exists st, exec eof_world listen_config [SpewStep; MainCancel; SpewDone]
               (init listen_config) = Some st /\
             pc st = Returned None /\ mainDone st = true.
Proof.
  eexists. split; [vm_compute; reflexivity|]. split; [reflexivity|].
  apply (nil_only_after_cancel eof_world listen_config _ [SpewStep; MainCancel; SpewDone] _
           eq_refl eq_refl eq_refl).
Defined.

Lemma listener_never_panics W done a j g p ro re :
  g_drv g = Listener p ro re -> local_move W done a j g Panic -> False.
Proof.
  intros Hd Hl. destruct a; cbn in Hl; try tauto.
  - destruct Hl as [_ Hl]. unfold go_step, listener_start in Hl. rewrite Hd in Hl.
    repeat case_match; discriminate.
  - destruct Hl as (_ & _ & Hl). unfold go_done in Hl. rewrite Hd in Hl.
    repeat case_match; discriminate.
  - destruct Hl as [_ Hl]. unfold go_recv in Hl. rewrite Hd in Hl.
    repeat case_match; discriminate.
  - destruct Hl as [_ Hl]. unfold on_reader in Hl. rewrite Hd in Hl.
    repeat case_match; discriminate.
  - destruct Hl as (_ & _ & Hl). unfold on_reader in Hl. rewrite Hd in Hl.
    repeat case_match; discriminate.
Qed.

(** X7: only a timer can panic (spew.go:114 and the ticker): with no timer
    source in the config the process never crashes, in any run. *)
Theorem no_timer_no_crash W c st0 acts st :
  Spew_start W c = inr st0 -> no_timer c -> exec W c acts st0 = Some st ->
  crashed st = false.
Proof.
  intros Hstart Hno Hex. apply Spew_start_inr in Hstart. subst st0.
  apply (exec_invariant W c (fun s => sup_inv c s /\ crashed s = false)) in Hex.
  - apply Hex.
  - intros s a s' [Hsup Hcr] Hstep. apply step_moves in Hstep as [_ Hm].
    split; [eapply sup_inv_moves; eauto|].
    destruct Hm; cbn; try exact Hcr.
    + unfold handle. destruct (render _ _ _ _); exact Hcr.
    + unfold handle. destruct (render _ _ _ _); exact Hcr.
    + exfalso.
      pose proof (sup_inv_source _ _ _ _ Hsup H) as Hs.
      eapply Forall_lookup_1 in Hs; [|exact Hno]. cbn in Hs.
      pose proof (Forall_lookup_1 _ _ _ _ (inv_kind _ _ Hsup) H) as Hk.
      unfold kind_ok in Hk. destruct (g_drv g) as [p|p ro re] eqn:Hd; [contradiction|].
      eapply listener_never_panics; eauto.
  - split; [apply sup_inv_init|reflexivity].
Qed.

Lemma no_timer_no_crash_witness :
  exists st, exec abc_world listen_config abc_run (init listen_config) = Some st /\
             crashed st = false.
Proof.
  eexists. split; [vm_compute; reflexivity|].
  apply (no_timer_no_crash abc_world listen_config _ abc_run _ eq_refl); [|reflexivity].
  repeat constructor. discriminate.
Defined.

Lemma moves_grows W c st a st' :
  moves W c st a st' ->
  written st `prefix_of` written st' /\
  dom (templateCtx st) ⊆ dom (templateCtx st') /\
  (mainDone st = true -> mainDone st' = true) /\
  (cancelled st = true -> cancelled st' = true) /\
  List.length (goroutines st) <= List.length (goroutines st').
Proof.
  intros Hm.
  assert (Hh : forall from o next gs,
             List.length (goroutines st) <= List.length gs ->
             let s' := handle W (Template c) st from o next gs in
             written st `prefix_of` written s' /\
             dom (templateCtx st) ⊆ dom (templateCtx s') /\
             (mainDone st = true -> mainDone s' = true) /\
             (cancelled st = true -> cancelled s' = true) /\
             List.length (goroutines st) <= List.length (goroutines s')).
  { intros from o next gs Hlen. unfold handle. destruct (render _ _ _ _); cbn.
    - split; [apply prefix_app_r; reflexivity|]. split; [|auto].
      unfold store. rewrite dom_insert. set_solver.
    - split; [reflexivity|]. split; [|auto].
      unfold store. rewrite dom_insert. set_solver. }
  destruct Hm; cbn; try apply Hh; try rewrite length_insert; try rewrite length_app;
    cbn; try lia; repeat split; auto; try reflexivity; try lia.
Qed.

(** X8: nothing is ever taken back: along any run the renders already
    written stay, in place, as a prefix of what is written later; the table
    keeps its keys; and a context that is done stays done. *)
Theorem run_only_grows W c acts st st' :
  exec W c acts st = Some st' ->
  written st `prefix_of` written st' /\
  dom (templateCtx st) ⊆ dom (templateCtx st') /\
  (ctxDone st = true -> ctxDone st' = true).
Proof.
  revert st. induction acts as [|a acts IH]; intros st Hex; cbn in Hex.
  - inversion Hex; subst st'. split; [reflexivity|]. split; [reflexivity|]. auto.
  - destruct (step W c st a) as [s1|] eqn:Hs; [|discriminate].
    apply step_moves in Hs as [_ Hm]. apply moves_grows in Hm as (Hw & Hd & Hmd & Hc & _).
    destruct (IH _ Hex) as (Hw' & Hd' & Hdone'). split; [etrans; eassumption|].
    split; [etrans; eassumption|].
    intros Hdone. apply Hdone'. unfold ctxDone in *.
    apply orb_true_iff in Hdone as [H|H]; [rewrite (Hmd H)|rewrite (Hc H), orb_true_r];
      reflexivity.
Qed.

Lemma run_only_grows_witness :
  exists st st',
    exec abc_world listen_config ([SpewStep; GoStep 0] ++ forward) (init listen_config) = Some st /\
    exec abc_world listen_config (forward ++ forward) st = Some st' /\
    written st `prefix_of` written st' /\ List.length (written st') = 3.
Proof.
  eexists. eexists. split; [vm_compute; reflexivity|].
  split; [vm_compute; reflexivity|].
  split; [|reflexivity].
  eapply (run_only_grows abc_world listen_config (forward ++ forward)).
  vm_compute. reflexivity.
Defined.

Lemma replay_snoc (ws : list rendering) (r : rendering) :
  replay (ws ++ [r]) = store (r_out r) (replay ws).
Proof. unfold replay. rewrite foldl_snoc. reflexivity. Qed.

Lemma render_inl W tmpl ctx n text :
  render W tmpl ctx n = inl text ->
  template_Execute W tmpl ctx = inl text /\ bufw_Flush W n = None.
Proof.
  unfold render. destruct (template_Execute W tmpl ctx); [|discriminate].
  destruct (bufw_Flush W n); [discriminate|]. intros H. inversion H. auto.
Qed.

Lemma render_inr W tmpl ctx n e :
  render W tmpl ctx n = inr e -> exists cause, e = ErrRender cause \/ e = ErrWrite cause.
Proof.
  unfold render. destruct (template_Execute W tmpl ctx).
  - destruct (bufw_Flush W n); [|discriminate]. intros H. inversion H. eauto.
  - intros H. inversion H. eauto.
Qed.

Lemma table_inv_handle W c st from o next gs :
  table_inv W c st -> ~ render_failed (pc st) ->
  table_inv W c (handle W (Template c) st from o next gs).
Proof.
  intros [Hf Ht] Hnf. destruct Ht as [Ht|Ht]; [|contradiction].
  unfold handle. destruct (render _ _ _ _) as [text|e] eqn:Hr.
  - apply render_inl in Hr as [Hx Hfl]. split; cbn.
    + intros k r Hk. destruct (decide (k < List.length (written st))) as [Hlt|Hge].
      * rewrite lookup_app_l in Hk by exact Hlt. rewrite take_app_le by lia. apply Hf, Hk.
      * rewrite lookup_app_r in Hk by lia.
        apply list_lookup_singleton_Some in Hk as [Hk0 <-]. cbn.
        assert (k = List.length (written st)) as -> by lia.
        rewrite take_ge by (rewrite length_app; cbn; lia).
        rewrite replay_snoc, <- Ht. cbn. auto.
    + left. rewrite replay_snoc, <- Ht. reflexivity.
  - split; [exact Hf|]. right. cbn. apply render_inr in Hr as [cause [->| ->]];
      exists cause; auto.
Qed.

Lemma table_inv_moves W c st a st' :
  table_inv W c st -> moves W c st a st' -> table_inv W c st'.
Proof.
  intros Hinv Hm.
  assert (Hrun : forall i s rest, pc st = InSetup i s rest -> ~ render_failed (pc st)).
  { intros i s rest Hpc [cz [H|H]]; congruence. }
  assert (Hloop : pc st = InLoop -> ~ render_failed (pc st)).
  { intros Hpc [cz [H|H]]; congruence. }
  assert (Hkeep : forall p, ~ render_failed (pc st) -> ~ render_failed p ->
                    faithful W c (written st) /\
                    (templateCtx st = replay (written st) \/ render_failed p)).
  { intros p Hnf _. destruct Hinv as [Hf [Ht|Ht]]; [auto|contradiction]. }
  moves_cases Hm i Hpc; try (apply table_inv_handle; eauto); try exact Hinv.
  - apply Hkeep; [eauto|]. intros [cz [H|H]]; cbn in H; destruct rest; discriminate.
  - apply Hkeep; [eauto|]. intros [cz [H|H]]; discriminate.
  - apply Hkeep; [eauto|]. intros [cz [H|H]]; discriminate.
  - apply Hkeep; [eauto|]. intros [cz [H|H]]; discriminate.
  - destruct Hinv as [Hf [Ht|Ht]]; [|exfalso; eapply Hloop; eauto].
    split; [exact Hf|]. left. exact Ht.
Qed.

(** X9: every render written is the template executed on the table that
    the records rendered up to and including it build, stored in order into
    an empty table; and the supervisor's table is the one of its last render,
    unless [Spew] has just returned the error of a failed render. *)
Theorem table_is_replay W c st0 acts st :
  Spew_start W c = inr st0 -> exec W c acts st0 = Some st ->
  (forall k r, written st !! k = Some r ->
     r_ctx r = replay (take (S k) (written st)) /\
     template_Execute W (Template c) (r_ctx r) = inl (r_text r)) /\
  (templateCtx st = replay (written st) \/ render_failed (pc st)).
Proof.
  intros Hstart Hex. apply Spew_start_inr in Hstart. subst st0.
  apply (exec_invariant W c (table_inv W c)) in Hex.
  - destruct Hex as [Hf Ht]. split; [|exact Ht].
    intros k r Hk. destruct (Hf k r Hk) as (H1 & H2 & _). auto.
  - intros s a s' Hinv Hstep. apply step_moves in Hstep as [_ Hm].
    eapply table_inv_moves; eauto.
  - split; [intros k r Hk; discriminate Hk|left; reflexivity].
Qed.

Lemma table_is_replay_witness :
  exists st, exec abc_world listen_config abc_run (init listen_config) = Some st /\
             templateCtx st = replay (written st).
Proof.
  eexists. split; [vm_compute; reflexivity|].
  destruct (table_is_replay abc_world listen_config _ abc_run _ eq_refl eq_refl)
    as [_ [Ht|[cause [Hc|Hc]]]]; [exact Ht|discriminate Hc|discriminate Hc].
Defined.

Lemma sanitize_again (s : string) : sanitize (sanitize s) = sanitize s.
Proof.
  rewrite (sanitize_strip (sanitize s)), (strip_fixed LF).
  - apply strip_fixed. rewrite sanitize_strip. apply strip_absent.
  - rewrite sanitize_strip. apply strip_keeps_absent, strip_absent.
Qed.

Lemma named_local W done a j g d :
  local_move W done a j g (Next d) -> named g -> named (with_driver g d).
Proof.
  intros Hl Hn o d' Ho. destruct g as [gi gs gd]. unfold named in Hn. cbn in *.
  destruct a; cbn in Hl; try tauto.
  - destruct Hl as [_ Hl]. unfold go_step, timer_start, timer_tick, listener_start in Hl.
    cbn in Hl. repeat case_match; simplify_eq; cbn in Ho; simplify_eq; reflexivity.
  - destruct Hl as (_ & _ & Hl). unfold go_done in Hl. cbn in Hl.
    repeat case_match; simplify_eq; cbn in Ho; simplify_eq.
  - destruct Hl as [_ Hl]. unfold go_recv, recv_err, recv_line in Hl. cbn in Hl.
    repeat case_match; simplify_eq; cbn in Ho; simplify_eq; reflexivity.
  - destruct Hl as [_ Hl]. unfold on_reader in Hl. cbn in Hl.
    repeat case_match; simplify_eq; cbn in Ho; repeat case_match; simplify_eq;
      eapply Hn; reflexivity.
  - destruct Hl as (_ & _ & Hl). unfold on_reader in Hl. cbn in Hl.
    repeat case_match; simplify_eq; cbn in Ho; repeat case_match; simplify_eq;
      eapply Hn; reflexivity.
Qed.

Lemma named_after_send g o d : offers_out (g_drv g) = Some (o, d) -> named (with_driver g d).
Proof.
  intros Ho o' d' Ho'. unfold offers_out in Ho. cbn in Ho'.
  repeat case_match; simplify_eq; discriminate Ho'.
Qed.

Lemma named_after_error g e d : offers_err (g_drv g) = Some (e, d) -> named (with_driver g d).
Proof.
  intros Ho o' d' Ho'. unfold offers_err in Ho. cbn in Ho'.
  repeat case_match; simplify_eq; discriminate Ho'.
Qed.

Lemma clean_table_store c ctx o s :
  s ∈ Sources c -> oName o = Name s -> clean_table c ctx -> clean_table c (store o ctx).
Proof.
  intros Hs Hn Hc k v. unfold store. rewrite lookup_insert. case_decide as Hk.
  - intros Hv. inversion Hv. split; [|apply sanitize_again].
    exists s. split; [exact Hs|]. rewrite <- Hk, Hn. reflexivity.
  - apply Hc.
Qed.

Lemma names_inv_handle W c st from o next gs s :
  Sources c !! from = Some s -> oName o = Name s ->
  Forall named gs -> names_inv c st ->
  names_inv c (handle W (Template c) st from o next gs).
Proof.
  intros Hs Hn Hgs (_ & Hw & Ht).
  assert (Hin : s ∈ Sources c) by (eapply list_elem_of_lookup_2, Hs).
  unfold handle. destruct (render _ _ _ _); (split; [exact Hgs|]); cbn.
  - split; [|eapply clean_table_store; eauto].
    apply Forall_app. split; [exact Hw|]. constructor; [|constructor]. exists s. cbn. auto.
  - split; [exact Hw|eapply clean_table_store; eauto].
Qed.

Lemma names_inv_moves W c st a st' :
  sup_inv c st -> names_inv c st -> moves W c st a st' -> names_inv c st'.
Proof.
  intros Hsup Hinv Hm. pose proof Hinv as (Hg0 & Hw0 & Ht0).
  moves_cases Hm i Hpc; try exact Hinv.
  - split; [|auto]. cbn. apply Forall_app. split; [exact Hg0|].
    constructor; [|constructor]. intros o d Ho.
    destruct (new_goroutine_spec _ _ _ Hnew) as (_ & _ & _ & [Hd|Hd]);
      rewrite Hd in Ho; discriminate Ho.
  - eapply names_inv_handle; eauto. eapply sup_inv_head; eauto.
  - split; [|auto]. cbn. apply Forall_insert; [exact Hg0|]. eapply named_after_error, Ho.
  - eapply names_inv_handle; eauto.
    + eapply sup_inv_source; eauto.
    + eapply (Forall_lookup_1 _ _ _ _ Hg0 Hg); eauto.
    + apply Forall_insert; [exact Hg0|]. eapply named_after_send, Ho.
  - split; [|auto]. cbn. apply Forall_insert; [exact Hg0|].
    eapply named_local; eauto. eapply Forall_lookup_1; eauto.
Qed.

(** X10: every key of the table is the capitalized name of a source of the
    config and every value is sanitized (holds no LF and no CR); and every
    render was caused by a record that carries the name of the source at its
    position. *)
Theorem table_keys_and_values W c st0 acts st :
  Spew_start W c = inr st0 -> exec W c acts st0 = Some st ->
  (forall k v, templateCtx st !! k = Some v ->
     (exists s, s ∈ Sources c /\ k = Title (Name s)) /\
     ~ In LF (list_ascii_of_string v) /\ ~ In CR (list_ascii_of_string v)) /\
  Forall (attributed c) (written st).
Proof.
  intros Hstart Hex. apply Spew_start_inr in Hstart. subst st0.
  apply (exec_invariant W c (fun s => sup_inv c s /\ names_inv c s)) in Hex.
  - destruct Hex as [_ (_ & Hw & Ht)]. split; [|exact Hw].
    intros k v Hk. destruct (Ht k v Hk) as [Hs Hv]. split; [exact Hs|].
    rewrite <- Hv, sanitize_strip. split.
    + apply strip_keeps_absent, strip_absent.
    + apply strip_absent.
  - intros s a s' [Hs Hn] Hstep. apply step_moves in Hstep as [_ Hm].
    split; [eapply sup_inv_moves|eapply names_inv_moves]; eauto.
  - split; [apply sup_inv_init|]. split; [constructor|]. split; [constructor|].
    intros k v Hk. cbn in Hk. rewrite lookup_empty in Hk. discriminate.
Qed.

Lemma table_keys_and_values_witness :
  exists st, exec once_world once_config [SpewStep; SpewStep] (init once_config) = Some st /\
             Forall (attributed once_config) (written st) /\
             List.length (written st) = 2.
Proof.
  eexists. split; [vm_compute; reflexivity|].
  split; [|reflexivity].
  apply (table_keys_and_values once_world once_config _ [SpewStep; SpewStep] _ eq_refl eq_refl).
Defined.

(** X11: a source never has two goroutines: the goroutines are those of the
    timer and listener sources dispatched so far, one each, in config order,
    each running the driver its type selects; in the loop these are all the
    timer and listener sources of the config. *)
Theorem one_goroutine_per_source W c st0 acts st :
  Spew_start W c = inr st0 -> exec W c acts st0 = Some st ->
  NoDup (g_idx <$> goroutines st) /\
  Forall (fun g => Sources c !! g_idx g = Some (g_src g) /\ kind_ok g) (goroutines st) /\
  (pc st = InLoop -> tag <$> goroutines st = spawned 0 (Sources c)).
Proof.
  intros Hstart Hex. apply Spew_start_inr in Hstart. subst st0.
  pose proof (sup_inv_reachable _ _ _ _ Hex) as Hsup.
  pose proof Hsup as [_ (k & Hk & Htag & _ & Hpos) Hkind]. split; [|split].
  - pose proof (spawned_NoDup 0 (take k (Sources c))) as Hnd. rewrite <- Htag in Hnd.
    rewrite <- list_fmap_compose in Hnd. exact Hnd.
  - apply Forall_lookup. intros j g Hg. split.
    + eapply sup_inv_source; eauto.
    + eapply Forall_lookup_1; eauto.
  - intros Hpc. rewrite Hpc in Hpos. cbn in Hpos. subst k. rewrite Htag, firstn_all.
    reflexivity.
Qed.

Lemma one_goroutine_per_source_witness :
  exists st, exec abc_world listen_config abc_run (init listen_config) = Some st /\
             tag <$> goroutines st = [(0, listen_source)].
Proof.
  eexists. split; [vm_compute; reflexivity|].
  apply (one_goroutine_per_source abc_world listen_config _ abc_run _ eq_refl eq_refl).
  reflexivity.
Defined.

Lemma onces_app (i : nat) (l1 l2 : list Source) :
  onces i (l1 ++ l2) = onces i l1 ++ onces (i + List.length l1) l2.
Proof.
  revert i. induction l1 as [|s l1 IH]; intros i; cbn.
  - rewrite Nat.add_0_r. reflexivity.
  - rewrite IH. replace (S i + List.length l1) with (i + S (List.length l1)) by lia.
    destruct (dispatch (Type_ s)); reflexivity.
Qed.

Lemma cleared_next W c i s :
  Sources c !! i = Some s -> cleared W c i ->
  dispatch (Type_ s) <> KUnsupported ->
  (dispatch (Type_ s) = KOnce -> (once_run W i).2 = None) ->
  cleared W c (S i).
Proof.
  intros Hs Hc H1 H2 n s' Hn Hs'. destruct (decide (n = i)) as [->|Hne].
  - rewrite Hs in Hs'. inversion Hs'; subst s'. auto.
  - apply Hc; [lia|exact Hs'].
Qed.

Lemma setup_inv_enter W c i s rest ws :
  drop i (Sources c) = s :: rest ->
  cleared W c (S i) ->
  r_from <$> ws = onces 0 (take (S i) (Sources c)) ->
  match enter (S i) rest with
  | InSetup i' _ _ => cleared W c i' /\ r_from <$> ws = onces 0 (take i' (Sources c))
  | InLoop | Returned None =>
      cleared W c (List.length (Sources c)) /\
      onces 0 (Sources c) `prefix_of` (r_from <$> ws)
  | Returned (Some _) => True
  end.
Proof.
  intros Hdrop Hc Hw. destruct (at_pos_enter _ _ _ _ Hdrop) as (_ & Hat & _ & _).
  destruct rest as [|s' rest']; cbn in Hat |- *.
  - rewrite <- Hat. split; [exact Hc|]. rewrite Hw, Hat, firstn_all. reflexivity.
  - auto.
Qed.

Lemma setup_inv_moves W c st a st' :
  sup_inv c st -> setup_inv W c st -> moves W c st a st' -> setup_inv W c st'.
Proof.
  intros Hsup Hinv Hm. unfold setup_inv in *.
  moves_cases Hm i Hpc; cbn [pc set_mainDone set_goroutines set_crashed return_with spawn];
    try exact Hinv; try exact I; try rewrite Hpc in Hinv.
  - destruct Hinv as [Hc Hw].
    pose proof (sup_inv_head _ _ _ _ _ Hsup Hpc) as Hs.
    destruct Hsup as [_ (k & _ & _ & _ & Hpos) _]. rewrite Hpc in Hpos.
    destruct Hpos as [_ Hdrop].
    destruct (at_pos_enter _ _ _ _ Hdrop) as (_ & _ & Htake & Hlen).
    destruct (new_goroutine_spec _ _ _ Hnew) as (_ & Hk & _ & _).
    unfold new_goroutine in Hnew.
    apply (setup_inv_enter W c i s rest (written st) Hdrop).
    + apply (cleared_next W c i s Hs Hc); intros Hd; rewrite Hd in Hnew; discriminate.
    + rewrite Hw, Htake, onces_app, Hlen. cbn.
      destruct (dispatch (Type_ s)); try discriminate Hnew; rewrite app_nil_r; reflexivity.
  - destruct Hinv as [Hc Hw].
    pose proof (sup_inv_head _ _ _ _ _ Hsup Hpc) as Hs.
    destruct Hsup as [_ (k & _ & _ & _ & Hpos) _]. rewrite Hpc in Hpos.
    destruct Hpos as [_ Hdrop].
    destruct (at_pos_enter _ _ _ _ Hdrop) as (_ & _ & Htake & Hlen).
    unfold handle. destruct (render _ _ _ _); cbn [pc written]; [|exact I].
    apply (setup_inv_enter W c i s rest _ Hdrop).
    + apply (cleared_next W c i s Hs Hc); [congruence|]. intros _. rewrite Ho. reflexivity.
    + rewrite fmap_app, Hw, Htake, onces_app, Hlen. cbn. rewrite Hd. reflexivity.
  - exact Hinv.
  - destruct e; [exact I|exact Hinv].
  - unfold handle. destruct (render _ _ _ _); cbn [pc written]; [|exact I].
    destruct Hinv as [Hc Hw]. split; [exact Hc|].
    rewrite fmap_app. apply prefix_app_r. exact Hw.
Qed.

(** X12: during the setup the renders are exactly those of the once sources
    dispatched so far, one each and in config order, whatever timers and
    listeners have been started; and the supervisor is in its loop only if
    every type of the config is supported and every once command succeeded. *)
Theorem setup_renders_once_sources W c st0 acts st :
  Spew_start W c = inr st0 -> exec W c acts st0 = Some st ->
  (forall i s rest, pc st = InSetup i s rest ->
     r_from <$> written st = onces 0 (take i (Sources c))) /\
  (pc st = InLoop \/ pc st = Returned None ->
     (forall n s, Sources c !! n = Some s ->
        dispatch (Type_ s) <> KUnsupported /\
        (dispatch (Type_ s) = KOnce -> (once_run W n).2 = None)) /\
     onces 0 (Sources c) `prefix_of` (r_from <$> written st)).
Proof.
  intros Hstart Hex. apply Spew_start_inr in Hstart. subst st0.
  apply (exec_invariant W c (fun s => sup_inv c s /\ setup_inv W c s)) in Hex.
  - destruct Hex as [_ Hinv]. unfold setup_inv in Hinv. split.
    + intros i s rest Hpc. rewrite Hpc in Hinv. apply Hinv.
    + intros Hpc.
      assert (H : cleared W c (List.length (Sources c)) /\
                  onces 0 (Sources c) `prefix_of` (r_from <$> written st)).
      { destruct Hpc as [Hpc|Hpc]; rewrite Hpc in Hinv; exact Hinv. }
      destruct H as [Hc Hw]. split; [|exact Hw].
      intros n s Hs. apply Hc; [eapply lookup_lt_Some, Hs|exact Hs].
  - intros s a s' [Hs Hn] Hstep. apply step_moves in Hstep as [_ Hm].
    split; [eapply sup_inv_moves|eapply setup_inv_moves]; eauto.
  - split; [apply sup_inv_init|]. unfold setup_inv. cbn.
    destruct (Sources c) as [|s rest] eqn:Hs; cbn.
    + split; [intros n s Hn; cbn in Hn; lia|reflexivity].
    + split; [intros n s' Hn; lia|reflexivity].
Qed.

Lemma setup_renders_once_sources_witness :
  exists st, exec once_world once_config [SpewStep] (init once_config) = Some st /\
             r_from <$> written st = [0].
Proof.
  eexists. split; [vm_compute; reflexivity|].
  exact (proj1 (setup_renders_once_sources once_world once_config _ [SpewStep] _
                  eq_refl eq_refl) 1 _ _ eq_refl).
Defined.

(** ** The records of one goroutine *)

Lemma tracks_update P i (gs : list goroutine) j g d vals vals' :
  (forall j1 j2 g1 g2, gs !! j1 = Some g1 -> gs !! j2 = Some g2 ->
                       g_idx g1 = g_idx g2 -> j1 = j2) ->
  gs !! j = Some g ->
  (g_idx g = i -> P vals (g_drv g) -> P vals' d) ->
  (g_idx g <> i -> vals' = vals) ->
  tracks P i gs vals ->
  tracks P i (<[j := with_driver g d]> gs) vals'.
Proof.
  intros Huniq Hg Hsame Hother [Hpipe Hnone]. split.
  - intros j' g' Hg' Hi. apply list_lookup_insert_Some in Hg' as [(<- & <- & _)|[Hne Hg']].
    + cbn in Hi |- *. apply Hsame; [exact Hi|]. eapply Hpipe; eauto.
    + destruct (decide (g_idx g = i)) as [Hgi|Hgi].
      * exfalso. apply Hne. eapply Huniq; eauto. congruence.
      * rewrite (Hother Hgi). eapply Hpipe; eauto.
  - intros Hno. destruct (decide (g_idx g = i)) as [Hgi|Hgi].
    + exfalso. apply (Hno j (with_driver g d)); [|exact Hgi].
      apply list_lookup_insert_eq. eapply lookup_lt_Some, Hg.
    + rewrite (Hother Hgi). apply Hnone. intros j' g' Hg'.
      destruct (decide (j' = j)) as [->|Hne]; [congruence|].
      apply (Hno j' g'). rewrite list_lookup_insert_ne; auto.
Qed.

Section Tracking.

Variables (W : World) (c : Config) (i : nat) (src : Source).
Variables (P : list string -> driver -> Prop) (Q : list string -> Prop).
Variable live : bool.
Hypothesis Hsrc : Sources c !! i = Some src.
Hypothesis Hkind : dispatch (Type_ src) <> KOnce.
Hypothesis Q_nil : Q [].
Hypothesis P_Q : forall vals d, P vals d -> Q vals.
Hypothesis P_new : forall g, new_goroutine i src = Some g -> P [] (g_drv g).
Hypothesis P_local : forall done a j g d vals,
  (live = true -> done = false) ->
  g_idx g = i -> g_src g = src -> local_move W done a j g (Next d) ->
  P vals (g_drv g) -> P vals d.
Hypothesis P_send : forall g o d vals,
  g_src g = src -> offers_out (g_drv g) = Some (o, d) ->
  P vals (g_drv g) -> P (vals ++ [oValue o]) d.

Lemma tracking_init : tracking P Q i (init c).
Proof using Q_nil.
  split; [exact Q_nil|]. intros _. split; [intros j g Hg; discriminate Hg|reflexivity].
Qed.

Lemma tracking_moves st a st' :
  (live = true -> mainDone st = false) ->
  sup_inv c st -> tracking P Q i st -> moves W c st a st' -> tracking P Q i st'.
Proof using Hsrc Hkind P_Q P_new P_local P_send.
  intros Hlive Hsup [HQ Hstrong] Hm.
  pose proof (inv_cancel _ _ Hsup) as Hcan.
  assert (Huniq : forall j1 j2 g1 g2,
             goroutines st !! j1 = Some g1 -> goroutines st !! j2 = Some g2 ->
             g_idx g1 = g_idx g2 -> j1 = j2).
  { intros. eapply sup_inv_unique; eauto. }
  moves_cases Hm i0 Hpc; try (split; [exact HQ|exact Hstrong]);
    try (split; [exact HQ|discriminate]).
  - split; [exact HQ|]. cbn [cancelled goroutines spawn]. intros Hc.
    destruct (Hstrong Hc) as [Hpipe Hnone].
    change (values_of i (spawn st (enter (S i0) rest) g)) with (values_of i st). split.
    + intros j g' Hg' Hi. apply lookup_app_Some in Hg' as [Hg'|[_ Hg']].
      * eapply Hpipe; eauto.
      * apply list_lookup_singleton_Some in Hg' as [_ <-].
        destruct (new_goroutine_spec _ _ _ Hnew) as (Ht & _ & _ & _).
        inversion Ht as [[Hgi Hgs]]. rewrite Hgi in Hi. subst i0.
        pose proof (sup_inv_head _ _ _ _ _ Hsup Hpc) as Hhead.
        assert (Hs : s = src) by congruence. rewrite Hs in Hnew.
        rewrite Hnone; [apply P_new, Hnew|].
        intros j' g' Hg'. pose proof (sup_inv_before _ _ _ _ _ _ _ Hsup Hpc Hg'). lia.
    + intros Hno. apply Hnone. intros j g' Hg'. apply (Hno j g').
      apply lookup_app_l_Some. exact Hg'.
  - assert (Hne : i0 <> i).
    { intros ->. pose proof (sup_inv_head _ _ _ _ _ Hsup Hpc) as Hhead.
      assert (Hs : s = src) by congruence. congruence. }
    unfold handle. destruct (render _ _ _ _); [|split; [exact HQ|discriminate]].
    unfold tracking, values_of, rendered_of. cbn [written cancelled goroutines].
    rewrite values_of_snoc. cbn [r_from]. rewrite decide_False by exact Hne.
    rewrite app_nil_r. split; [exact HQ|exact Hstrong].
  - assert (Hc : cancelled st = false) by (rewrite Hcan, Hpc; reflexivity).
    pose proof (Hstrong Hc) as Htr.
    unfold handle. destruct (render _ _ _ _); [|split; [exact HQ|discriminate]].
    unfold tracking, values_of, rendered_of. cbn [written cancelled goroutines].
    rewrite values_of_snoc. cbn [r_from r_out].
    assert (Hnew : tracks P i (<[j:=with_driver g d]> (goroutines st))
                     (values_of i st ++ (if decide (g_idx g = i) then [oValue o] else []))).
    { eapply tracks_update; [exact Huniq|exact Hg| |  |exact Htr].
      - intros Hi Hp. rewrite decide_True by exact Hi. eapply P_send; eauto.
        pose proof (sup_inv_source _ _ _ _ Hsup Hg) as Hs. rewrite Hi, Hsrc in Hs. congruence.
      - intros Hi. rewrite decide_False by exact Hi. apply app_nil_r. }
    split; [|intros _; exact Hnew].
    destruct (decide (g_idx g = i)) as [Hi|Hi].
    + destruct Hnew as [Hp _]. eapply P_Q, (Hp j (with_driver g d)); [|exact Hi].
      apply list_lookup_insert_eq. eapply lookup_lt_Some, Hg.
    + rewrite app_nil_r. exact HQ.
  - split; [exact HQ|]. cbn [cancelled goroutines set_goroutines]. intros Hc.
    eapply (tracks_update P i (goroutines st) j g d (values_of i st));
      [exact Huniq | exact Hg | | reflexivity | exact (Hstrong Hc)].
    intros Hi. eapply (P_local (ctxDone st) a j g d); [|exact Hi| |exact Hl].
    + intros Hl'. unfold ctxDone. rewrite (Hlive Hl'), Hc. reflexivity.
    + pose proof (sup_inv_source _ _ _ _ Hsup Hg) as Hs. rewrite Hi, Hsrc in Hs. congruence.
Qed.

Lemma moves_mainDone st a st' :
  moves W c st a st' -> mainDone st' = false -> mainDone st = false.
Proof using Type.
  intros Hm. destruct Hm; try (intros Hx; exact Hx); try discriminate;
    unfold handle; destruct (render _ _ _ _); intros Hx; exact Hx.
Qed.

Lemma tracking_reachable acts st :
  exec W c acts (init c) = Some st -> tracking_while live P Q i st.
Proof using Hsrc Hkind Q_nil P_Q P_new P_local P_send.
  intros Hex.
  apply (exec_invariant W c (fun s => sup_inv c s /\ tracking_while live P Q i s)) in Hex.
  - apply Hex.
  - intros st0 a st1 [Hs Hl] Hstep. apply step_moves in Hstep as [_ Hm].
    split; [eapply sup_inv_moves; eauto|].
    intros Hlive.
    assert (Hlive0 : live = true -> mainDone st0 = false).
    { intros Hl'. eapply moves_mainDone; eauto. }
    eapply tracking_moves; eauto.
  - split; [apply sup_inv_init|intros _; apply tracking_init].
Qed.

End Tracking.

(** ** A timer renders its runs in order *)

Lemma runs_of_S W i n :
  runs_of W i (S n) = runs_of W i n ++ [(timer_run W i n).1].
Proof. unfold runs_of. rewrite seq_S, fmap_app. reflexivity. Qed.

Lemma all_runs_nil W i : all_runs W i [].
Proof. split; [reflexivity|]. cbn. lia. Qed.

Lemma all_runs_snoc W i vals :
  all_runs W i vals -> (timer_run W i (List.length vals)).2 = None ->
  all_runs W i (vals ++ [(timer_run W i (List.length vals)).1]).
Proof.
  intros [Hv Hok] Hn. split.
  - rewrite length_app. cbn [List.length]. replace (List.length vals + 1) with (S (List.length vals)) by lia.
    rewrite runs_of_S. rewrite <- Hv. reflexivity.
  - intros k. rewrite length_app. cbn [List.length]. intros Hk.
    destruct (decide (k = List.length vals)) as [->|Hne]; [exact Hn|apply Hok; lia].
Qed.

Lemma timer_track_local W i src done a j g d vals :
  g_idx g = i -> g_src g = src -> local_move W done a j g (Next d) ->
  timer_track W i src vals (g_drv g) -> timer_track W i src vals d.
Proof.
  intros Hi Hs Hl [Hall Hd]. split; [exact Hall|].
  destruct (g_drv g) as [pc|pc ro re] eqn:Hdrv; [|contradiction].
  destruct a; cbn in Hl; try contradiction.
  - destruct Hl as [_ Ho]. unfold go_step in Ho. rewrite Hdrv, Hi, Hs in Ho.
    destruct pc; try discriminate.
    + unfold timer_start in Ho. subst vals.
      destruct (nth_error _ 1); [|discriminate].
      destruct (time_ParseDuration W s); [|simplify_eq; exact I].
      destruct (timer_run W i 0) as [o [cause|]] eqn:Hrun; simplify_eq; [exact I|].
      cbn. auto.
    + destruct (d0 <=? 0)%Z; simplify_eq. cbn. lia.
    + unfold timer_tick in Ho. cbn in Hd. subst k.
      destruct (timer_run W i (List.length vals)) as [o [cause|]] eqn:Hrun; simplify_eq; [exact I|].
      cbn. auto.
  - destruct Hl as (_ & _ & Ho). unfold go_done in Ho. rewrite Hdrv in Ho.
    destruct pc; simplify_eq; exact I.
  - destruct Hl as [_ Ho]. unfold go_recv in Ho. rewrite Hdrv in Ho.
    repeat case_match; simplify_eq.
  - destruct Hl as [_ Ho]. unfold on_reader in Ho. rewrite Hdrv in Ho.
    repeat case_match; simplify_eq.
  - destruct Hl as (_ & _ & Ho). unfold on_reader in Ho. rewrite Hdrv in Ho.
    repeat case_match; simplify_eq.
Qed.

Lemma timer_track_send W i src g o d vals :
  g_src g = src -> offers_out (g_drv g) = Some (o, d) ->
  timer_track W i src vals (g_drv g) -> timer_track W i src (vals ++ [oValue o]) d.
Proof.
  intros Hs Ho [Hall Hd].
  destruct (g_drv g) as [pc|pc ro re]; [|contradiction].
  destruct pc; cbn in Ho; simplify_eq.
  - destruct Hd as (-> & -> & Hok). cbn [oValue mkOutput app].
    split; [apply (all_runs_snoc W i []); [apply all_runs_nil|exact Hok]|reflexivity].
  - destruct Hd as (-> & -> & Hok). cbn [oValue mkOutput].
    split; [apply all_runs_snoc; assumption|].
    cbn. rewrite length_app. cbn. lia.
Qed.

(** X13: the values rendered for a timer source are the outputs of the runs
    number 0, 1, 2, ... of its command, in this order, none left out and none
    twice, and each of these runs succeeded: the first output comes from the
    run before the ticker is made, every later one from the run after one
    tick, and a failed run is not rendered. *)
Theorem timer_renders_runs_in_order W c i src acts st :
  Sources c !! i = Some src -> dispatch (Type_ src) = KTimer ->
  exec W c acts (init c) = Some st ->
  values_of i st = runs_of W i (List.length (values_of i st)) /\
  forall k, k < List.length (values_of i st) -> (timer_run W i k).2 = None.
Proof.
  intros Hsrc Hk Hex.
  apply (tracking_reachable W c i src (timer_track W i src) (all_runs W i) false) in Hex.
  - apply Hex. discriminate.
  - exact Hsrc.
  - congruence.
  - apply all_runs_nil.
  - intros vals d [H _]. exact H.
  - intros g Hg. unfold new_goroutine in Hg. rewrite Hk in Hg. simplify_eq.
    split; [apply all_runs_nil|reflexivity].
  - intros done a j g d vals _. intros. eapply timer_track_local; eauto.
  - intros. eapply timer_track_send; eauto.
Qed.

Lemma timer_renders_runs_in_order_witness :
  exists st,
    exec counting_world timer_config_1s
      [SpewStep; GoStep 0; SpewRecvOut 0; GoStep 0; GoStep 0; SpewRecvOut 0]
      (init timer_config_1s) = Some st /\
    values_of 0 st = ["zero"; "one"].
Proof.
  eexists. split; [vm_compute; reflexivity|].
  pose proof (timer_renders_runs_in_order counting_world timer_config_1s 0 _
                [SpewStep; GoStep 0; SpewRecvOut 0; GoStep 0; GoStep 0; SpewRecvOut 0] _
                eq_refl eq_refl eq_refl) as [H _].
  exact H.
Defined.

(** ** A goroutine whose start fails *)

Lemma stillborn_local W i src done a j g d vals :
  start_fails W i src ->
  g_idx g = i -> g_src g = src -> local_move W done a j g (Next d) ->
  stillborn (dispatch (Type_ src)) vals (g_drv g) ->
  stillborn (dispatch (Type_ src)) vals d.
Proof.
  unfold start_fails, stillborn. intros Hf Hi Hs Hl [Hv Hd]. split; [exact Hv|].
  destruct a; cbn in Hl; try contradiction.
  - destruct Hl as [_ Ho]. unfold go_step in Ho. rewrite Hi, Hs in Ho.
    destruct (dispatch (Type_ src)); try contradiction;
      destruct (g_drv g) as [[]|[] ro re]; try contradiction; try discriminate.
    + unfold timer_start in Ho.
      destruct (nth_error _ 1) as [part|] eqn:Hp; [|discriminate].
      destruct (Hf part eq_refl) as [cause Hc]. rewrite Hc in Ho. simplify_eq. exact I.
    + unfold listener_start in Ho.
      destruct (listener_cmd W i) eqn:Hc; simplify_eq; try exact I.
      exfalso. eapply Hf. reflexivity.
  - destruct Hl as (_ & _ & Ho). unfold go_done in Ho.
    destruct (dispatch (Type_ src)); try contradiction;
      destruct (g_drv g) as [[]|[] ro re]; try contradiction; simplify_eq; exact I.
  - destruct Hl as [_ Ho]. unfold go_recv in Ho.
    destruct (dispatch (Type_ src)); try contradiction;
      destruct (g_drv g) as [[]|[] ro re]; try contradiction; simplify_eq.
  - destruct Hl as [_ Ho]. unfold on_reader in Ho.
    destruct (dispatch (Type_ src)); try contradiction;
      destruct (g_drv g) as [[]|[] ro re]; try contradiction; simplify_eq;
      repeat case_match; simplify_eq; exact I.
  - destruct Hl as (_ & _ & Ho). unfold on_reader in Ho.
    destruct (dispatch (Type_ src)); try contradiction;
      destruct (g_drv g) as [[]|[] ro re]; try contradiction; simplify_eq;
      repeat case_match; simplify_eq; exact I.
Qed.

(** X14: a source whose goroutine fails at its start is never rendered: a
    listener whose command cannot be started (a pipe cannot be set up, or
    Start fails) and a timer whose duration does not parse send nothing on
    outChan, whatever the schedule; their only message is the error. *)
Theorem failed_start_renders_nothing W c i src acts st :
  Sources c !! i = Some src -> start_fails W i src ->
  exec W c acts (init c) = Some st ->
  rendered_of i st = [].
Proof.
  intros Hsrc Hf Hex.
  apply (tracking_reachable W c i src (stillborn (dispatch (Type_ src)))
           (fun vals => vals = []) false) in Hex.
  - destruct Hex as [Hv _]; [discriminate|]. unfold values_of in Hv. eapply fmap_nil_inv, Hv.
  - exact Hsrc.
  - intros Hk. unfold start_fails in Hf. rewrite Hk in Hf. exact Hf.
  - reflexivity.
  - intros vals d [H _]. exact H.
  - intros g Hg. unfold new_goroutine in Hg. split; [reflexivity|].
    destruct (dispatch (Type_ src)); simplify_eq; exact I.
  - intros done a j g d vals _. intros. eapply stillborn_local; eauto.
  - intros g o d vals _ Ho [_ Hd]. exfalso.
    destruct (dispatch (Type_ src)); try contradiction;
      destruct (g_drv g) as [[]|[] ro re]; try contradiction; discriminate.
Qed.

Lemma failed_start_renders_nothing_witness :
  exists st,
    exec failing_start_world listen_config [SpewStep; GoStep 0; SpewRecvErr 0]
      (init listen_config) = Some st /\
    pc st = Returned (Some (ErrStart "gen" "not found")) /\
    rendered_of 0 st = [].
Proof.
  eexists. split; [vm_compute; reflexivity|]. split; [reflexivity|].
  refine (failed_start_renders_nothing failing_start_world listen_config 0 listen_source
           [SpewStep; GoStep 0; SpewRecvErr 0] _ eq_refl _ eq_refl).
  unfold start_fails. cbn. intros so se. discriminate.
Defined.

(** * Further properties: the command *)

Lemma step_keeps_mainDone W c st a st' :
  step W c st a = Some st' -> a <> MainCancel -> mainDone st' = mainDone st.
Proof.
  intros Hs Ha. apply step_moves in Hs as [_ Hm].
  destruct Hm; try reflexivity; try congruence;
    unfold handle; destruct (render _ _ _ _); reflexivity.
Qed.

Lemma background_keeps_mainDone W c acts st st' :
  background acts = true -> exec W c acts st = Some st' -> mainDone st' = mainDone st.
Proof.
  revert st. induction acts as [|a acts IH]; intros st Hb Hex; cbn in Hb, Hex.
  - congruence.
  - apply andb_true_iff in Hb as [Ha Hb].
    destruct (step W c st a) as [st1|] eqn:Hs; [|discriminate].
    rewrite (IH st1 Hb Hex). eapply step_keeps_mainDone; [exact Hs|].
    intros ->. discriminate.
Qed.

(** X15: the command never ends in success: it runs [Spew] under
    [context.Background()], which is never done, so [Spew] never returns nil
    and [main] never returns; the command prints its usage, panics, or
    keeps running, whatever the config file and the schedule are. *)
Theorem command_never_succeeds W toml_DecodeFile args acts :
  main W toml_DecodeFile args acts <> Some Success.
Proof.
  unfold main. destruct args as [|a0 [|file args]]; [discriminate..|].
  destruct (toml_DecodeFile file) as [c|cause]; [|discriminate].
  destruct (Spew_start W c) as [e|st0] eqn:Hst; [discriminate|].
  destruct (background acts) eqn:Hb; [|discriminate].
  destruct (exec W c acts st0) as [st|] eqn:Hex; [|discriminate].
  apply Spew_start_inr in Hst. subst st0.
  pose proof (background_keeps_mainDone _ _ _ _ _ Hb Hex) as Hmd.
  pose proof (never_nil_reachable _ _ _ _ Hex) as Hn.
  destruct (Hn Hmd) as [Hpc _].
  destruct (crashed st); [discriminate|].
  destruct (pc st) as [| |[e|]]; try discriminate. congruence.
Qed.

(** * Further properties: after the cancellation *)

Lemma readers_wind_down W j g ro re :
  g_drv g = Listener LReturned ro re ->
  exists acts g', winds_down W j g acts (Some g').
Proof.
  intros Hd.
  assert (Hre : forall g ro re, g_drv g = Listener LReturned ro re -> not_sending ro ->
                  exists acts g', winds_down W j g acts (Some g')).
  { clear. intros g ro re Hd Hro.
    destruct (r_pc re) eqn:Hre.
    1,2,5: (exists [], g; apply wd_settled; unfold settled, not_sending; rewrite Hd, Hre; auto).
    all: eexists [ReaderDone j Stderr], _; eapply wd_step;
      [reflexivity
      |cbn; split; [reflexivity|]; split; [reflexivity|];
       unfold on_reader, reader_done; rewrite Hd, Hre; reflexivity
      |apply wd_settled; unfold settled, not_sending; cbn; auto]. }
  destruct (r_pc ro) eqn:Hro.
  1,2,5: (eapply Hre; [exact Hd|unfold not_sending; rewrite Hro; exact I]).
  all: edestruct (Hre (with_driver g (Listener LReturned {| r_pc := RClosed; r_rest := r_rest ro |} re)))
         as (acts & g' & Hw); [reflexivity|exact I|];
       exists (ReaderDone j Stdout :: acts), g'; eapply wd_step;
         [reflexivity
         |cbn; split; [reflexivity|]; split; [reflexivity|];
          unfold on_reader, reader_done; rewrite Hd, Hro; reflexivity
         |exact Hw].
Qed.

Lemma returned_winds_down W j g d :
  (d = Timer TReturned \/ exists ro re, d = Listener LReturned ro re) ->
  g_drv g = d ->
  exists acts g', winds_down W j g acts (Some g').
Proof.
  intros [->|(ro & re & ->)] Hd.
  - exists [], g. apply wd_settled. unfold settled. rewrite Hd. exact I.
  - eapply readers_wind_down, Hd.
Qed.

Lemma go_done_returns g d :
  go_done g = Next d -> d = Timer TReturned \/ exists ro re, d = Listener LReturned ro re.
Proof.
  unfold go_done. intros H.
  destruct (g_drv g) as [[]|[] ro re]; simplify_eq; eauto.
Qed.

Lemma done_winds_down W j g d :
  go_done g = Next d -> exists acts g', winds_down W j g acts (Some g').
Proof.
  intros Hd.
  destruct (returned_winds_down W j (with_driver g d) d (go_done_returns _ _ Hd) eq_refl)
    as (acts & g' & Hw).
  exists (GoDone j :: acts), g'. eapply wd_step; [reflexivity| |exact Hw].
  cbn. auto.
Qed.

Lemma go_step_then_done W g d :
  go_step W g = Next d -> exists d', go_done (with_driver g d) = Next d'.
Proof.
  unfold go_step, go_done, timer_start, timer_tick, listener_start. cbn [g_drv with_driver].
  intros H. destruct (g_drv g) as [[]|[] ro re]; try discriminate;
    repeat case_match; simplify_eq; eauto.
Qed.

Lemma winds_down_exists W j g : exists acts r, winds_down W j g acts r.
Proof.
  destruct (go_done g) as [d| |] eqn:Hdone.
  - destruct (done_winds_down W j g d Hdone) as (acts & g' & Hw). eauto.
  - unfold go_done in Hdone. repeat case_match; discriminate.
  - destruct (go_step W g) as [d| |] eqn:Hstep.
    + destruct (go_step_then_done W g d Hstep) as [d' Hd'].
      destruct (done_winds_down W j _ _ Hd') as (acts & g' & Hw).
      exists (GoStep j :: acts), (Some g'). eapply wd_step; [reflexivity| |exact Hw].
      cbn. auto.
    + exists [GoStep j], None. apply wd_panic; [reflexivity|]. cbn. auto.
    + assert (Hr : g_drv g = Timer TReturned \/ exists ro re, g_drv g = Listener LReturned ro re).
      { unfold go_done in Hdone.
        unfold go_step, listener_start, timer_start, timer_tick in Hstep.
        destruct (g_drv g) as [[]|[] ro re]; try discriminate; eauto;
          repeat case_match; discriminate. }
      destruct (returned_winds_down W j g _ Hr eq_refl) as (acts & g' & Hw). eauto.
Qed.

Lemma own_step_exec W c st j a g out :
  own_step j a -> local_move W true a j g out ->
  crashed st = false -> ctxDone st = true -> goroutines st !! j = Some g ->
  step W c st a =
    match out with
    | Next d => Some (set_goroutines st (<[j := with_driver g d]> (goroutines st)))
    | Panic => Some (set_crashed st)
    | Blocked => None
    end.
Proof.
  intros Ho Hl Hc Hd Hg.
  destruct a; cbn in Ho; try contradiction; subst; cbn in Hl; unfold step, local;
    rewrite Hc, ?Hd, Hg.
  - destruct Hl as [_ ->]. reflexivity.
  - destruct Hl as (_ & _ & ->). reflexivity.
  - destruct Hl as (_ & _ & ->). reflexivity.
Qed.

Lemma winds_down_exec W c j g acts r :
  winds_down W j g acts r ->
  forall st, crashed st = false -> ctxDone st = true -> goroutines st !! j = Some g ->
  exists st', exec W c acts st = Some st' /\ same_supervisor st st' /\
              goroutines_own acts /\
              match r with
              | Some g' => crashed st' = false /\ settled g' /\
                           goroutines st' = <[j := g']> (goroutines st)
              | None => crashed st' = true
              end.
Proof.
  induction 1 as [g Hs|g a Ho Hl|g a d acts r Ho Hl Hw IH]; intros st Hc Hd Hg.
  - exists st. split; [reflexivity|]. split; [repeat split|]. split; [constructor|].
    split; [exact Hc|]. split; [exact Hs|]. symmetry. apply list_insert_id, Hg.
  - exists (set_crashed st). cbn [exec].
    rewrite (own_step_exec W c st j a g Panic Ho Hl Hc Hd Hg).
    split; [reflexivity|]. split; [repeat split|]. split; [|reflexivity].
    constructor; [eauto|constructor].
  - cbn [exec]. rewrite (own_step_exec W c st j a g (Next d) Ho Hl Hc Hd Hg).
    destruct (IH (set_goroutines st (<[j := with_driver g d]> (goroutines st))))
      as (st' & Hex & Hsame & Hown & Hr).
    + exact Hc.
    + exact Hd.
    + cbn. apply list_lookup_insert_eq. eapply lookup_lt_Some, Hg.
    + exists st'. split; [exact Hex|]. split; [exact Hsame|].
      split; [constructor; [eauto|exact Hown]|].
      destruct r as [g'|]; [|exact Hr].
      destruct Hr as (Hc' & Hs' & Hgs). split; [exact Hc'|]. split; [exact Hs'|].
      rewrite Hgs. cbn. apply list_insert_insert_eq.
Qed.

Lemma wind_down_upto W c n :
  forall st, n <= List.length (goroutines st) -> crashed st = false -> ctxDone st = true ->
  exists acts st', exec W c acts st = Some st' /\ same_supervisor st st' /\
    goroutines_own acts /\
    (crashed st' = true \/
     (crashed st' = false /\ List.length (goroutines st') = List.length (goroutines st) /\
      Forall settled (take n (goroutines st')))).
Proof.
  induction n as [|n IH]; intros st Hn Hc Hd.
  - exists [], st. split; [reflexivity|]. split; [repeat split|]. split; [constructor|].
    right. split; [exact Hc|]. split; [reflexivity|]. rewrite take_0. constructor.
  - destruct (IH st) as (acts1 & st1 & Hex1 & Hsame1 & Hown1 & Hr1); [lia|exact Hc|exact Hd|].
    destruct Hr1 as [Hcr|(Hc1 & Hlen1 & Hset1)].
    { exists acts1, st1. auto. }
    destruct (lookup_lt_is_Some_2 (goroutines st1) n) as [g Hg]; [lia|].
    destruct (winds_down_exists W n g) as (acts2 & r & Hw).
    assert (Hd1 : ctxDone st1 = true).
    { destruct Hsame1 as (_ & _ & _ & Hm & Hca). unfold ctxDone in *. rewrite Hm, Hca. exact Hd. }
    destruct (winds_down_exec W c n g acts2 r Hw st1 Hc1 Hd1 Hg)
      as (st2 & Hex2 & Hsame2 & Hown2 & Hr2).
    exists (acts1 ++ acts2), st2. split; [rewrite exec_app, Hex1; exact Hex2|].
    split.
    { destruct Hsame1 as (? & ? & ? & ? & ?), Hsame2 as (? & ? & ? & ? & ?).
      repeat split; congruence. }
    split; [apply Forall_app; split; assumption|].
    destruct r as [g'|]; [|left; exact Hr2].
    destruct Hr2 as (Hc2 & Hs2 & Hgs2). right. split; [exact Hc2|].
    rewrite Hgs2. split; [rewrite length_insert; exact Hlen1|].
    rewrite (take_S_r _ n g').
    + rewrite take_insert_ge by lia. apply Forall_app. split; [exact Hset1|].
      constructor; [exact Hs2|constructor].
    + apply list_lookup_insert_eq. eapply lookup_lt_Some, Hg.
Qed.

(** X16: once the context is done no goroutine is held by the supervisor:
    every select of the drivers and of the line readers has its ctx.Done
    case, so from any state with the context done the goroutines can, by
    steps of their own and without the supervisor receiving anything, all
    return, leaving no reader blocked in a send (or a timer panics at its
    start); nothing is rendered on the way. *)
Theorem cancelled_goroutines_can_return W c st :
  crashed st = false -> ctxDone st = true ->
  exists acts st', exec W c acts st = Some st' /\
    goroutines_own acts /\ same_supervisor st st' /\
    (crashed st' = true \/ Forall settled (goroutines st')).
Proof.
  intros Hc Hd.
  destruct (wind_down_upto W c (List.length (goroutines st)) st) as
    (acts & st' & Hex & Hsame & Hown & Hr); [lia|exact Hc|exact Hd|].
  exists acts, st'. split; [exact Hex|]. split; [exact Hown|]. split; [exact Hsame|].
  destruct Hr as [Hcr|(_ & Hlen & Hset)]; [left; exact Hcr|right].
  rewrite <- Hlen, firstn_all in Hset. exact Hset.
Qed.

Lemma cancelled_goroutines_can_return_witness :
  exists acts st',
    exec stderr_world listen_config acts
      (after stderr_world listen_config [SpewStep; GoStep 0; ReaderRead 0 Stderr; MainCancel])
      = Some st' /\
    goroutines_own acts /\
    same_supervisor
      (after stderr_world listen_config [SpewStep; GoStep 0; ReaderRead 0 Stderr; MainCancel]) st' /\
    (crashed st' = true \/ Forall settled (goroutines st')).
Proof.
  apply cancelled_goroutines_can_return; reflexivity.
Defined.

(** * Further properties: the program of main.go *)

Lemma main_go_local_sim st j (f' : goroutine -> MainGo.outcome) (f : goroutine -> outcome) st' :
  (forall g d, f' g = MainGo.Goes d -> f g = Next d) ->
  MainGo.local st j f' = Some (MainGo.Runs st') -> local st j f = Some st'.
Proof.
  unfold MainGo.local, local. intros Hf H.
  destruct (goroutines st !! j) as [g|]; [|discriminate].
  destruct (f' g) as [d| |] eqn:Hd; simplify_eq.
  rewrite (Hf g d Hd). reflexivity.
Qed.

Lemma main_go_step_sim W g d : MainGo.go_step W g = MainGo.Goes d -> go_step W g = Next d.
Proof.
  unfold MainGo.go_step, go_step, MainGo.timer_start, timer_start, MainGo.timer_tick,
    timer_tick, MainGo.listener_start, listener_start.
  intros H. repeat case_match; simplify_eq; reflexivity.
Qed.

Lemma main_go_done_sim g d : MainGo.go_done g = MainGo.Goes d -> go_done g = Next d.
Proof.
  unfold MainGo.go_done, go_done. intros H. repeat case_match; simplify_eq; reflexivity.
Qed.

Lemma main_go_recv_sim f g d : MainGo.go_recv f g = MainGo.Goes d -> go_recv f Lines g = Next d.
Proof.
  unfold MainGo.go_recv, go_recv. intros H. repeat case_match; simplify_eq; reflexivity.
Qed.

Lemma main_go_read_sim f g d :
  MainGo.on_reader MainGo.read f g = MainGo.Goes d -> on_reader read f g = Next d.
Proof.
  unfold MainGo.on_reader, on_reader, MainGo.read, read. intros H.
  repeat case_match; simplify_eq; reflexivity.
Qed.

Lemma main_go_reader_done_sim f g d :
  MainGo.on_reader MainGo.reader_done f g = MainGo.Goes d ->
  on_reader reader_done f g = Next d.
Proof.
  unfold MainGo.on_reader, on_reader, MainGo.reader_done, reader_done. intros H.
  repeat case_match; simplify_eq; reflexivity.
Qed.

Lemma main_go_offers_sim d o d' :
  MainGo.offers_out d = Some (o, d') -> offers_out d = Some (o, d').
Proof.
  unfold MainGo.offers_out, offers_out. intros H. repeat case_match; simplify_eq; reflexivity.
Qed.

Lemma main_go_render_sim W tmpl ctx n text :
  MainGo.render W tmpl ctx n = inl text -> render W tmpl ctx n = inl text.
Proof.
  unfold MainGo.render, render. intros H. repeat case_match; simplify_eq. reflexivity.
Qed.

Lemma main_go_handle_sim W tmpl st from o next gs st' :
  MainGo.handle W tmpl st from o next gs = MainGo.Runs st' ->
  handle W tmpl st from o next gs = st'.
Proof.
  unfold MainGo.handle, handle.
  destruct (MainGo.render _ _ _ _) as [text|p] eqn:Hr; intros H; simplify_eq.
  rewrite (main_go_render_sim _ _ _ _ _ Hr). reflexivity.
Qed.

Lemma main_go_sim W c st a st' :
  MainGo.step W c st a = Some (MainGo.Runs st') -> crashed st = false ->
  step W c st a = Some st'.
Proof.
  intros H Hc. unfold step. rewrite Hc. destruct a; cbn in H.
  - discriminate.
  - destruct (pc st); try discriminate. f_equal.
    unfold MainGo.main_dispatch, spew_dispatch in *.
    destruct (dispatch (Type_ s)); simplify_eq; try reflexivity.
    destruct (once_run W i) as [o [cause|]]; simplify_eq.
    apply main_go_handle_sim. congruence.
  - destruct (pc st); try discriminate.
    destruct (ctxDone st); simplify_eq. reflexivity.
  - discriminate.
  - destruct (pc st); try discriminate.
    destruct (goroutines st !! j) as [g|]; [|discriminate].
    destruct (MainGo.offers_out (g_drv g)) as [[o d]|] eqn:Ho; [|discriminate].
    rewrite (main_go_offers_sim _ _ _ Ho). f_equal.
    apply main_go_handle_sim. congruence.
  - eapply main_go_local_sim; [|exact H]. apply main_go_step_sim.
  - destruct (ctxDone st); [|discriminate].
    eapply main_go_local_sim; [|exact H]. apply main_go_done_sim.
  - destruct k; [|discriminate].
    eapply main_go_local_sim; [|exact H]. apply main_go_recv_sim.
  - eapply main_go_local_sim; [|exact H]. apply main_go_read_sim.
  - destruct (ctxDone st); [|discriminate].
    eapply main_go_local_sim; [|exact H]. apply main_go_reader_done_sim.
Qed.

Lemma main_go_crashed W c st a st' :
  MainGo.step W c st a = Some (MainGo.Runs st') -> crashed st' = crashed st.
Proof.
  assert (Hl : forall j f, MainGo.local st j f = Some (MainGo.Runs st') ->
                           crashed st' = crashed st).
  { unfold MainGo.local. intros j f H. repeat case_match; simplify_eq. reflexivity. }
  assert (Hh : forall from o next gs, MainGo.handle W (Template c) st from o next gs = MainGo.Runs st' ->
                                      crashed st' = crashed st).
  { unfold MainGo.handle. intros from o next gs H. repeat case_match; simplify_eq. reflexivity. }
  intros H. destruct a; cbn in H; try discriminate; eauto.
  - destruct (pc st); try discriminate. unfold MainGo.main_dispatch in H.
    repeat case_match; simplify_eq; eauto.
  - repeat case_match; simplify_eq. reflexivity.
  - repeat case_match; simplify_eq; eauto.
  - destruct (ctxDone st); [eauto|discriminate].
  - destruct k; [eauto|discriminate].
  - destruct (ctxDone st); [eauto|discriminate].
Qed.

Lemma main_go_exec_sim W c acts st st' :
  crashed st = false ->
  MainGo.exec W c acts st = Some (MainGo.Runs st') ->
  exec W c acts st = Some st'.
Proof.
  revert st. induction acts as [|a acts IH]; intros st Hc H; cbn in H |- *.
  - congruence.
  - destruct (MainGo.step W c st a) as [[st1|p]|] eqn:Hs; [| |discriminate].
    + rewrite (main_go_sim _ _ _ _ _ Hs Hc). apply IH; [|exact H].
      rewrite (main_go_crashed _ _ _ _ _ Hs). exact Hc.
    + destruct acts; discriminate.
Qed.

Lemma enter_not_returned i rest r : enter i rest <> Returned r.
Proof. destruct rest; discriminate. Qed.

Lemma alive_local st j f st' :
  (forall g d, MainGo.in_loop g -> f g = MainGo.Goes d -> MainGo.in_loop (with_driver g d)) ->
  MainGo.alive st -> MainGo.local st j f = Some (MainGo.Runs st') -> MainGo.alive st'.
Proof.
  unfold MainGo.local. intros Hf (Hd & Hc & Hp & Hg) H.
  destruct (goroutines st !! j) as [g|] eqn:Hj; [|discriminate].
  destruct (f g) as [d| |] eqn:Hfg; simplify_eq.
  split; [exact Hd|]. split; [exact Hc|]. split; [exact Hp|]. cbn.
  apply Forall_insert; [exact Hg|]. apply Hf; [|exact Hfg].
  eapply Forall_lookup_1; eauto.
Qed.

Lemma alive_handle W tmpl st from o next gs st' :
  MainGo.alive st -> (forall r, next <> Returned r) -> Forall MainGo.in_loop gs ->
  MainGo.handle W tmpl st from o next gs = MainGo.Runs st' -> MainGo.alive st'.
Proof.
  unfold MainGo.handle. intros (Hd & Hc & Hp & Hg) Hn Hgs H.
  destruct (MainGo.render _ _ _ _); simplify_eq. repeat split; assumption.
Qed.

Lemma alive_step W c st a st' :
  MainGo.alive st -> MainGo.step W c st a = Some (MainGo.Runs st') -> MainGo.alive st'.
Proof.
  intros Ha H. pose proof Ha as (Hd & Hc & Hp & Hg).
  destruct a; cbn in H; try discriminate.
  - destruct (pc st) as [i s rest| |]; try discriminate.
    unfold MainGo.main_dispatch in H.
    destruct (dispatch (Type_ s)); simplify_eq.
    + repeat split; try assumption; [apply enter_not_returned|].
      cbn. apply Forall_app. split; [exact Hg|]. constructor; [exact I|constructor].
    + repeat split; try assumption; [apply enter_not_returned|].
      cbn. apply Forall_app. split; [exact Hg|]. constructor; [exact I|constructor].
    + destruct (once_run W i) as [o [cause|]]; [discriminate|].
      refine (alive_handle _ _ _ _ _ _ _ _ Ha _ Hg H). apply enter_not_returned.
  - destruct (pc st); try discriminate. rewrite Hd in H. discriminate.
  - destruct (pc st); try discriminate.
    destruct (goroutines st !! j) as [g|] eqn:Hj; [|discriminate].
    destruct (MainGo.offers_out (g_drv g)) as [[o d]|] eqn:Ho; [|discriminate].
    injection H as H.
    refine (alive_handle _ _ _ _ _ _ _ _ Ha _ _ H); [discriminate|].
    apply Forall_insert; [exact Hg|].
    unfold MainGo.offers_out in Ho. unfold MainGo.in_loop. cbn.
    repeat case_match; simplify_eq; exact I.
  - eapply alive_local; [|exact Ha|exact H].
    intros g d _. unfold MainGo.go_step, MainGo.timer_start, MainGo.timer_tick,
      MainGo.listener_start, MainGo.in_loop. cbn.
    intros Hs. repeat case_match; simplify_eq; exact I.
  - rewrite Hd in H. discriminate.
  - destruct k; [|discriminate]. eapply alive_local; [|exact Ha|exact H].
    intros g d _. unfold MainGo.go_recv, MainGo.in_loop. cbn.
    intros Hs. repeat case_match; simplify_eq; exact I.
  - eapply alive_local; [|exact Ha|exact H].
    intros g d. unfold MainGo.on_reader, MainGo.in_loop. cbn.
    intros Hin Hs. repeat case_match; simplify_eq; first [exact I|contradiction].
  - rewrite Hd in H. discriminate.
Qed.

Lemma alive_init c : MainGo.alive (init c).
Proof.
  repeat split; [apply enter_not_returned|constructor].
Qed.

Lemma alive_exec W c acts st r :
  MainGo.alive st -> MainGo.exec W c acts st = Some r ->
  Forall (fun a => ~ done_branch a) acts /\
  match r with MainGo.Runs st' => MainGo.alive st' | MainGo.Panics _ => True end.
Proof.
  revert st. induction acts as [|a acts IH]; intros st Ha H; cbn in H.
  - simplify_eq. split; [constructor|exact Ha].
  - assert (Hnd : ~ done_branch a).
    { destruct Ha as (Hd & _ & _ & _). intros Hb.
      destruct a; try contradiction; cbn in H; rewrite Hd in H;
        repeat case_match; simplify_eq. }
    destruct (MainGo.step W c st a) as [[st1|p]|] eqn:Hs; [| |discriminate].
    + destruct (IH st1 (alive_step _ _ _ _ _ Ha Hs) H) as [Hf Hr].
      split; [constructor; assumption|exact Hr].
    + destruct acts; [|discriminate]. simplify_eq.
      split; [constructor; [exact Hnd|constructor]|exact I].
Qed.

(** ** The same run with another template library *)

Lemma go_step_world W1 W2 g : same_but_template W1 W2 -> go_step W1 g = go_step W2 g.
Proof.
  intros (Hd & _ & _ & Ht & Hl). unfold go_step, timer_start, timer_tick, listener_start.
  destruct (g_drv g) as [[]|[] ro re]; try reflexivity.
  - destruct (nth_error _ 1); [|reflexivity]. rewrite Hd, Ht. reflexivity.
  - rewrite Ht. reflexivity.
  - rewrite Hl. reflexivity.
Qed.

Lemma local_other_text st1 st2 j f st1' :
  same_but_text st1 st2 -> local st1 j f = Some st1' ->
  exists st2', local st2 j f = Some st2' /\ same_but_text st1' st2'.
Proof.
  intros (Hpc & Hctx & Hmd & Hca & Hcr & Hgs & Hw). unfold local. rewrite Hgs.
  destruct (goroutines st1 !! j) as [g|]; [|discriminate].
  destruct (f g); intros H; simplify_eq; eexists; (split; [reflexivity|]);
    repeat split; cbn; congruence.
Qed.

Lemma handle_other_world W1 W2 tmpl st1 st2 from o next gs :
  same_but_template W1 W2 -> renders_whenever W1 W2 tmpl -> same_but_text st1 st2 ->
  (forall r, pc (handle W1 tmpl st1 from o next gs) <> Returned r) ->
  same_but_text (handle W1 tmpl st1 from o next gs) (handle W2 tmpl st2 from o next gs).
Proof.
  intros (_ & Hf & _) Hrw (Hpc & Hctx & Hmd & Hca & Hcr & Hgs & Hw) Hnr.
  assert (Hlen : List.length (written st2) = List.length (written st1)).
  { rewrite <- (length_fmap record_of (written st2)), Hw, length_fmap. reflexivity. }
  unfold handle, render in *. rewrite Hctx, Hlen.
  destruct (template_Execute W1 tmpl (store o (templateCtx st1))) as [text|cause] eqn:He.
  - destruct (Hrw _ _ He) as [text' He']. rewrite He', <- Hf.
    destruct (bufw_Flush W1 (List.length (written st1))).
    + exfalso. eapply Hnr. reflexivity.
    + repeat split; cbn; try congruence. rewrite !fmap_app, Hw. reflexivity.
  - exfalso. eapply Hnr. reflexivity.
Qed.

Lemma step_other_world W1 W2 c st1 st2 a st1' :
  same_but_template W1 W2 -> renders_whenever W1 W2 (Template c) ->
  same_but_text st1 st2 -> step W1 c st1 a = Some st1' ->
  (forall r, pc st1' <> Returned r) ->
  exists st2', step W2 c st2 a = Some st2' /\ same_but_text st1' st2'.
Proof.
  intros Hw Hrw Hs H Hnr. pose proof Hs as (Hpc & Hctx & Hmd & Hca & Hcr & Hgs & Hwr).
  pose proof Hw as (_ & _ & Ho & _).
  assert (Hdone : ctxDone st2 = ctxDone st1) by (unfold ctxDone; congruence).
  unfold step in *. rewrite Hcr. destruct (crashed st1) eqn:Hc1; [discriminate|].
  destruct a.
  - simplify_eq. eexists. split; [reflexivity|]. repeat split; cbn; congruence.
  - rewrite Hpc. destruct (pc st1) as [i s rest| |]; try discriminate. simplify_eq.
    eexists. split; [reflexivity|]. unfold spew_dispatch in *. rewrite Hgs, <- Ho.
    destruct (dispatch (Type_ s)).
    + repeat split; cbn; congruence.
    + repeat split; cbn; congruence.
    + destruct (once_run W1 i) as [o [cause|]].
      * exfalso. eapply Hnr. reflexivity.
      * apply handle_other_world; assumption.
    + exfalso. eapply Hnr. reflexivity.
  - exfalso. destruct (pc st1); try discriminate. destruct (ctxDone st1); simplify_eq.
    eapply Hnr. reflexivity.
  - exfalso. destruct (pc st1); try discriminate.
    destruct (goroutines st1 !! j) as [g|]; [|discriminate].
    destruct (offers_err (g_drv g)) as [[e d]|]; simplify_eq. eapply Hnr. reflexivity.
  - rewrite Hpc, Hgs. destruct (pc st1); try discriminate.
    destruct (goroutines st1 !! j) as [g|]; [|discriminate].
    destruct (offers_out (g_drv g)) as [[o d]|]; simplify_eq.
    eexists. split; [reflexivity|]. apply handle_other_world; assumption.
  - eapply local_other_text in H as (st2' & H2 & Hs'); [|exact Hs].
    exists st2'. split; [|exact Hs']. unfold local in *.
    destruct (goroutines st2 !! j) as [g|]; [|discriminate].
    rewrite <- (go_step_world W1 W2 g Hw). exact H2.
  - rewrite Hdone. destruct (ctxDone st1); [|discriminate].
    eapply local_other_text; eauto.
  - eapply local_other_text; eauto.
  - eapply local_other_text; eauto.
  - rewrite Hdone. destruct (ctxDone st1); [|discriminate].
    eapply local_other_text; eauto.
Qed.

Lemma main_go_exec_other_world Wm Ws c acts :
  same_but_template Wm Ws -> renders_whenever Wm Ws (Template c) ->
  forall st1 st2 st1',
  MainGo.alive st1 -> same_but_text st1 st2 ->
  MainGo.exec Wm c acts st1 = Some (MainGo.Runs st1') ->
  exists st2', exec Ws c acts st2 = Some st2' /\ same_but_text st1' st2'.
Proof.
  intros Hw Hrw. induction acts as [|a acts IH]; intros st1 st2 st1' Ha Hs H; cbn in H |- *.
  - simplify_eq. eauto.
  - destruct (MainGo.step Wm c st1 a) as [[s1|p]|] eqn:Hstep; [| |discriminate].
    + pose proof (alive_step _ _ _ _ _ Ha Hstep) as Ha1.
      destruct Ha as (_ & Hc & _ & _).
      pose proof (main_go_sim _ _ _ _ _ Hstep Hc) as Hsim.
      destruct Ha1 as (Hd1 & Hc1 & Hp1 & Hg1).
      destruct (step_other_world Wm Ws c st1 st2 a s1 Hw Hrw Hs Hsim Hp1) as (s2 & Hs2 & Hrel).
      rewrite Hs2. eapply IH; [|exact Hrel|exact H]. repeat split; assumption.
    + destruct acts; discriminate.
Qed.

(** X17: the library is the program of main.go with its panics turned into
    returned errors and its html template replaced by a text template: when
    the two run in worlds that differ at most in the template library, and
    the text template executes wherever the html template does, a run of
    main.go that has not panicked is, action by action, a run of [Spew] to a
    state with the same table, the same goroutines and the same records
    rendered in the same order (the rendered texts may differ), in which the
    context is not done and [Spew] has not returned. *)
Theorem main_go_runs_are_spew_runs Wm Ws c acts st :
  same_but_template Wm Ws -> renders_whenever Wm Ws (Template c) ->
  MainGo.exec Wm c acts (init c) = Some (MainGo.Runs st) ->
  exists st', exec Ws c acts (init c) = Some st' /\ same_but_text st st' /\
              ctxDone st' = false /\ crashed st' = false /\
              forall r, pc st' <> Returned r.
Proof.
  intros Hw Hrw Hex.
  destruct (alive_exec _ _ _ _ _ (alive_init c) Hex) as [_ (Hd & Hc & Hp & _)].
  destruct (main_go_exec_other_world Wm Ws c acts Hw Hrw (init c) (init c) st
              (alive_init c)) as (st' & Hex' & Hs); [repeat split|exact Hex|].
  exists st'. split; [exact Hex'|]. split; [exact Hs|].
  destruct Hs as (Hpc & _ & Hmd & Hca & Hcr & _).
  unfold ctxDone in *. rewrite Hmd, Hca, Hcr, Hpc. auto.
Qed.

Lemma main_go_runs_are_spew_runs_witness :
  exists st st',
    MainGo.exec (less_world html_table) listen_config ([SpewStep; GoStep 0] ++ forward)
      (init listen_config) = Some (MainGo.Runs st) /\
    exec (less_world show_table) listen_config ([SpewStep; GoStep 0] ++ forward)
      (init listen_config) = Some st' /\
    r_text <$> written st = ["Random=a&lt;b;|"] /\
    r_text <$> written st' = ["Random=a<b;|"] /\
    same_but_text st st'.
Proof.
  assert (Hw : same_but_template (less_world html_table) (less_world show_table)).
  { repeat split. }
  assert (Hrw : renders_whenever (less_world html_table) (less_world show_table) "|").
  { intros ctx text _. eexists. reflexivity. }
  destruct (main_go_runs_are_spew_runs (less_world html_table) (less_world show_table)
              listen_config ([SpewStep; GoStep 0] ++ forward) _ Hw Hrw eq_refl)
    as (st' & Hex' & Hs & _).
  eexists. exists st'. split; [reflexivity|]. split; [exact Hex'|].
  split; [vm_compute; reflexivity|]. split; [|exact Hs].
  vm_compute in Hex'. injection Hex' as <-. vm_compute. reflexivity.
Defined.

(** X18: the program of main.go never returns: its context comes from
    [context.Background()] and is cancelled only by the deferred call, so
    no schedule ever takes a branch on [ctx.Done()], in [main] or in a
    goroutine; the program prints its usage, panics, or keeps running. *)
Theorem main_go_never_returns W toml_DecodeFile args acts :
  MainGo.main W toml_DecodeFile args acts <> Some MainGo.Returns /\
  forall c r, MainGo.exec W c acts (init c) = Some r ->
              Forall (fun a => ~ done_branch a) acts.
Proof.
  split.
  - unfold MainGo.main. destruct args as [|a0 [|file args]]; [discriminate..|].
    destruct (toml_DecodeFile file) as [c|cause]; [|discriminate].
    destruct (template_Parse W (Template c)); [discriminate|].
    destruct (MainGo.exec W c acts (init c)) as [[st|p]|] eqn:Hex; [|discriminate..].
    destruct (alive_exec _ _ _ _ _ (alive_init c) Hex) as [_ (_ & _ & Hp & _)].
    destruct (pc st) as [| |r] eqn:Hpc; try discriminate. exfalso. eapply Hp. reflexivity.
  - intros c r Hex. eapply alive_exec; [apply alive_init|exact Hex].
Qed.

Section StdoutPipe.

Variables (W : World) (i : nat) (src : Source) (so se : stream).
Hypothesis Hcmd : listener_cmd W i = Started so se.

Lemma stdout_pipe_local a j g d vals :
  g_idx g = i -> g_src g = src -> local_move W false a j g (Next d) ->
  stdout_pipe (lines so) vals (g_drv g) -> stdout_pipe (lines so) vals d.
Proof using Hcmd.
  intros Hi Hs Hl Hp. destruct g as [gi gs gd]. cbn in Hi, Hs, Hp. subst gi gs.
  destruct a; cbn in Hl; try contradiction.
  - destruct Hl as [_ Ho]. unfold go_step in Ho. cbn in Ho.
    destruct gd as [[]|[] ro re]; try contradiction; try discriminate.
    unfold listener_start in Ho. rewrite Hcmd in Ho. simplify_eq.
    cbn in Hp. subst vals. cbn. split; [discriminate|reflexivity].
  - destruct Hl as (_ & Hf & _). discriminate.
  - destruct Hl as [_ Ho]. unfold go_recv in Ho. cbn in Ho.
    destruct gd as [[]|[] ro re]; try contradiction; try discriminate.
    destruct Hp as [Hro Hv].
    destruct f, k; cbn in Ho.
    + unfold recv_line in Ho. destruct (r_pc ro) eqn:Hpc; simplify_eq; try contradiction.
      cbn. split; [discriminate|]. unfold in_reader in Hv. rewrite Hpc in Hv. exact Hv.
    + unfold recv_err in Ho. destruct (r_pc ro); simplify_eq; exact I.
    + unfold recv_line in Ho. destruct (r_pc re); simplify_eq; exact I.
    + unfold recv_err in Ho. destruct (r_pc re); simplify_eq; exact I.
  - destruct Hl as [_ Ho]. unfold on_reader, read in Ho. cbn in Ho.
    destruct gd as [[]|[] ro re]; try contradiction; try discriminate;
      destruct f; repeat case_match; simplify_eq; try exact I; try exact Hp;
      cbn in Hp |- *; destruct Hp as [Hro Hv]; (split; [try discriminate; try exact Hro|]);
      unfold in_reader in *; cbn; repeat case_match; simplify_eq; try exact Hv;
      cbn in *; congruence.
  - destruct Hl as (_ & Hf & _). discriminate.
Qed.

Lemma stdout_pipe_send g o d vals :
  offers_out (g_drv g) = Some (o, d) ->
  stdout_pipe (lines so) vals (g_drv g) -> stdout_pipe (lines so) (vals ++ [oValue o]) d.
Proof using Type.
  intros Ho Hp. destruct (g_drv g) as [p|p ro re]; [contradiction Hp|].
  destruct p; cbn in Ho; simplify_eq; try exact I.
  cbn in Hp |- *. destruct Hp as [Hro Hv]. split; [exact Hro|].
  rewrite <- app_assoc. exact Hv.
Qed.

End StdoutPipe.

(** X19: in the program of main.go a line of a listener's standard error
    is never rendered: whatever the command writes to its standard error,
    the values rendered for a listener are lines of its standard output, in
    the order the command printed them, none left out and none twice. *)
Theorem main_go_renders_stdout_only W c i src so se acts st :
  Sources c !! i = Some src -> dispatch (Type_ src) = KListen ->
  listener_cmd W i = Started so se ->
  MainGo.exec W c acts (init c) = Some (MainGo.Runs st) ->
  values_of i st `prefix_of` lines so.
Proof.
  intros Hsrc Hk Hcmd Hex.
  destruct (alive_exec _ _ _ _ _ (alive_init c) Hex) as [_ (Hd & _ & _ & Hloop)].
  apply main_go_exec_sim in Hex; [|reflexivity].
  apply orb_false_iff in Hd as [Hmd Hcan].
  apply (tracking_reachable W c i src (stdout_pipe (lines so)) (fun _ => True) true) in Hex.
  - destruct (Hex (fun _ => Hmd)) as [_ Hstrong].
    destruct (Hstrong Hcan) as [Hpipe Hnone].
    destruct (decide (Exists (fun g => g_idx g = i) (goroutines st))) as [He|Hne].
    + apply Exists_exists in He as (g & Hin & Hi).
      apply list_elem_of_lookup in Hin as [j Hj].
      pose proof (Hpipe j g Hj Hi) as Hp.
      pose proof (Forall_lookup_1 _ _ _ _ Hloop Hj) as Hl.
      unfold MainGo.in_loop in Hl. unfold stdout_pipe in Hp.
      destruct (g_drv g) as [p|p ro re]; [contradiction|].
      destruct p; try contradiction.
      * rewrite Hp. apply prefix_nil.
      * destruct Hp as [_ <-]. apply prefix_app_r. reflexivity.
      * destruct Hp as [_ <-]. apply prefix_app_r. reflexivity.
    + rewrite Hnone; [apply prefix_nil|].
      intros j g Hj Hi. apply Hne. apply Exists_exists. exists g.
      split; [eapply list_elem_of_lookup_2, Hj|exact Hi].
  - exact Hsrc.
  - congruence.
  - exact I.
  - intros. exact I.
  - intros g Hg. unfold new_goroutine in Hg. rewrite Hk in Hg. simplify_eq. reflexivity.
  - intros done a j g d vals Hlive Hi Hs Hl Hp.
    rewrite (Hlive eq_refl) in Hl. eapply stdout_pipe_local; eauto.
  - intros g o d vals _ Ho Hp. eapply stdout_pipe_send; eauto.
Qed.

Lemma main_go_renders_stdout_only_witness :
  exists st,
    MainGo.exec noisy_world listen_config
      ([SpewStep; GoStep 0; ReaderRead 0 Stderr] ++ forward ++ forward)
      (init listen_config) = Some (MainGo.Runs st) /\
    values_of 0 st = [nl "a"; nl "b"] /\
    values_of 0 st `prefix_of` [nl "a"; nl "b"].
Proof.
  eexists. split; [vm_compute; reflexivity|]. split; [reflexivity|].
  exact (main_go_renders_stdout_only noisy_world listen_config 0 listen_source _ _
           ([SpewStep; GoStep 0; ReaderRead 0 Stderr] ++ forward ++ forward) _
           eq_refl eq_refl eq_refl eq_refl).
Defined.
